(** * dotenv: the parsing and serialisation engine of mew-sh/dotenv

    A shallow embedding of [parser.go] (Parser.Parse, parseLine, parseValue,
    removeInlineComment, unescapeDoubleQuoted, expandVariables) and of the
    encoder of the package file (Marshal, formatEnvLine, needsQuoting,
    escapeValue), followed by the properties of the engine.

    Go strings are byte sequences: a [gostring] is a list of 8-bit
    characters.  A [map[string]string] is a finite map [gmap gostring
    gostring].  The process environment read by [os.LookupEnv] is a
    function handed to the expander. *)

From Stdlib Require Import Ascii String List Bool Arith Lia.
From stdpp Require Import base option list gmap strings sorting.

Local Open Scope char_scope.
Local Open Scope list_scope.
Local Open Scope nat_scope.

Abbreviation gostring := (list ascii).
Abbreviation Env := (gmap (list ascii) (list ascii)).

(** Equality of two bytes. *)
Infix "=c=" := Ascii.eqb (at level 70, no associativity).

(** A Go string literal. *)
Definition str (s : string) : gostring := list_ascii_of_string s.

(** ** Bytes that the engine names *)

Definition TAB : ascii := "009".
Definition LF : ascii := "010".
Definition VT : ascii := "011".
Definition FF : ascii := "012".
Definition CR : ascii := "013".
Definition SP : ascii := " ".
Definition DQ : ascii := "034".
Definition SQ : ascii := "'".
Definition BSL : ascii := "\".
Definition HASH : ascii := "#".
Definition DOLLAR : ascii := "$".
Definition NUL : ascii := "000".

Definition code (c : ascii) : nat := nat_of_ascii c.

Definition in_range (lo hi : nat) (c : ascii) : bool :=
  (lo <=? code c) && (code c <=? hi).

(** [s[i]] for an index the source has already checked to be in range. *)
Definition at_ (s : gostring) (i : nat) : ascii := nth i s NUL.

(** [s[lo:hi]] *)
Definition slice (s : gostring) (lo hi : nat) : gostring :=
  take (hi - lo) (drop lo s).

Fixpoint HasPrefix (s prefix : gostring) {struct prefix} : bool :=
  match prefix, s with
  | [], _ => true
  | p :: prefix', c :: s' => (c =c= p) && HasPrefix s' prefix'
  | _ :: _, [] => false
  end.

Definition HasSuffix (s suffix : gostring) : bool :=
  HasPrefix (rev s) (rev suffix).

(** ** strings.TrimSpace

    [strings.TrimSpace] removes leading and trailing white space as Unicode
    defines it ([unicode.IsSpace]) from the UTF-8 text: the six ASCII space
    bytes and the encodings of U+0085, U+00A0, U+1680, U+2000..U+200A,
    U+2028, U+2029, U+202F, U+205F and U+3000.  A byte sequence decodes to
    one of these runes exactly when it is that rune's (shortest) encoding,
    forwards and backwards, so trimming is stated on the bytes. *)

Definition asciiSpace (c : ascii) : bool :=
  (c =c= TAB) || (c =c= LF) || (c =c= VT) || (c =c= FF) || (c =c= CR) || (c =c= SP).

(** U+0085 is C2 85, U+00A0 is C2 A0. *)
Definition isSpace2 (a b : ascii) : bool :=
  (code a =? 194) && ((code b =? 133) || (code b =? 160)).

(** U+1680 is E1 9A 80; U+2000..U+200A are E2 80 80..8A; U+2028, U+2029,
    U+202F are E2 80 A8, A9, AF; U+205F is E2 81 9F; U+3000 is E3 80 80. *)
Definition isSpace3 (a b c : ascii) : bool :=
  ((code a =? 225) && (code b =? 154) && (code c =? 128))
  || ((code a =? 226) && (code b =? 128)
      && (in_range 128 138 c || (code c =? 168) || (code c =? 169)
          || (code c =? 175)))
  || ((code a =? 226) && (code b =? 129) && (code c =? 159))
  || ((code a =? 227) && (code b =? 128) && (code c =? 128)).

(** Strips white-space runes from the front; [sp2] and [sp3] recognise the
    two- and three-byte encodings in the order the bytes are met. *)
Fixpoint trimFront (sp2 : ascii -> ascii -> bool)
    (sp3 : ascii -> ascii -> ascii -> bool) (s : gostring) : gostring :=
  match s with
  | [] => []
  | a :: s1 =>
    if asciiSpace a then trimFront sp2 sp3 s1
    else
      match s1 with
      | [] => s
      | b :: s2 =>
        if sp2 a b then trimFront sp2 sp3 s2
        else
          match s2 with
          | [] => s
          | c :: s3 => if sp3 a b c then trimFront sp2 sp3 s3 else s
          end
      end
  end.

Definition TrimLeftSpace (s : gostring) : gostring :=
  trimFront isSpace2 isSpace3 s.

(** The string read backwards, in one pass. *)
Definition reversed (s : gostring) : gostring := rev_append s [].

(** From the end the bytes of an encoding are met last byte first. *)
Definition TrimRightSpace (s : gostring) : gostring :=
  reversed (trimFront (fun b a => isSpace2 a b) (fun c b a => isSpace3 a b c)
              (reversed s)).

Definition TrimSpace (s : gostring) : gostring :=
  TrimRightSpace (TrimLeftSpace s).

(** ** The regular expressions of parser.go *)

(** [\s] of Go's regexp (RE2) is [[\t\n\f\r ]]: no vertical tab. *)
Definition reSpace (c : ascii) : bool :=
  (c =c= TAB) || (c =c= LF) || (c =c= FF) || (c =c= CR) || (c =c= SP).

(** [[A-Za-z_]] *)
Definition identStart (c : ascii) : bool :=
  in_range 65 90 c || in_range 97 122 c || (c =c= "_").

(** [[A-Za-z0-9_]] *)
Definition identChar (c : ascii) : bool :=
  identStart c || in_range 48 57 c.

(** [[=:]] *)
Definition isSep (c : ascii) : bool := (c =c= "=") || (c =c= ":").

(** The longest prefix of bytes in a class, and what follows it: a greedy
    star of the class. *)
Fixpoint span (p : ascii -> bool) (s : gostring) : gostring * gostring :=
  match s with
  | c :: s' =>
    if p c then let '(m, r) := span p s' in (c :: m, r) else ([], s)
  | [] => ([], [])
  end.

(** IDENT, the pattern [[A-Za-z_][A-Za-z0-9_]*], at the start of [s]: the
    identifier and what follows it. *)
Definition takeIdent (s : gostring) : option (gostring * gostring) :=
  match s with
  | c :: s' =>
    if identStart c then let '(m, r) := span identChar s' in Some (c :: m, r)
    else None
  | [] => None
  end.

(** The tail [\s*[=:]\s*(REST)$] after the key, REST being [.*].  The
    class [\s], the identifier bytes and [[=:]] are disjoint, so each greedy
    star has one way to match; [.] excludes the newline and [$] is the end
    of the text, so when a newline is left after the last run of spaces no
    shorter run helps. *)
Definition afterKey (s : gostring) : option gostring :=
  match (span reSpace s).2 with
  | c :: s' =>
    if isSep c then
      let rest := (span reSpace s').2 in
      if forallb (fun c => negb (c =c= LF)) rest then Some rest else None
    else None
  | [] => None
  end.

(** lineRegex is [^\s*(IDENT)\s*[=:]\s*(REST)$]: the submatches 1 and 2 of
    [FindStringSubmatch], [None] for nil. *)
Definition lineRegex (line : gostring) : option (gostring * gostring) :=
  match takeIdent (span reSpace line).2 with
  | Some (key, s) =>
    match afterKey s with
    | Some value => Some (key, value)
    | None => None
    end
  | None => None
  end.

(** exportRegex is [^\s*export\s+(IDENT)\s*[=:]\s*(REST)$]. *)
Definition exportRegex (line : gostring) : option (gostring * gostring) :=
  let s := (span reSpace line).2 in
  if HasPrefix s (str "export") then
    let '(ws, s1) := span reSpace (drop 6 s) in
    match ws with
    | [] => None
    | _ :: _ =>
      match takeIdent s1 with
      | Some (key, s2) =>
        match afterKey s2 with
        | Some value => Some (key, value)
        | None => None
        end
      | None => None
      end
    end
  else None.

(** expandVarRegex is [\$\{([^}]+)\}|\$(IDENT)], here anchored at the start
    of [s]: the text of the match and what follows it.  The first
    alternative is preferred; the class [[^}]] also matches a newline. *)
Definition expandVarRegex (s : gostring) : option (gostring * gostring) :=
  match s with
  | c :: s1 =>
    if c =c= DOLLAR then
      let braced :=
        match s1 with
        | b :: s2 =>
          if b =c= "{" then
            match span (fun c => negb (c =c= "}")) s2 with
            | (x :: name, e :: rest) =>
              Some (DOLLAR :: "{" :: (x :: name) ++ [e], rest)
            | _ => None
            end
          else None
        | [] => None
        end in
      match braced with
      | Some m => Some m
      | None =>
        match takeIdent s1 with
        | Some (name, rest) => Some (DOLLAR :: name, rest)
        | None => None
        end
      end
    else None
  | [] => None
  end.

(** [re.ReplaceAllStringFunc(src, repl)]: the leftmost matches, none
    overlapping, are replaced from left to right; [skip] counts the bytes of
    the current match still to pass over. *)
Fixpoint ReplaceAllStringFunc_from (re : gostring -> option (gostring * gostring))
    (repl : gostring -> gostring) (skip : nat) (src : gostring) : gostring :=
  match src with
  | [] => []
  | c :: src' =>
    match skip with
    | S k => ReplaceAllStringFunc_from re repl k src'
    | 0 =>
      match re src with
      | Some (m, _) =>
        repl m ++ ReplaceAllStringFunc_from re repl (List.length m - 1) src'
      | None => c :: ReplaceAllStringFunc_from re repl 0 src'
      end
    end
  end.

Definition ReplaceAllStringFunc (re : gostring -> option (gostring * gostring))
    (src : gostring) (repl : gostring -> gostring) : gostring :=
  ReplaceAllStringFunc_from re repl 0 src.

(** ** parser.go *)

(** The errors the engine builds: [bufio.ErrTooLong], and the three
    [fmt.Errorf] wrappers with the data they format. *)
Inductive error : Type :=
  | ErrTooLong
  | InvalidLineFormat (line : gostring)
  | ParseErrorOnLine (lineNumber : nat) (err : error)
  | ErrorReadingInput (err : error).

Definition isEmpty (s : gostring) : bool :=
  match s with [] => true | _ :: _ => false end.

(** unescapeDoubleQuoted: the loop over the index [i] with the
    [strings.Builder] as accumulator.  Every turn advances [i], so
    [len(value)] turns are enough. *)
Fixpoint unescape_loop (fuel : nat) (value : gostring) (i : nat)
    (result : gostring) : gostring :=
  match fuel with
  | 0 => result
  | S fuel' =>
    if i <? List.length value then
      if (at_ value i =c= BSL) && (i + 1 <? List.length value) then
        let next := at_ value (i + 1) in
        let result' :=
          if next =c= "n" then result ++ [LF]
          else if next =c= "r" then result ++ [CR]
          else if next =c= "t" then result ++ [TAB]
          else if next =c= BSL then result ++ [BSL]
          else if next =c= DQ then result ++ [DQ]
          else if next =c= SQ then result ++ [SQ]
          else (result ++ [BSL]) ++ [next] in
        unescape_loop fuel' value (i + 1 + 1) result'
      else unescape_loop fuel' value (i + 1) (result ++ [at_ value i])
    else result
  end.

Definition unescapeDoubleQuoted (value : gostring) : gostring :=
  unescape_loop (List.length value) value 0 [].

(** parseValue; its error result is always nil. *)
Definition parseValue (value : gostring) : gostring * option error :=
  let value := TrimSpace value in
  if isEmpty value then ([], None)
  else
    let n := List.length value in
    if (2 <=? n)
       && (((at_ value 0 =c= DQ) && (at_ value (n - 1) =c= DQ))
           || ((at_ value 0 =c= SQ) && (at_ value (n - 1) =c= SQ)))
    then
      let quote := at_ value 0 in
      let inner := slice value 1 (n - 1) in
      if quote =c= DQ then (unescapeDoubleQuoted inner, None)
      else (inner, None)
    else (TrimSpace value, None).

(** removeInlineComment: [rest] is [line[i:]]; [inQuotes] and [quoteChar]
    are the variables of the source. *)
Fixpoint removeInlineComment_loop (line : gostring) (i : nat)
    (inQuotes : bool) (quoteChar : ascii) (rest : gostring) : gostring :=
  match rest with
  | [] => line
  | char :: rest' =>
    if negb inQuotes then
      if (char =c= DQ) || (char =c= SQ) then
        removeInlineComment_loop line (S i) true char rest'
      else if char =c= HASH then TrimSpace (slice line 0 i)
      else removeInlineComment_loop line (S i) inQuotes quoteChar rest'
    else
      if char =c= quoteChar then
        if (0 <? i) && negb (at_ line (i - 1) =c= BSL) then
          removeInlineComment_loop line (S i) false NUL rest'
        else removeInlineComment_loop line (S i) inQuotes quoteChar rest'
      else removeInlineComment_loop line (S i) inQuotes quoteChar rest'
  end.

Definition removeInlineComment (line : gostring) : gostring :=
  removeInlineComment_loop line 0 false NUL line.

(** parseLine: key, value and error. *)
Definition parseLine (line : gostring) : gostring * gostring * option error :=
  let line := removeInlineComment line in
  match exportRegex line with
  | Some (key, m2) =>
    let value := TrimSpace m2 in
    let '(parsedValue, err) := parseValue value in
    (key, parsedValue, err)
  | None =>
    match lineRegex line with
    | Some (key, m2) =>
      let value := TrimSpace m2 in
      let '(parsedValue, err) := parseValue value in
      (key, parsedValue, err)
    | None =>
      if negb (isEmpty (TrimSpace line)) then
        ([], [], Some (InvalidLineFormat line))
      else ([], [], None)
    end
  end.

(** The function handed to [ReplaceAllStringFunc] by expandVariables.
    [LookupEnv] is [os.LookupEnv]. *)
Definition expandMatch (LookupEnv : gostring -> option gostring) (env : Env)
    (match_ : gostring) : gostring :=
  let varName :=
    if HasPrefix match_ (str "${") && HasSuffix match_ (str "}") then
      slice match_ 2 (List.length match_ - 1)
    else if HasPrefix match_ (str "$") then drop 1 match_
    else [] in
  match env !! varName with
  | Some val => val
  | None =>
    match LookupEnv varName with
    | Some val => val
    | None => []
    end
  end.

Definition expandVariables (LookupEnv : gostring -> option gostring)
    (value : gostring) (env : Env) : gostring :=
  ReplaceAllStringFunc expandVarRegex value (expandMatch LookupEnv env).

(** *** bufio.Scanner with the default split function ScanLines *)

(** [bufio.MaxScanTokenSize], 64 * 1024: the buffer of a Scanner does not
    grow beyond it, and a line that does not fit together with its
    terminator makes [Scan] stop with [ErrTooLong]. *)
Definition MaxScanTokenSize : nat := 65536.

Definition dropCR (data : gostring) : gostring :=
  let n := List.length data in
  if (0 <? n) && (at_ data (n - 1) =c= CR) then slice data 0 (n - 1)
  else data.

(** The tokens that the successive calls of [scanner.Scan()] deliver on a
    reader holding [input], and [scanner.Err()] once [Scan] has returned
    false.  [cur] holds the bytes of the current line, last byte first. *)
Fixpoint Scanner_run (cur : gostring) (input : gostring)
    : list gostring * option error :=
  match input with
  | [] =>
    if isEmpty cur then ([], None)
    else if MaxScanTokenSize <=? List.length cur then ([], Some ErrTooLong)
    else ([dropCR (reversed cur)], None)
  | c :: input' =>
    if c =c= LF then
      if MaxScanTokenSize <=? List.length cur then ([], Some ErrTooLong)
      else
        let '(tokens, err) := Scanner_run [] input' in
        (dropCR (reversed cur) :: tokens, err)
    else Scanner_run (c :: cur) input'
  end.

(** The loop of Parser.Parse over the scanned lines, and the check of
    [scanner.Err()] after it.  [lineNumber] is the counter before the line
    is read.  A nil map is [None]. *)
Fixpoint Parse_loop (LookupEnv : gostring -> option gostring)
    (expandVars : bool) (lines : list gostring) (scanErr : option error)
    (lineNumber : nat) (result : Env) : option Env * option error :=
  match lines with
  | [] =>
    match scanErr with
    | Some err => (None, Some (ErrorReadingInput err))
    | None => (Some result, None)
    end
  | line :: lines' =>
    let lineNumber := S lineNumber in
    let line := TrimSpace line in
    if isEmpty line || HasPrefix line (str "#") then
      Parse_loop LookupEnv expandVars lines' scanErr lineNumber result
    else
      let '(key, value, err) := parseLine line in
      match err with
      | Some err => (None, Some (ParseErrorOnLine lineNumber err))
      | None =>
        if negb (isEmpty key) then
          let value :=
            if expandVars then expandVariables LookupEnv value result
            else value in
          Parse_loop LookupEnv expandVars lines' scanErr lineNumber
            (<[key := value]> result)
        else Parse_loop LookupEnv expandVars lines' scanErr lineNumber result
      end
  end.

(** Parser.Parse on a reader that holds [input]. *)
Definition Parser_Parse (LookupEnv : gostring -> option gostring)
    (expandVars : bool) (input : gostring) : option Env * option error :=
  let '(lines, scanErr) := Scanner_run [] input in
  Parse_loop LookupEnv expandVars lines scanErr 0 ∅.

(** ** The package file: Parse, Unmarshal, Marshal *)

(** Parse uses [NewParser()], whose [expandVars] is true. *)
Definition Parse (LookupEnv : gostring -> option gostring)
    (input : gostring) : option Env * option error :=
  Parser_Parse LookupEnv true input.

Definition Unmarshal (LookupEnv : gostring -> option gostring)
    (data : gostring) : option Env * option error :=
  Parse LookupEnv data.

(** [strings.ReplaceAll] for a one-byte [old]. *)
Definition ReplaceAll (s : gostring) (old : ascii) (new : gostring)
    : gostring :=
  flat_map (fun c => if c =c= old then new else [c]) s.

Definition escapeValue (value : gostring) : gostring :=
  let value := ReplaceAll value BSL [BSL; BSL] in
  let value := ReplaceAll value DQ [BSL; DQ] in
  let value := ReplaceAll value LF [BSL; "n"] in
  let value := ReplaceAll value CR [BSL; "r"] in
  let value := ReplaceAll value TAB [BSL; "t"] in
  value.

(** needsQuoting ranges over the runes of [value]; the nine bytes it looks
    for are ASCII, and an ASCII byte is always a rune of its own, so the
    test is one on the bytes. *)
Definition needsQuoting (value : gostring) : bool :=
  if isEmpty value then true
  else
    existsb (fun char =>
      (char =c= SP) || (char =c= TAB) || (char =c= LF) || (char =c= CR)
      || (char =c= DQ) || (char =c= SQ) || (char =c= BSL) || (char =c= HASH)
      || (char =c= DOLLAR)) value.

Definition formatEnvLine (key value : gostring) : gostring :=
  if negb (needsQuoting value) then key ++ "=" :: value
  else
    let escaped := escapeValue value in
    key ++ "=" :: DQ :: escaped ++ [DQ].

(** [a < b] on Go strings: the lexicographic order of the bytes. *)
Fixpoint string_lt (a b : gostring) : bool :=
  match a, b with
  | _, [] => false
  | [], _ :: _ => true
  | x :: a', y :: b' =>
    if code x <? code y then true
    else if code y <? code x then false
    else string_lt a' b'
  end.

Definition string_le (a b : gostring) : Prop := string_lt b a = false.

Global Instance string_le_dec a b : Decision (string_le a b).
Proof. unfold string_le. apply _. Defined.

(** [sort.Strings]: the keys in increasing order. *)
Definition sort_Strings (keys : list gostring) : list gostring :=
  merge_sort string_le keys.

(** [strings.Join] *)
Fixpoint Join (elems : list gostring) (sep : gostring) : gostring :=
  match elems with
  | [] => []
  | x :: rest =>
    match rest with
    | [] => x
    | _ :: _ => x ++ sep ++ Join rest sep
    end
  end.

(** [env[key]]: the empty string for a key that is not in the map. *)
Definition index_map (env : Env) (key : gostring) : gostring :=
  match env !! key with
  | Some v => v
  | None => []
  end.

(** Marshal.  The keys of the map are collected in the order the map yields
    them and then sorted. *)
Definition Marshal (env : Env) : gostring * option error :=
  if size env =? 0 then ([], None)
  else
    let keys := sort_Strings (map_to_list env).*1 in
    let lines := map (fun key => formatEnvLine key (index_map env key)) keys in
    (Join lines [LF], None).

(** ** The package file: Read, Load, Overload

    The process environment is a table from names to values, passed from
    call to call.  The files are a function [files]: [files name] is the
    text of the file [name] when [os.Open] succeeds and the file reads to
    its end, [None] when it cannot be opened. *)

(** [os.LookupEnv]: the empty name is never set. *)
Definition os_LookupEnv (environ : Env) (key : gostring) : option gostring :=
  if isEmpty key then None else environ !! key.

(** [os.Getenv] *)
Definition os_Getenv (environ : Env) (key : gostring) : gostring :=
  match os_LookupEnv environ key with
  | Some value => value
  | None => []
  end.

(** [os.Setenv] on Unix: EINVAL ([None]) for an empty name, a name with '='
    or NUL and a value with NUL; else the table with the name set. *)
Definition os_Setenv (key value : gostring) (environ : Env) : option Env :=
  if isEmpty key then None
  else if existsb (fun c => (c =c= "=") || (c =c= NUL)) key then None
  else if existsb (fun c => c =c= NUL) value then None
  else Some (<[key := value]> environ).

(** The errors of the package file: the two [fmt.Errorf] wrappers, and the
    error of Parse handed on as it is. *)
Inductive fileError : Type :=
  | FailedToOpenFile (filename : gostring)
  | FromParse (err : error)
  | FailedToSetEnv (key : gostring).

Definition DefaultEnvFile : gostring := str ".env".

(** readFile *)
Definition readFile (files : gostring -> option gostring)
    (LookupEnv : gostring -> option gostring) (filename : gostring)
    : option Env * option fileError :=
  match files filename with
  | None => (None, Some (FailedToOpenFile filename))
  | Some content =>
    let '(env, err) := Parse LookupEnv content in
    (env, option_map FromParse err)
  end.

(** The loop [for key, value := range env { result[key] = value }], over the
    entries in the order the map yields them; ranging over a nil map does
    nothing. *)
Definition mergeInto (env : option Env) (result : Env) : Env :=
  match env with
  | Some env =>
    foldl (fun acc kv => <[kv.1 := kv.2]> acc) result (map_to_list env)
  | None => result
  end.

Fixpoint Read_loop (files : gostring -> option gostring)
    (LookupEnv : gostring -> option gostring) (filenames : list gostring)
    (result : Env) : option Env * option fileError :=
  match filenames with
  | [] => (Some result, None)
  | filename :: filenames' =>
    let '(env, err) := readFile files LookupEnv filename in
    match err with
    | Some err => (None, Some err)
    | None => Read_loop files LookupEnv filenames' (mergeInto env result)
    end
  end.

(** Read *)
Definition Read (files : gostring -> option gostring)
    (LookupEnv : gostring -> option gostring) (filenames : list gostring)
    : option Env * option fileError :=
  let filenames :=
    if List.length filenames =? 0 then [DefaultEnvFile] else filenames in
  Read_loop files LookupEnv filenames ∅.

(** The loop of load over the entries read, in the order the map yields
    them: the environment after it and the error. *)
Fixpoint load_loop (overload : bool) (entries : list (gostring * gostring))
    (environ : Env) : Env * option fileError :=
  match entries with
  | [] => (environ, None)
  | (key, value) :: entries' =>
    if overload || isEmpty (os_Getenv environ key) then
      match os_Setenv key value environ with
      | None => (environ, Some (FailedToSetEnv key))
      | Some environ' => load_loop overload entries' environ'
      end
    else load_loop overload entries' environ
  end.

(** load: the environment after the call and the error. *)
Definition load (overload : bool) (files : gostring -> option gostring)
    (filenames : list gostring) (environ : Env) : Env * option fileError :=
  let '(env, err) := Read files (os_LookupEnv environ) filenames in
  match err with
  | Some err => (environ, Some err)
  | None =>
    load_loop overload
      (match env with Some env => map_to_list env | None => [] end) environ
  end.

Definition Load (files : gostring -> option gostring)
    (filenames : list gostring) (environ : Env) : Env * option fileError :=
  load false files filenames environ.

Definition Overload (files : gostring -> option gostring)
    (filenames : list gostring) (environ : Env) : Env * option fileError :=
  load true files filenames environ.

(** ** Write

    The file system is a state [FS].  Write makes two calls of the package
    os on it, [os.MkdirAll] and [os.WriteFile]; each gives the state after
    the call and its error, if any.  [filepath.Dir] is a function of the
    name. *)

Inductive writeError (osError : Type) : Type :=
  | FromMarshal (err : error)
  | FailedToCreateDirectory (dir : gostring) (err : osError)
  | FromWriteFile (err : osError).
Arguments FromMarshal {osError} err.
Arguments FailedToCreateDirectory {osError} dir err.
Arguments FromWriteFile {osError} err.

Section Write.
Variables FS osError : Type.
Variable filepath_Dir : gostring -> gostring.
Variable os_MkdirAll : gostring -> FS -> FS * option osError.
Variable os_WriteFile : gostring -> gostring -> FS -> FS * option osError.

Definition Write (env : Env) (filename : gostring) (fs : FS)
    : FS * option (writeError osError) :=
  let '(content, err) := Marshal env in
  match err with
  | Some err => (fs, Some (FromMarshal err))
  | None =>
    let dir := filepath_Dir filename in
    let '(fs, err) := os_MkdirAll dir fs in
    match err with
    | Some err => (fs, Some (FailedToCreateDirectory dir err))
    | None =>
      let '(fs, err) := os_WriteFile filename (content ++ [LF]) fs in
      (fs, option_map FromWriteFile err)
    end
  end.

End Write.

(** ** The getters that read a string *)

(** GetRequired: [None] is the panic. *)
Definition GetRequired (environ : Env) (key : gostring) : option gostring :=
  let value := os_Getenv environ key in
  if isEmpty value then None else Some value.

(** GetWithDefault *)
Definition GetWithDefault (environ : Env) (key defaultValue : gostring)
    : gostring :=
  let value := os_Getenv environ key in
  if negb (isEmpty value) then value else defaultValue.

(** ** Notions used to state the properties *)

(** An ASCII byte that is not white space. *)
Definition plain (c : ascii) : bool := negb (asciiSpace c) && (code c <? 128).

(** What it means for a string to have no white-space rune at its front. *)
Definition frontClean (sp2 : ascii -> ascii -> bool)
    (sp3 : ascii -> ascii -> ascii -> bool) (s : gostring) : Prop :=
  match s with
  | [] => True
  | a :: s1 =>
    asciiSpace a = false /\
    match s1 with
    | [] => True
    | b :: s2 =>
      sp2 a b = false /\
      match s2 with
      | [] => True
      | c :: _ => sp3 a b c = false
      end
    end
  end.

(** The identifier grammar [[A-Za-z_][A-Za-z0-9_]*] of keys and names. *)
Definition isIdentifier (k : gostring) : bool :=
  match k with
  | a :: k' => identStart a && forallb identChar k'
  | [] => false
  end.

(** No byte of the string is a newline. *)
Definition noLF (s : gostring) : bool := forallb (fun c => negb (c =c= LF)) s.

(** *** The quote machine of comment stripping, as the specification words
    it: two states, the quoted one remembering its delimiter. *)
Inductive qstate : Type :=
  | Unquoted
  | Quoted (q : ascii).

Definition isQuote (c : ascii) : bool := (c =c= SQ) || (c =c= DQ).

(** One byte [c] read in state [st], [prev] being the byte before it:
    [None] when a comment starts at [c]. *)
Definition qstep (st : qstate) (prev c : ascii) : option qstate :=
  match st with
  | Unquoted =>
    if isQuote c then Some (Quoted c)
    else if c =c= HASH then None
    else Some Unquoted
  | Quoted q =>
    if (c =c= q) && negb (prev =c= BSL) then Some Unquoted
    else Some (Quoted q)
  end.

(** The machine run over [s]: the state at the end of [s], or the offset at
    which a comment starts. *)
Fixpoint qrun (st : qstate) (prev : ascii) (s : gostring) : qstate + nat :=
  match s with
  | [] => inl st
  | c :: s' =>
    match qstep st prev c with
    | None => inr 0
    | Some st' =>
      match qrun st' c s' with
      | inl final => inl final
      | inr i => inr (S i)
      end
    end
  end.

(** A quoted region opened by [q] is never closed in [rest]: every [q] in
    it comes right after a backslash.  [prev] is the byte before [rest]. *)
Fixpoint unclosed (q prev : ascii) (rest : gostring) : bool :=
  match rest with
  | [] => true
  | c :: rest' =>
    negb ((c =c= q) && negb (prev =c= BSL)) && unclosed q c rest'
  end.

(** The variables [inQuotes] and [quoteChar] of the source hold a state of
    the machine. *)
Definition holds (inQuotes : bool) (quoteChar : ascii) (st : qstate) : Prop :=
  match st with
  | Unquoted => inQuotes = false
  | Quoted q => inQuotes = true /\ quoteChar = q
  end.


(** A string with neither quote nor '#' leaves the machine unquoted. *)
Definition noQuoteHash (s : gostring) : bool :=
  forallb (fun c => negb (isQuote c) && negb (c =c= HASH)) s.


(** *** Escape decoding as the specification words it *)

(** What a backslash followed by [next] emits. *)
Definition escapeOf (next : ascii) : gostring :=
  if next =c= "n" then [LF]
  else if next =c= "r" then [CR]
  else if next =c= "t" then [TAB]
  else if next =c= BSL then [BSL]
  else if next =c= DQ then [DQ]
  else if next =c= SQ then [SQ]
  else [BSL; next].

(** The scan from left to right. *)
Fixpoint decodeEscapes (s : gostring) : gostring :=
  match s with
  | [] => []
  | c :: s' =>
    if c =c= BSL then
      match s' with
      | [] => [BSL]
      | next :: s'' => escapeOf next ++ decodeEscapes s''
      end
    else c :: decodeEscapes s'
  end.

(** *** Expansion *)

(** The value a reference to [name] resolves to: the mapping built so far
    first, then the process environment, else the empty string. *)
Definition resolve (LookupEnv : gostring -> option gostring) (env : Env)
    (name : gostring) : gostring :=
  match env !! name with
  | Some v => v
  | None =>
    match LookupEnv name with
    | Some v => v
    | None => []
    end
  end.

Definition noDollar (s : gostring) : bool :=
  forallb (fun c => negb (c =c= DOLLAR)) s.

(** The text between the braces of a reference: not empty, no closing
    brace. *)
Definition braceContent (x : gostring) : bool :=
  negb (isEmpty x) && forallb (fun c => negb (c =c= "}")) x.

(** The string does not go on with an identifier byte. *)
Definition endsIdent (rest : gostring) : Prop :=
  match rest with
  | c :: _ => identChar c = false
  | [] => True
  end.

(** *** Values that the encoder leaves unquoted *)

(** The nine bytes that make the encoder quote a value. *)
Definition special (c : ascii) : bool :=
  (c =c= SP) || (c =c= TAB) || (c =c= LF) || (c =c= CR)
  || (c =c= DQ) || (c =c= SQ) || (c =c= BSL) || (c =c= HASH)
  || (c =c= DOLLAR).

(** The value contains none of them. *)
Definition cleanValue (v : gostring) : bool :=
  forallb (fun c => negb (special c)) v.

Definition noBSL (s : gostring) : bool :=
  forallb (fun c => negb (c =c= BSL)) s.

(** *** Lines *)

(** A line, as the scanner delivers it, that is not empty after comment
    stripping and matches neither the export form nor the generic form. *)
Definition malformed (line : gostring) : bool :=
  let stripped := removeInlineComment (TrimSpace line) in
  match exportRegex stripped, lineRegex stripped with
  | None, None => negb (isEmpty (TrimSpace stripped))
  | _, _ => false
  end.

(** The text of physical lines, each with its newline. *)
Definition unlines (lines : list gostring) : gostring :=
  flat_map (fun l => l ++ [LF]) lines.


(** *** The encoder as the specification words it *)

(** The escaped text of one byte of a quoted value. *)
Definition escapeByte (c : ascii) : gostring :=
  if c =c= BSL then [BSL; BSL]
  else if c =c= DQ then [BSL; DQ]
  else if c =c= LF then [BSL; "n"]
  else if c =c= CR then [BSL; "r"]
  else if c =c= TAB then [BSL; "t"]
  else [c].

(** The line of a key: unquoted exactly when the value is not empty and
    holds none of the nine bytes, else quoted and escaped. *)
Definition encodeLine (key value : gostring) : gostring :=
  if negb (isEmpty value) && cleanValue value then key ++ "=" :: value
  else key ++ "=" :: DQ :: flat_map escapeByte value ++ [DQ].

(** A value of as many bytes as the scanner's buffer holds. *)
Definition longValue : gostring := repeat "x" MaxScanTokenSize.

(** A line that Parse passes over: blank, or a comment. *)
Definition skipped (line : gostring) : bool :=
  isEmpty (TrimSpace line) || HasPrefix (TrimSpace line) (str "#").

(** No byte of the string is a NUL. *)
Definition noNUL (s : gostring) : bool := forallb (fun c => negb (c =c= NUL)) s.

(** The line KEY=value of an entry, written without quotes. *)
Definition assignment (entry : gostring * gostring) : gostring :=
  entry.1 ++ "=" :: entry.2.

(** What comment stripping leaves of the text that follows the separator of
    an assignment line. *)
Definition strippedRest (rest : gostring) : gostring :=
  match qrun Unquoted NUL rest with
  | inr j => TrimRightSpace (take j rest)
  | inl _ => rest
  end.

(** The value that the text after the separator decodes to. *)
Definition decodedRest (rest : gostring) : gostring :=
  (parseValue (TrimSpace (span reSpace (strippedRest rest)).2)).1.

(** * Properties *)

Arguments trimFront : simpl never.
Arguments MaxScanTokenSize : simpl never.

(** The 256 cases of a byte. *)
Ltac byte_cases c := destruct c as [[] [] [] [] [] [] [] []].

(** Decides [n < MaxScanTokenSize] for a length that computes. *)
Ltac short_line := apply Nat.ltb_lt; vm_compute; reflexivity.

(** ** Bytes *)

Lemma ceq_true (a b : ascii) : (a =c= b) = true <-> a = b.
Proof. apply Ascii.eqb_eq. Qed.

Lemma ceq_false (a b : ascii) : (a =c= b) = false <-> a <> b.
Proof. apply Ascii.eqb_neq. Qed.

Lemma ceq_refl (a : ascii) : (a =c= a) = true.
Proof. apply Ascii.eqb_refl. Qed.

(** ** TrimSpace *)

Section trim.
Variable sp2 : ascii -> ascii -> bool.
Variable sp3 : ascii -> ascii -> ascii -> bool.

Lemma trimFront_cons (a : ascii) (s1 : gostring) :
  trimFront sp2 sp3 (a :: s1) =
  if asciiSpace a then trimFront sp2 sp3 s1
  else
    match s1 with
    | [] => a :: s1
    | b :: s2 =>
      if sp2 a b then trimFront sp2 sp3 s2
      else
        match s2 with
        | [] => a :: s1
        | c :: s3 => if sp3 a b c then trimFront sp2 sp3 s3 else a :: s1
        end
    end.
Proof. reflexivity. Qed.

Lemma trimFront_suffix_aux (n : nat) (s : gostring) :
  List.length s <= n -> exists p, s = p ++ trimFront sp2 sp3 s.
Proof.
  revert s. induction n as [|n IH]; intros s Hs.
  { destruct s; [by exists [] | simpl in Hs; lia]. }
  destruct s as [|a s1]; [by exists []|].
  rewrite trimFront_cons. simpl in Hs.
  destruct (asciiSpace a).
  { destruct (IH s1) as [p Hp]; [lia|].
    exists (a :: p). simpl. by rewrite <- Hp. }
  destruct s1 as [|b s2]; [by exists []|]. simpl in Hs.
  destruct (sp2 a b).
  { destruct (IH s2) as [p Hp]; [lia|].
    exists (a :: b :: p). simpl. by rewrite <- Hp. }
  destruct s2 as [|c s3]; [by exists []|]. simpl in Hs.
  destruct (sp3 a b c); [|by exists []].
  destruct (IH s3) as [p Hp]; [lia|].
  exists (a :: b :: c :: p). simpl. by rewrite <- Hp.
Qed.

Lemma trimFront_suffix (s : gostring) :
  exists p, s = p ++ trimFront sp2 sp3 s.
Proof. by apply (trimFront_suffix_aux (List.length s)). Qed.

Lemma trimFront_length (s : gostring) :
  List.length (trimFront sp2 sp3 s) <= List.length s.
Proof.
  destruct (trimFront_suffix s) as [p Hp].
  rewrite Hp at 2. rewrite length_app. lia.
Qed.

Lemma trimFront_fixed (s : gostring) :
  trimFront sp2 sp3 s = s <-> frontClean sp2 sp3 s.
Proof.
  assert (Hlen : forall x y : gostring,
             List.length x < List.length y -> trimFront sp2 sp3 x <> y).
  { intros x y Hxy Heq. pose proof (trimFront_length x) as L.
    rewrite Heq in L. lia. }
  destruct s as [|a s1]; [done|].
  rewrite trimFront_cons. simpl.
  destruct (asciiSpace a).
  { split; [|intros [? _]; done].
    intros H. exfalso. revert H. apply Hlen. simpl. lia. }
  destruct s1 as [|b s2]; [done|].
  destruct (sp2 a b).
  { split; [|intros [_ [? _]]; done].
    intros H. exfalso. revert H. apply Hlen. simpl. lia. }
  destruct s2 as [|c s3]; [done|].
  destruct (sp3 a b c); [|done].
  split; [|intros [_ [_ ?]]; done].
  intros H. exfalso. revert H. apply Hlen. simpl. lia.
Qed.
End trim.

Lemma plain_spec (c : ascii) :
  plain c = true -> asciiSpace c = false /\ code c < 128.
Proof.
  unfold plain. rewrite andb_true_iff, negb_true_iff, Nat.ltb_lt. tauto.
Qed.

Lemma isSpace2_high (a b : ascii) :
  isSpace2 a b = true -> 128 <= code a /\ 128 <= code b.
Proof.
  unfold isSpace2.
  rewrite andb_true_iff, orb_true_iff, !Nat.eqb_eq. lia.
Qed.

Lemma isSpace3_high (a b c : ascii) :
  isSpace3 a b c = true -> 128 <= code a /\ 128 <= code b /\ 128 <= code c.
Proof.
  unfold isSpace3, in_range.
  rewrite !orb_true_iff, !andb_true_iff, !orb_true_iff, !andb_true_iff,
    !Nat.eqb_eq, !Nat.leb_le.
  lia.
Qed.

Lemma TrimLeftSpace_fixed (s : gostring) :
  TrimLeftSpace s = s <-> frontClean isSpace2 isSpace3 s.
Proof. apply trimFront_fixed. Qed.

Lemma reversed_rev (s : gostring) : reversed s = rev s.
Proof. unfold reversed. by rewrite rev_alt. Qed.

Lemma TrimRightSpace_rev (s : gostring) :
  TrimRightSpace s =
  rev (trimFront (fun b a => isSpace2 a b) (fun c b a => isSpace3 a b c)
         (rev s)).
Proof. unfold TrimRightSpace. by rewrite !reversed_rev. Qed.

Lemma TrimRightSpace_fixed (s : gostring) :
  TrimRightSpace s = s <->
  frontClean (fun b a => isSpace2 a b) (fun c b a => isSpace3 a b c) (rev s).
Proof.
  rewrite TrimRightSpace_rev. rewrite <- trimFront_fixed. split.
  - intros H. rewrite <- H at 2. by rewrite rev_involutive.
  - intros ->. apply rev_involutive.
Qed.

Lemma TrimRightSpace_length (s : gostring) :
  List.length (TrimRightSpace s) <= List.length s.
Proof.
  rewrite TrimRightSpace_rev. rewrite length_rev.
  etransitivity; [apply trimFront_length|]. by rewrite length_rev.
Qed.

Lemma TrimSpace_fixed (s : gostring) :
  TrimSpace s = s <-> TrimLeftSpace s = s /\ TrimRightSpace s = s.
Proof.
  unfold TrimSpace. split.
  - intros H.
    assert (HL : TrimLeftSpace s = s).
    { destruct (trimFront_suffix isSpace2 isSpace3 s) as [p Hp].
      fold (TrimLeftSpace s) in Hp.
      pose proof (TrimRightSpace_length (TrimLeftSpace s)) as L.
      rewrite H in L. apply (f_equal List.length) in Hp as Hl.
      rewrite length_app in Hl.
      destruct p; [done | simpl in Hl; lia]. }
    split; [done|]. by rewrite HL in H.
  - intros [HL HR]. by rewrite HL.
Qed.

(** A string between two plain bytes is not trimmed. *)
Lemma frontClean_plain sp2 sp3 (a : ascii) (s : gostring) :
  asciiSpace a = false ->
  (forall b, sp2 a b = false) -> (forall b c, sp3 a b c = false) ->
  frontClean sp2 sp3 (a :: s).
Proof.
  intros Ha H2 H3. simpl. split; [done|].
  destruct s as [|b [|c s]]; auto.
Qed.

Lemma TrimLeftSpace_plain (a : ascii) (s : gostring) :
  plain a = true -> TrimLeftSpace (a :: s) = a :: s.
Proof.
  intros [Ha Hlt]%plain_spec. apply TrimLeftSpace_fixed.
  apply frontClean_plain; [done|..].
  - intros b. destruct (isSpace2 a b) eqn:E; [|done].
    apply isSpace2_high in E. lia.
  - intros b c. destruct (isSpace3 a b c) eqn:E; [|done].
    apply isSpace3_high in E. lia.
Qed.

Lemma TrimRightSpace_plain (z : ascii) (s : gostring) :
  plain z = true -> TrimRightSpace (s ++ [z]) = s ++ [z].
Proof.
  intros [Ha Hlt]%plain_spec. apply TrimRightSpace_fixed.
  rewrite rev_app_distr. change (rev [z] ++ rev s) with (z :: rev s).
  apply frontClean_plain; [done|..]; cbn beta.
  - intros b. destruct (isSpace2 b z) eqn:E; [|done].
    apply isSpace2_high in E. lia.
  - intros b c. destruct (isSpace3 c b z) eqn:E; [|done].
    apply isSpace3_high in E. lia.
Qed.

Lemma TrimSpace_plain_ends (a z : ascii) (s : gostring) :
  plain a = true -> plain z = true ->
  TrimSpace (a :: s ++ [z]) = a :: s ++ [z].
Proof.
  intros Ha Hz. apply TrimSpace_fixed. split.
  - by apply TrimLeftSpace_plain.
  - by apply (TrimRightSpace_plain z (a :: s)).
Qed.

Lemma TrimSpace_plain1 (a : ascii) :
  plain a = true -> TrimSpace [a] = [a].
Proof.
  intros Ha. apply TrimSpace_fixed. split.
  - by apply TrimLeftSpace_plain.
  - by apply (TrimRightSpace_plain a []).
Qed.

(** An ASCII byte before a string does not change what is trimmed from the
    end of the string. *)
Lemma TrimRightSpace_after_ascii (x v : gostring) (c : ascii) :
  code c < 128 -> v <> [] -> TrimRightSpace v = v ->
  TrimRightSpace (x ++ c :: v) = x ++ c :: v.
Proof.
  intros Hc Hv Hfix. apply TrimRightSpace_fixed.
  apply TrimRightSpace_fixed in Hfix.
  assert (Hrev : rev (x ++ c :: v) = rev v ++ c :: rev x).
  { rewrite rev_app_distr. simpl. by rewrite <- app_assoc. }
  rewrite Hrev.
  assert (Hne : rev v <> []).
  { intros E. apply Hv. by rewrite <- (rev_involutive v), E. }
  destruct (rev v) as [|a [|b [|d r]]]; [done|..]; simpl in *.
  - destruct Hfix as [Ha _]. split; [done|]. split.
    + destruct (isSpace2 c a) eqn:E; [|done]. apply isSpace2_high in E. lia.
    + destruct (rev x); [done|].
      destruct (isSpace3 a0 c a) eqn:E; [|done].
      apply isSpace3_high in E. lia.
  - destruct Hfix as [Ha [Hb _]]. split; [done|]. split; [done|].
    destruct (isSpace3 c b a) eqn:E; [|done]. apply isSpace3_high in E. lia.
  - done.
Qed.

Lemma TrimSpace_empty : TrimSpace [] = [].
Proof. reflexivity. Qed.

(** ** The regular expressions *)

Lemma identStart_plain (c : ascii) : identStart c = true -> plain c = true.
Proof. byte_cases c; intros H; first [discriminate H | reflexivity]. Qed.

Lemma identChar_plain (c : ascii) : identChar c = true -> plain c = true.
Proof. byte_cases c; intros H; first [discriminate H | reflexivity]. Qed.

Lemma identStart_identChar (c : ascii) :
  identStart c = true -> identChar c = true.
Proof. unfold identChar. by intros ->. Qed.

Lemma plain_not_reSpace (c : ascii) : plain c = true -> reSpace c = false.
Proof. byte_cases c; intros H; first [discriminate H | reflexivity]. Qed.

Lemma reSpace_asciiSpace (c : ascii) : reSpace c = true -> asciiSpace c = true.
Proof. byte_cases c; intros H; first [discriminate H | reflexivity]. Qed.

Lemma span_eq (p : ascii -> bool) (s : gostring) :
  s = (span p s).1 ++ (span p s).2.
Proof.
  induction s as [|c s IH]; [done|]. simpl.
  destruct (p c); [|done]. destruct (span p s) as [m r]. simpl in *.
  by rewrite IH at 1.
Qed.

Lemma span_stop (p : ascii -> bool) (c : ascii) (s : gostring) :
  p c = false -> span p (c :: s) = ([], c :: s).
Proof. simpl. by intros ->. Qed.

Lemma span_all (p : ascii -> bool) (a b : gostring) :
  forallb p a = true ->
  match b with c :: _ => p c = false | [] => True end ->
  span p (a ++ b) = (a, b).
Proof.
  intros Ha Hb. induction a as [|x a IH]; simpl in *.
  - destruct b as [|c b]; [done|]. simpl. by rewrite Hb.
  - apply andb_true_iff in Ha as [-> Ha]. by rewrite IH.
Qed.

Lemma span_snd_forallb (p q : ascii -> bool) (s : gostring) :
  forallb q s = true -> forallb q (span p s).2 = true.
Proof.
  intros H. rewrite (span_eq p s), forallb_app in H.
  by apply andb_true_iff in H as [_ ?].
Qed.

Lemma takeIdent_app (k rest : gostring) :
  isIdentifier k = true ->
  match rest with c :: _ => identChar c = false | [] => True end ->
  takeIdent (k ++ rest) = Some (k, rest).
Proof.
  destruct k as [|a k]; [done|]. simpl.
  intros [-> Hk]%andb_true_iff Hrest. by rewrite span_all.
Qed.

Lemma afterKey_eq (v : gostring) :
  noLF v = true -> afterKey ("=" :: v) = Some (span reSpace v).2.
Proof.
  intros Hv. unfold afterKey. rewrite span_stop by done. simpl.
  fold (noLF (span reSpace v).2). unfold noLF in *.
  by rewrite span_snd_forallb.
Qed.

Lemma lineRegex_assign (k v : gostring) :
  isIdentifier k = true -> noLF v = true ->
  lineRegex (k ++ "=" :: v) = Some (k, (span reSpace v).2).
Proof.
  intros Hk Hv. unfold lineRegex.
  assert (Hs : span reSpace (k ++ "=" :: v) = ([], k ++ "=" :: v)).
  { destruct k as [|a k]; [done|]. apply span_stop.
    apply plain_not_reSpace, identStart_plain.
    simpl in Hk. by apply andb_true_iff in Hk as [? _]. }
  rewrite Hs. simpl. rewrite takeIdent_app by done.
  by rewrite afterKey_eq.
Qed.

Lemma exportRegex_assign (k v : gostring) :
  isIdentifier k = true -> exportRegex (k ++ "=" :: v) = None.
Proof.
  intros Hk. unfold exportRegex.
  assert (Hs : span reSpace (k ++ "=" :: v) = ([], k ++ "=" :: v)).
  { destruct k as [|a k]; [done|]. apply span_stop.
    apply plain_not_reSpace, identStart_plain.
    simpl in Hk. by apply andb_true_iff in Hk as [? _]. }
  rewrite Hs. cbn [snd].
  destruct (HasPrefix (k ++ "=" :: v) (str "export")) eqn:Hp; [|done].
  assert (Hws : (span reSpace (drop 6 (k ++ "=" :: v))).1 = []).
  { destruct k as [|c1 [|c2 [|c3 [|c4 [|c5 [|c6 k]]]]]];
      simpl in Hp; rewrite ?andb_false_r in Hp; try discriminate Hp.
    destruct k as [|c7 k]; simpl drop.
    - by rewrite span_stop.
    - rewrite span_stop; [done|].
      apply plain_not_reSpace, identChar_plain.
      simpl in Hk. rewrite !andb_true_iff in Hk. tauto. }
  destruct (span reSpace (drop 6 (k ++ "=" :: v))) as [ws s1].
  simpl in Hws. by subst ws.
Qed.

(** ** removeInlineComment and the quote machine *)

Lemma at_last (pre rest : gostring) (prev : ascii) :
  at_ ((pre ++ [prev]) ++ rest) (List.length (pre ++ [prev]) - 1) = prev.
Proof.
  unfold at_. rewrite length_app. simpl.
  replace (List.length pre + 1 - 1) with (List.length pre) by lia.
  rewrite <- app_assoc. simpl.
  rewrite app_nth2 by lia. by rewrite Nat.sub_diag.
Qed.

Lemma removeInlineComment_loop_qrun (rest pre : gostring) (st : qstate)
    (prev : ascii) (inQuotes : bool) (quoteChar : ascii) :
  holds inQuotes quoteChar st ->
  (st = Unquoted \/ exists pre', pre = pre' ++ [prev]) ->
  removeInlineComment_loop (pre ++ rest) (List.length pre) inQuotes quoteChar
    rest =
  match qrun st prev rest with
  | inr j => TrimSpace (take (List.length pre + j) (pre ++ rest))
  | inl _ => pre ++ rest
  end.
Proof.
  revert pre st prev inQuotes quoteChar.
  induction rest as [|c rest IH]; intros pre st prev inQ qc Hst Hpre.
  { done. }
  assert (Hnext : forall st' inQ' qc',
    holds inQ' qc' st' ->
    removeInlineComment_loop (pre ++ c :: rest) (S (List.length pre)) inQ' qc'
      rest =
    match qrun st' c rest with
    | inr j => TrimSpace (take (List.length pre + S j) (pre ++ c :: rest))
    | inl _ => pre ++ c :: rest
    end).
  { intros st' inQ' qc' Hst'.
    specialize (IH (pre ++ [c]) st' c inQ' qc' Hst').
    rewrite <- app_assoc, length_app in IH. simpl in IH.
    replace (List.length pre + 1) with (S (List.length pre)) in IH by lia.
    rewrite IH by (right; by exists pre).
    destruct (qrun st' c rest); [done|].
    do 2 f_equal. lia. }
  simpl. destruct st as [|q]; simpl in Hst.
  - subst inQ. simpl. unfold isQuote. rewrite orb_comm.
    destruct ((c =c= SQ) || (c =c= DQ)) eqn:Hq.
    + rewrite (Hnext (Quoted c)) by done.
      by destruct (qrun (Quoted c) c rest).
    + destruct (c =c= HASH).
      * unfold slice. by rewrite Nat.add_0_r, Nat.sub_0_r.
      * rewrite (Hnext Unquoted) by done.
        by destruct (qrun Unquoted c rest).
  - destruct Hst as [-> ->]. simpl.
    destruct Hpre as [?|[pre' ->]]; [done|].
    rewrite at_last.
    assert (Hpos : (0 <? List.length (pre' ++ [prev])) = true).
    { apply Nat.ltb_lt. rewrite length_app. simpl. lia. }
    rewrite Hpos. simpl.
    destruct (c =c= q); simpl.
    + destruct (prev =c= BSL); simpl.
      * rewrite (Hnext (Quoted q)) by done.
        by destruct (qrun (Quoted q) c rest).
      * rewrite (Hnext Unquoted) by done.
        by destruct (qrun Unquoted c rest).
    + rewrite (Hnext (Quoted q)) by done.
      by destruct (qrun (Quoted q) c rest).
Qed.

Lemma removeInlineComment_qrun (line : gostring) :
  removeInlineComment line =
  match qrun Unquoted NUL line with
  | inr i => TrimSpace (take i line)
  | inl _ => line
  end.
Proof.
  apply (removeInlineComment_loop_qrun line [] Unquoted NUL false NUL);
    [done | by left].
Qed.

Lemma last_cons (c d : ascii) (a : gostring) :
  List.last (c :: a) d = List.last a c.
Proof.
  revert c d. induction a as [|x a IH]; intros c d; [done|].
  change (List.last (c :: x :: a) d) with (List.last (x :: a) d).
  by rewrite !IH.
Qed.

Lemma qrun_app (st : qstate) (prev : ascii) (a b : gostring) :
  qrun st prev (a ++ b) =
  match qrun st prev a with
  | inr i => inr i
  | inl st' =>
    match qrun st' (List.last a prev) b with
    | inl final => inl final
    | inr j => inr (List.length a + j)
    end
  end.
Proof.
  revert st prev. induction a as [|c a IH]; intros st prev.
  { simpl. by destruct (qrun st prev b). }
  rewrite last_cons. cbn [app qrun List.length].
  destruct (qstep st prev c) as [st'|]; [|done].
  rewrite IH.
  destruct (qrun st' c a) as [st''|i]; [|done].
  by destruct (qrun st'' (List.last a c) b).
Qed.

Lemma qrun_unclosed (q prev : ascii) (rest : gostring) :
  unclosed q prev rest = true -> qrun (Quoted q) prev rest = inl (Quoted q).
Proof.
  revert prev. induction rest as [|c rest IH]; intros prev H; [done|].
  simpl in *. apply andb_true_iff in H as [H1 H2].
  apply negb_true_iff in H1. rewrite H1. by rewrite IH.
Qed.

Lemma qrun_noQuoteHash (prev : ascii) (s : gostring) :
  noQuoteHash s = true -> qrun Unquoted prev s = inl Unquoted.
Proof.
  revert prev. induction s as [|c s IH]; intros prev H; [done|].
  simpl in *. apply andb_true_iff in H as [H1 H2].
  apply andb_true_iff in H1 as [Hq Hh].
  apply negb_true_iff in Hq, Hh. rewrite Hq, Hh. by rewrite IH.
Qed.

(** A quoted region [q inner q] whose [inner] holds no [q] and does not end
    in a backslash is passed over, whatever else it holds. *)
Lemma qrun_quoted (q prev : ascii) (inner : gostring) :
  isQuote q = true ->
  forallb (fun c => negb (c =c= q)) inner = true ->
  (List.last inner q =c= BSL) = false ->
  qrun Unquoted prev (q :: inner ++ [q]) = inl Unquoted.
Proof.
  intros Hq Hin Hlast. simpl. rewrite Hq.
  assert (H : forall p, (List.last inner p =c= BSL) = false ->
            qrun (Quoted q) p (inner ++ [q]) = inl Unquoted).
  { clear Hlast. induction inner as [|c inner IH]; intros p Hl; simpl in *.
    - by rewrite ceq_refl, Hl.
    - apply andb_true_iff in Hin as [Hc Hin]. apply negb_true_iff in Hc.
      rewrite Hc. simpl. rewrite IH; [done|done|].
      destruct inner as [|x inner']; [done|].
      rewrite last_cons in Hl. by rewrite last_cons. }
  by rewrite H.
Qed.

(** ** unescapeDoubleQuoted and parseValue *)

Lemma drop_at (s : gostring) (i : nat) :
  i < List.length s -> drop i s = at_ s i :: drop (S i) s.
Proof.
  revert i. induction s as [|c s IH]; intros i Hi; simpl in Hi; [lia|].
  destruct i as [|i]; [done|]. simpl. rewrite IH by lia. done.
Qed.

Lemma unescape_loop_decode (fuel : nat) (value : gostring) (i : nat)
    (result : gostring) :
  List.length value - i <= fuel ->
  unescape_loop fuel value i result = result ++ decodeEscapes (drop i value).
Proof.
  revert i result. induction fuel as [|fuel IH]; intros i result Hfuel.
  { simpl. rewrite drop_ge by lia. by rewrite app_nil_r. }
  simpl. destruct (i <? List.length value) eqn:Hi.
  2:{ apply Nat.ltb_ge in Hi. rewrite drop_ge by lia. by rewrite app_nil_r. }
  apply Nat.ltb_lt in Hi. rewrite (drop_at value i Hi). simpl.
  destruct (at_ value i =c= BSL) eqn:Hc; simpl.
  - destruct (i + 1 <? List.length value) eqn:Hi1.
    + apply Nat.ltb_lt in Hi1.
      replace (S i) with (i + 1) by lia.
      rewrite (drop_at value (i + 1) Hi1).
      replace (S (i + 1)) with (i + 1 + 1) by lia.
      unfold escapeOf.
      repeat match goal with
             | |- context [if ?b then _ else _] => destruct b
             end;
        rewrite IH by lia; by rewrite <- ?app_assoc.
    + apply Nat.ltb_ge in Hi1.
      rewrite IH by lia. replace (S i) with (i + 1) by lia.
      rewrite !drop_ge by lia. apply ceq_true in Hc.
      rewrite Hc. simpl. by rewrite app_nil_r.
  - rewrite IH by lia. replace (S i) with (i + 1) by lia.
    by rewrite <- app_assoc.
Qed.

Lemma unescapeDoubleQuoted_decode (value : gostring) :
  unescapeDoubleQuoted value = decodeEscapes value.
Proof.
  unfold unescapeDoubleQuoted. by rewrite unescape_loop_decode by lia.
Qed.

Lemma decodeEscapes_noBSL (s : gostring) :
  forallb (fun c => negb (c =c= BSL)) s = true -> decodeEscapes s = s.
Proof.
  induction s as [|c s IH]; [done|]. simpl.
  intros [Hc Hs]%andb_true_iff. apply negb_true_iff in Hc.
  by rewrite Hc, IH.
Qed.

Lemma at_app_last (s : gostring) (z : ascii) :
  at_ (s ++ [z]) (List.length s) = z.
Proof.
  unfold at_. rewrite app_nth2 by lia. by rewrite Nat.sub_diag.
Qed.

Lemma slice_inner (a z : ascii) (inner : gostring) :
  slice (a :: inner ++ [z]) 1 (List.length (a :: inner ++ [z]) - 1) = inner.
Proof.
  unfold slice. change (drop 1 (a :: inner ++ [z])) with (inner ++ [z]).
  cbn [List.length]. rewrite length_app. cbn [List.length].
  replace (S (List.length inner + 1) - 1 - 1) with (List.length inner) by lia.
  apply take_app_length.
Qed.

Lemma plain_DQ : plain DQ = true.
Proof. reflexivity. Qed.

Lemma plain_SQ : plain SQ = true.
Proof. reflexivity. Qed.

Lemma parseValue_quoted (q : ascii) (inner : gostring) :
  isQuote q = true ->
  parseValue (q :: inner ++ [q]) =
  (if q =c= DQ then unescapeDoubleQuoted inner else inner, None).
Proof.
  intros Hq. unfold parseValue.
  assert (Hplain : plain q = true).
  { unfold isQuote in Hq. apply orb_true_iff in Hq as [->%ceq_true| ->%ceq_true];
      reflexivity. }
  rewrite TrimSpace_plain_ends by done.
  cbn [isEmpty]. rewrite slice_inner.
  assert (Hn : (2 <=? List.length (q :: inner ++ [q])) = true).
  { apply Nat.leb_le. simpl. rewrite length_app. simpl. lia. }
  rewrite Hn.
  assert (H0 : at_ (q :: inner ++ [q]) 0 = q) by done.
  assert (Hl : at_ (q :: inner ++ [q]) (List.length (q :: inner ++ [q]) - 1)
               = q).
  { replace (List.length (q :: inner ++ [q]) - 1)
      with (List.length (q :: inner))
      by (cbn [List.length]; rewrite length_app; cbn [List.length]; lia).
    apply (at_app_last (q :: inner) q). }
  rewrite H0, Hl.
  unfold isQuote in Hq. apply orb_true_iff in Hq as [->%ceq_true| ->%ceq_true];
    reflexivity.
Qed.

Lemma parseValue_unquoted (v : gostring) :
  TrimSpace v = v -> isQuote (at_ v 0) = false -> parseValue v = (v, None).
Proof.
  intros Hv Hq. unfold parseValue. rewrite !Hv.
  destruct v as [|a v']; [done|]. cbn [isEmpty].
  unfold isQuote in Hq. apply orb_false_iff in Hq as [Hs Hd].
  rewrite Hs, Hd. simpl. by rewrite andb_false_r.
Qed.

(** ** expandVariables *)

Section expand.
Variable LookupEnv : gostring -> option gostring.
Variable env : Env.

Lemma expandVarRegex_braced (x rest : gostring) :
  braceContent x = true ->
  expandVarRegex (DOLLAR :: "{" :: x ++ "}" :: rest) =
  Some (DOLLAR :: "{" :: x ++ ["}"], rest).
Proof.
  unfold braceContent. intros [Hne Hx]%andb_true_iff.
  cbn [expandVarRegex]. rewrite !ceq_refl.
  rewrite (span_all (fun c => negb (c =c= "}")) x ("}" :: rest)) by done.
  destruct x as [|a x]; [done|]. done.
Qed.

Lemma expandVarRegex_bare (name rest : gostring) :
  isIdentifier name = true -> endsIdent rest ->
  expandVarRegex (DOLLAR :: name ++ rest) = Some (DOLLAR :: name, rest).
Proof.
  intros Hn Hrest. cbn [expandVarRegex]. rewrite ceq_refl.
  rewrite takeIdent_app by done.
  destruct name as [|a name]; [done|]. cbn [app].
  destruct (a =c= "{") eqn:Ha; [|done].
  apply ceq_true in Ha. subst a. done.
Qed.

Lemma expandVarRegex_other (c : ascii) (s : gostring) :
  (c =c= DOLLAR) = false -> expandVarRegex (c :: s) = None.
Proof. intros H. cbn [expandVarRegex]. by rewrite H. Qed.

Lemma expandMatch_braced (x : gostring) :
  expandMatch LookupEnv env (DOLLAR :: "{" :: x ++ ["}"]) =
  resolve LookupEnv env x.
Proof.
  unfold expandMatch.
  assert (Hp : HasPrefix (DOLLAR :: "{" :: x ++ ["}"]) (str "${") = true)
    by reflexivity.
  assert (Hs : HasSuffix (DOLLAR :: "{" :: x ++ ["}"]) (str "}") = true).
  { unfold HasSuffix.
    change (DOLLAR :: "{" :: x ++ ["}"]) with ((DOLLAR :: "{" :: x) ++ ["}"]).
    rewrite rev_app_distr. reflexivity. }
  rewrite Hp, Hs. cbn [andb].
  assert (Hx : slice (DOLLAR :: "{" :: x ++ ["}"]) 2
                 (List.length (DOLLAR :: "{" :: x ++ ["}"]) - 1) = x).
  { unfold slice. change (drop 2 (DOLLAR :: "{" :: x ++ ["}"])) with (x ++ ["}"]).
    cbn [List.length]. rewrite length_app. cbn [List.length].
    replace (S (S (List.length x + 1)) - 1 - 2) with (List.length x) by lia.
    apply take_app_length. }
  by rewrite Hx.
Qed.

Lemma expandMatch_bare (name : gostring) :
  isIdentifier name = true ->
  expandMatch LookupEnv env (DOLLAR :: name) = resolve LookupEnv env name.
Proof.
  intros Hn. unfold expandMatch.
  destruct name as [|a name]; [done|].
  assert (Hp : HasPrefix (DOLLAR :: a :: name) (str "${") = false).
  { cbn. destruct (a =c= "{") eqn:Ha; [|done].
    apply ceq_true in Ha. subst a. done. }
  rewrite Hp. reflexivity.
Qed.

Lemma ReplaceAll_skip re repl (m rest : gostring) :
  ReplaceAllStringFunc_from re repl (List.length m) (m ++ rest) =
  ReplaceAllStringFunc_from re repl 0 rest.
Proof.
  induction m as [|c m IH]; [done|]. simpl. apply IH.
Qed.

Lemma ReplaceAll_match re repl (m rest rest' : gostring) :
  m <> [] -> re (m ++ rest) = Some (m, rest') ->
  ReplaceAllStringFunc re (m ++ rest) repl =
  repl m ++ ReplaceAllStringFunc re rest repl.
Proof.
  intros Hm Hre. unfold ReplaceAllStringFunc.
  destruct m as [|c m]; [done|].
  cbn [app ReplaceAllStringFunc_from]. cbn [app] in Hre. rewrite Hre.
  cbn [List.length]. rewrite ?Nat.sub_0_r.
  change (S (List.length m) - 1) with (List.length m - 0).
  rewrite ?Nat.sub_0_r. by rewrite ReplaceAll_skip.
Qed.

Lemma ReplaceAll_nomatch re repl (c : ascii) (s : gostring) :
  re (c :: s) = None ->
  ReplaceAllStringFunc re (c :: s) repl =
  c :: ReplaceAllStringFunc re s repl.
Proof.
  intros Hre. unfold ReplaceAllStringFunc. simpl. by rewrite Hre.
Qed.


Lemma expandVariables_other (c : ascii) (s : gostring) :
  (c =c= DOLLAR) = false ->
  expandVariables LookupEnv (c :: s) env =
  c :: expandVariables LookupEnv s env.
Proof.
  intros Hc. unfold expandVariables.
  by rewrite ReplaceAll_nomatch by by apply expandVarRegex_other.
Qed.

Lemma expandVariables_braced (x rest : gostring) :
  braceContent x = true ->
  expandVariables LookupEnv (DOLLAR :: "{" :: x ++ "}" :: rest) env =
  resolve LookupEnv env x ++ expandVariables LookupEnv rest env.
Proof.
  intros Hx. unfold expandVariables.
  change (DOLLAR :: "{" :: x ++ "}" :: rest)
    with (DOLLAR :: "{" :: x ++ ["}"] ++ rest).
  rewrite (app_assoc x ["}"] rest).
  change (DOLLAR :: "{" :: (x ++ ["}"]) ++ rest)
    with ((DOLLAR :: "{" :: x ++ ["}"]) ++ rest).
  rewrite (ReplaceAll_match _ _ (DOLLAR :: "{" :: x ++ ["}"]) rest rest).
  - by rewrite expandMatch_braced.
  - done.
  - cbn [app]. rewrite <- app_assoc. by apply expandVarRegex_braced.
Qed.

Lemma expandVariables_bare (name rest : gostring) :
  isIdentifier name = true -> endsIdent rest ->
  expandVariables LookupEnv (DOLLAR :: name ++ rest) env =
  resolve LookupEnv env name ++ expandVariables LookupEnv rest env.
Proof.
  intros Hn Hrest. unfold expandVariables.
  change (DOLLAR :: name ++ rest) with ((DOLLAR :: name) ++ rest).
  rewrite (ReplaceAll_match _ _ (DOLLAR :: name) rest rest).
  - by rewrite expandMatch_bare.
  - done.
  - by apply expandVarRegex_bare.
Qed.

Lemma expandVariables_noDollar (s : gostring) :
  noDollar s = true -> expandVariables LookupEnv s env = s.
Proof.
  induction s as [|c s IH]; [done|]. simpl.
  intros [Hc Hs]%andb_true_iff. apply negb_true_iff in Hc.
  rewrite expandVariables_other by done. by rewrite IH.
Qed.

End expand.

Lemma span_spec (p : ascii -> bool) (s m r : gostring) :
  span p s = (m, r) ->
  s = m ++ r /\ forallb p m = true /\
  match r with c :: _ => p c = false | [] => True end.
Proof.
  revert m r. induction s as [|c s IH]; intros m r H; simpl in H.
  { by inversion H. }
  destruct (p c) eqn:Hc.
  - destruct (span p s) as [m' r'] eqn:Hs. inversion H; subst.
    destruct (IH m' r eq_refl) as (-> & Hm & Hr).
    simpl. by rewrite Hc.
  - inversion H; subst. simpl. by rewrite Hc.
Qed.

(** A '$' that starts neither form is not a match. *)
Lemma expandVarRegex_dollar_none (s : gostring) :
  match s with c :: _ => identStart c = false | [] => True end ->
  (forall x rest, braceContent x = true -> s <> "{" :: x ++ "}" :: rest) ->
  expandVarRegex (DOLLAR :: s) = None.
Proof.
  intros Hid Hbr. cbn [expandVarRegex]. rewrite ceq_refl.
  destruct s as [|b s2]; [done|].
  cbn [takeIdent]. rewrite Hid.
  destruct (b =c= "{") eqn:Hb; [|done].
  apply ceq_true in Hb. subst b.
  destruct (span (fun c => negb (c =c= "}")) s2) as [m r] eqn:Hs.
  apply span_spec in Hs as (-> & Hm & Hr).
  destruct m as [|x name]; [done|]. destruct r as [|e rest]; [done|].
  apply negb_false_iff, ceq_true in Hr. subst e.
  exfalso. by apply (Hbr (x :: name) rest).
Qed.

(** ** The scanner *)


Lemma Scanner_run_line (l rest cur : gostring) :
  noLF l = true ->
  List.length cur + List.length l < MaxScanTokenSize ->
  Scanner_run cur (l ++ LF :: rest) =
  (dropCR (rev cur ++ l) :: (Scanner_run [] rest).1, (Scanner_run [] rest).2).
Proof.
  revert cur. induction l as [|c l IH]; intros cur Hl Hlen.
  - cbn [app Scanner_run]. rewrite ceq_refl, reversed_rev.
    simpl in Hlen.
    assert (Hm : (MaxScanTokenSize <=? List.length cur) = false)
      by (apply Nat.leb_gt; lia).
    rewrite Hm, app_nil_r. by destruct (Scanner_run [] rest).
  - cbn [app Scanner_run]. simpl in Hl, Hlen.
    apply andb_true_iff in Hl as [Hc Hl]. apply negb_true_iff in Hc.
    rewrite Hc. rewrite IH; [|done|simpl; lia].
    cbn [rev]. by rewrite <- app_assoc.
Qed.

Lemma Scanner_run_last (l cur : gostring) :
  noLF l = true -> rev cur ++ l <> [] ->
  List.length cur + List.length l < MaxScanTokenSize ->
  Scanner_run cur l = ([dropCR (rev cur ++ l)], None).
Proof.
  revert cur. induction l as [|c l IH]; intros cur Hl Hne Hlen.
  - cbn [Scanner_run]. rewrite app_nil_r in *.
    destruct cur as [|x cur]; [done|]. cbn [isEmpty].
    simpl in Hlen.
    assert (Hm : (MaxScanTokenSize <=? List.length (x :: cur)) = false)
      by (apply Nat.leb_gt; simpl; lia).
    by rewrite Hm, reversed_rev.
  - cbn [Scanner_run]. simpl in Hl, Hlen.
    apply andb_true_iff in Hl as [Hc Hl]. apply negb_true_iff in Hc.
    rewrite Hc. rewrite IH; [|done| |simpl; lia].
    + cbn [rev]. by rewrite <- app_assoc.
    + cbn [rev]. rewrite <- app_assoc. by destruct (rev cur).
Qed.

Lemma Scanner_run_empty : Scanner_run [] [] = ([], None).
Proof. reflexivity. Qed.

(** A line that is too long for the buffer stops the scanner. *)
Lemma Scanner_run_long (l rest cur : gostring) :
  noLF l = true ->
  MaxScanTokenSize <= List.length cur + List.length l ->
  match rest with [] => True | c :: _ => c = LF end ->
  l ++ rev cur <> [] ->
  Scanner_run cur (l ++ rest) = ([], Some ErrTooLong).
Proof.
  revert cur. induction l as [|c l IH]; intros cur Hl Hlen Hrest Hne.
  - simpl in *. rewrite Nat.add_0_r in Hlen.
    assert (Hm : (MaxScanTokenSize <=? List.length cur) = true)
      by by apply Nat.leb_le.
    destruct rest as [|c rest]; cbn [Scanner_run].
    + rewrite Hm. destruct cur; [done|done].
    + subst c. by rewrite ceq_refl, Hm.
  - cbn [app Scanner_run]. simpl in Hl, Hlen.
    apply andb_true_iff in Hl as [Hc Hl]. apply negb_true_iff in Hc.
    rewrite Hc. apply IH; [done|simpl; lia|done|].
    simpl. by destruct l, (rev cur).
Qed.

Lemma dropCR_keep (s : gostring) (z : ascii) :
  (z =c= CR) = false -> dropCR (s ++ [z]) = s ++ [z].
Proof.
  intros Hz. unfold dropCR.
  replace (List.length (s ++ [z]) - 1) with (List.length s)
    by (rewrite length_app; simpl; lia).
  by rewrite at_app_last, Hz, andb_false_r.
Qed.

(** The lines of a text made by [strings.Join] with a newline. *)
Lemma Scanner_run_Join (lines : list gostring) :
  Forall (fun l => noLF l = true /\ l <> [] /\
                   List.length l < MaxScanTokenSize) lines ->
  Scanner_run [] (Join lines [LF]) = (map dropCR lines, None).
Proof.
  induction lines as [|l lines IH]; intros H; [done|].
  apply Forall_cons in H as [(Hl & Hne & Hlen) H].
  destruct lines as [|l' lines].
  - cbn [Join map]. by rewrite Scanner_run_last.
  - change (Join (l :: l' :: lines) [LF])
      with (l ++ LF :: Join (l' :: lines) [LF]).
    rewrite Scanner_run_line by done. by rewrite IH.
Qed.

(** ** parseLine on assignment lines *)

Lemma identChar_noQuoteHash (c : ascii) :
  identChar c = true -> negb (isQuote c) && negb (c =c= HASH) = true.
Proof. byte_cases c; intros H; first [discriminate H | reflexivity]. Qed.

Lemma isIdentifier_forall (k : gostring) :
  isIdentifier k = true -> forallb identChar k = true.
Proof.
  destruct k as [|a k]; [done|]. simpl.
  intros [Ha Hk]%andb_true_iff. by rewrite identStart_identChar.
Qed.

Lemma isIdentifier_head (k : gostring) :
  isIdentifier k = true -> exists a k', k = a :: k' /\ identStart a = true.
Proof.
  destruct k as [|a k]; [done|]. simpl.
  intros [Ha Hk]%andb_true_iff. by exists a, k.
Qed.

Lemma noQuoteHash_key (k : gostring) :
  isIdentifier k = true -> noQuoteHash (k ++ ["="]) = true.
Proof.
  intros Hk%isIdentifier_forall. unfold noQuoteHash.
  rewrite forallb_app. apply andb_true_iff. split; [|done].
  rewrite forallb_forall in *. intros c Hc.
  apply identChar_noQuoteHash. by apply Hk.
Qed.

Lemma span_reSpace_clean (v : gostring) :
  TrimLeftSpace v = v -> span reSpace v = ([], v).
Proof.
  intros Hv%TrimLeftSpace_fixed. destruct v as [|a v]; [done|].
  apply span_stop. destruct Hv as [Ha _].
  destruct (reSpace a) eqn:E; [|done].
  apply reSpace_asciiSpace in E. congruence.
Qed.

Lemma parseLine_unquoted (k v : gostring) :
  isIdentifier k = true -> noLF v = true -> noQuoteHash v = true ->
  TrimSpace v = v ->
  parseLine (k ++ "=" :: v) = (k, v, None).
Proof.
  intros Hk Hlf Hqh Hv. unfold parseLine.
  rewrite removeInlineComment_qrun.
  assert (Hrun : qrun Unquoted NUL (k ++ "=" :: v) = inl Unquoted).
  { apply qrun_noQuoteHash.
    change (k ++ "=" :: v) with (k ++ ["="] ++ v). rewrite app_assoc.
    unfold noQuoteHash. rewrite forallb_app.
    apply andb_true_iff. split; [by apply noQuoteHash_key | done]. }
  rewrite Hrun, exportRegex_assign, lineRegex_assign by done.
  apply TrimSpace_fixed in Hv as Hv'. destruct Hv' as [HL HR].
  rewrite span_reSpace_clean by done. cbn [snd]. rewrite Hv.
  rewrite parseValue_unquoted; [done|done|].
  destruct v as [|a v]; [done|]. simpl in Hqh.
  apply andb_true_iff in Hqh as [Ha _].
  apply andb_true_iff in Ha as [Ha _]. by apply negb_true_iff in Ha.
Qed.

Lemma parseLine_quoted (k inner : gostring) (q : ascii) :
  isIdentifier k = true -> isQuote q = true -> noLF inner = true ->
  forallb (fun c => negb (c =c= q)) inner = true ->
  (List.last inner q =c= BSL) = false ->
  parseLine (k ++ "=" :: q :: inner ++ [q]) =
  (k, if q =c= DQ then unescapeDoubleQuoted inner else inner, None).
Proof.
  intros Hk Hq Hlf Hin Hlast. unfold parseLine.
  assert (Hplain : plain q = true).
  { unfold isQuote in Hq.
    apply orb_true_iff in Hq as [->%ceq_true| ->%ceq_true]; reflexivity. }
  rewrite removeInlineComment_qrun.
  assert (Hrun : qrun Unquoted NUL (k ++ "=" :: q :: inner ++ [q])
                 = inl Unquoted).
  { change (k ++ "=" :: q :: inner ++ [q])
      with (k ++ ["="] ++ (q :: inner ++ [q])).
    rewrite app_assoc, qrun_app.
    rewrite qrun_noQuoteHash by by apply noQuoteHash_key.
    by rewrite qrun_quoted. }
  rewrite Hrun, exportRegex_assign by done.
  assert (Hlf' : noLF (q :: inner ++ [q]) = true).
  { unfold noLF in *. cbn [forallb]. rewrite forallb_app, Hlf. cbn [forallb].
    unfold isQuote in Hq.
    by apply orb_true_iff in Hq as [->%ceq_true| ->%ceq_true]. }
  rewrite lineRegex_assign by done.
  rewrite span_stop by by apply plain_not_reSpace.
  cbn [snd]. rewrite TrimSpace_plain_ends by done.
  by rewrite parseValue_quoted.
Qed.

Lemma TrimSpace_assign (k rest : gostring) :
  isIdentifier k = true -> TrimRightSpace (k ++ "=" :: rest) = k ++ "=" :: rest ->
  TrimSpace (k ++ "=" :: rest) = k ++ "=" :: rest.
Proof.
  intros (a & k' & -> & Ha)%isIdentifier_head HR.
  apply TrimSpace_fixed. split; [|done].
  apply TrimLeftSpace_plain. by apply identStart_plain.
Qed.

Lemma TrimSpace_assign_unquoted (k v : gostring) :
  isIdentifier k = true -> TrimSpace v = v ->
  TrimSpace (k ++ "=" :: v) = k ++ "=" :: v.
Proof.
  intros Hk [HL HR]%TrimSpace_fixed. apply TrimSpace_assign; [done|].
  destruct v as [|a v].
  - by apply TrimRightSpace_plain.
  - apply TrimRightSpace_after_ascii; [|done|done].
    apply Nat.ltb_lt. reflexivity.
Qed.

Lemma TrimSpace_assign_quoted (k inner : gostring) (q : ascii) :
  isIdentifier k = true -> isQuote q = true ->
  TrimSpace (k ++ "=" :: q :: inner ++ [q]) = k ++ "=" :: q :: inner ++ [q].
Proof.
  intros Hk Hq. apply TrimSpace_assign; [done|].
  assert (Hplain : plain q = true).
  { unfold isQuote in Hq.
    apply orb_true_iff in Hq as [->%ceq_true| ->%ceq_true]; reflexivity. }
  change (k ++ "=" :: q :: inner ++ [q])
    with (k ++ ("=" :: q :: inner) ++ [q]).
  rewrite app_assoc. by apply TrimRightSpace_plain.
Qed.

(** ** The loop of Parse *)

Section loop.
Variable LookupEnv : gostring -> option gostring.

Lemma Parse_loop_assign (expandVars : bool) (k rest value : gostring)
    (lines : list gostring) (scanErr : option error) (n : nat) (result : Env) :
  isIdentifier k = true ->
  TrimSpace (k ++ "=" :: rest) = k ++ "=" :: rest ->
  parseLine (k ++ "=" :: rest) = (k, value, None) ->
  Parse_loop LookupEnv expandVars ((k ++ "=" :: rest) :: lines) scanErr n
    result =
  Parse_loop LookupEnv expandVars lines scanErr (S n)
    (<[k := if expandVars then expandVariables LookupEnv value result
            else value]> result).
Proof.
  intros Hk Htrim Hparse. cbn [Parse_loop]. rewrite Htrim, Hparse.
  destruct (isIdentifier_head k Hk) as (a & k' & -> & Ha).
  cbn [app isEmpty orb negb].
  assert (Hh : HasPrefix (a :: k' ++ "=" :: rest) (str "#") = false).
  { cbn. destruct (a =c= "#") eqn:E; [|done].
    apply ceq_true in E. subst a. done. }
  by rewrite Hh.
Qed.

(** A blank line or a comment line only moves the line counter. *)
Lemma Parse_loop_skip (expandVars : bool) (line : gostring)
    (lines : list gostring) (scanErr : option error) (n : nat) (result : Env) :
  isEmpty (TrimSpace line) || HasPrefix (TrimSpace line) (str "#") = true ->
  Parse_loop LookupEnv expandVars (line :: lines) scanErr n result =
  Parse_loop LookupEnv expandVars lines scanErr (S n) result.
Proof. intros H. cbn [Parse_loop]. by rewrite H. Qed.

End loop.

(** ** Identifiers as values *)

Lemma isIdentifier_forallb (P : ascii -> bool) (name : gostring) :
  (forall c, identChar c = true -> P c = true) ->
  isIdentifier name = true -> forallb P name = true.
Proof.
  intros HP Hall%isIdentifier_forall. rewrite forallb_forall in *.
  intros c Hc. by apply HP, Hall.
Qed.

Lemma identChar_noLF (c : ascii) : identChar c = true -> negb (c =c= LF) = true.
Proof. byte_cases c; intros H; first [discriminate H | reflexivity]. Qed.


Lemma identChar_noDollar (c : ascii) :
  identChar c = true -> negb (c =c= DOLLAR) = true.
Proof. byte_cases c; intros H; first [discriminate H | reflexivity]. Qed.



(** ** Lines that stop the loop and lines that do not *)

Section lines.
Variable LookupEnv : gostring -> option gostring.
Variable expandVars : bool.

Lemma parseValue_no_error (v : gostring) : (parseValue v).2 = None.
Proof.
  unfold parseValue.
  repeat match goal with
         | |- context [if ?b then _ else _] => destruct b
         end; done.
Qed.





Lemma Parse_loop_wellformed (line : gostring) (lines : list gostring)
    (scanErr : option error) (n : nat) (result : Env) :
  malformed line = false ->
  exists result',
    Parse_loop LookupEnv expandVars (line :: lines) scanErr n result =
    Parse_loop LookupEnv expandVars lines scanErr (S n) result'.
Proof.
  intros H. cbn [Parse_loop].
  destruct (isEmpty (TrimSpace line) || HasPrefix (TrimSpace line) (str "#"));
    [by exists result|].
  unfold malformed in H. unfold parseLine.
  destruct (exportRegex (removeInlineComment (TrimSpace line)))
    as [[key m2]|].
  { pose proof (parseValue_no_error (TrimSpace m2)) as He.
    destruct (parseValue (TrimSpace m2)) as [v e]. simpl in He. subst e.
    destruct (negb (isEmpty key)); eauto. }
  destruct (lineRegex (removeInlineComment (TrimSpace line)))
    as [[key m2]|].
  { pose proof (parseValue_no_error (TrimSpace m2)) as He.
    destruct (parseValue (TrimSpace m2)) as [v e]. simpl in He. subst e.
    destruct (negb (isEmpty key)); eauto. }
  rewrite H. cbn [isEmpty negb]. by exists result.
Qed.


End lines.

Lemma Scanner_run_unlines (before : list gostring) (rest : gostring) :
  Forall (fun l => noLF l = true /\ List.length l < MaxScanTokenSize) before ->
  Scanner_run [] (unlines before ++ rest) =
  (map dropCR before ++ (Scanner_run [] rest).1, (Scanner_run [] rest).2).
Proof.
  induction 1 as [|l before [Hl Hlen] _ IH].
  - cbn. by destruct (Scanner_run [] rest).
  - cbn [unlines flat_map]. rewrite <- !app_assoc.
    change ([LF] ++ flat_map (fun l => l ++ [LF]) before ++ rest)
      with (LF :: unlines before ++ rest).
    rewrite Scanner_run_line by done. by rewrite IH.
Qed.

(** ** What Parse hands to parseLine has no white space at its front *)

Lemma frontClean_take sp2 sp3 (s : gostring) (i : nat) :
  frontClean sp2 sp3 s -> frontClean sp2 sp3 (take i s).
Proof.
  destruct s as [|a [|b [|c s]]]; destruct i as [|[|[|i]]]; simpl; tauto.
Qed.

Lemma trimFront_clean_aux sp2 sp3 (n : nat) (s : gostring) :
  List.length s <= n -> frontClean sp2 sp3 (trimFront sp2 sp3 s).
Proof.
  revert s. induction n as [|n IH]; intros s Hs.
  { destruct s; [done | simpl in Hs; lia]. }
  destruct s as [|a s1]; [done|].
  rewrite trimFront_cons. simpl in Hs.
  destruct (asciiSpace a) eqn:Ha; [apply IH; lia|].
  destruct s1 as [|b s2]; [done|]. simpl in Hs.
  destruct (sp2 a b) eqn:Hb; [apply IH; lia|].
  destruct s2 as [|c s3]; [done|]. simpl in Hs.
  destruct (sp3 a b c) eqn:Hc; [apply IH; lia|done].
Qed.

Lemma TrimLeftSpace_TrimSpace (s : gostring) :
  TrimLeftSpace (TrimSpace s) = TrimSpace s.
Proof.
  apply TrimLeftSpace_fixed. unfold TrimSpace.
  assert (Hy : frontClean isSpace2 isSpace3 (TrimLeftSpace s))
    by apply (trimFront_clean_aux _ _ (List.length s)), le_n.
  set (y := TrimLeftSpace s) in *. rewrite TrimRightSpace_rev.
  destruct (trimFront_suffix (fun b a => isSpace2 a b)
              (fun c b a => isSpace3 a b c) (rev y)) as [p Hp].
  set (t := trimFront _ _ (rev y)) in *.
  assert (Hyt : y = rev t ++ rev p).
  { by rewrite <- rev_app_distr, <- Hp, rev_involutive. }
  assert (Ht : rev t = take (List.length (rev t)) y).
  { rewrite Hyt at 1. by rewrite take_app_length. }
  rewrite Ht. by apply frontClean_take.
Qed.

(** ** The encoder *)

Lemma escapeValue_app (a b : gostring) :
  escapeValue (a ++ b) = escapeValue a ++ escapeValue b.
Proof. unfold escapeValue, ReplaceAll. by rewrite !flat_map_app. Qed.

Lemma escapeValue_byte (c : ascii) : escapeValue [c] = escapeByte c.
Proof. byte_cases c; reflexivity. Qed.

Lemma escapeValue_spec (v : gostring) :
  escapeValue v = flat_map escapeByte v.
Proof.
  induction v as [|c v IH]; [done|].
  change (c :: v) with ([c] ++ v).
  by rewrite escapeValue_app, escapeValue_byte, IH.
Qed.

Lemma cleanValue_existsb (v : gostring) :
  cleanValue v = negb (existsb special v).
Proof.
  induction v as [|c v IH]; [done|]. simpl.
  rewrite IH. by destruct (special c).
Qed.

Lemma needsQuoting_spec (v : gostring) :
  needsQuoting v = negb (negb (isEmpty v) && cleanValue v).
Proof.
  unfold needsQuoting. rewrite cleanValue_existsb.
  destruct v as [|c v]; [done|]. cbn [isEmpty negb andb].
  by rewrite negb_involutive.
Qed.

Lemma formatEnvLine_spec (k v : gostring) :
  formatEnvLine k v = encodeLine k v.
Proof.
  unfold formatEnvLine, encodeLine.
  rewrite needsQuoting_spec, negb_involutive, escapeValue_spec. done.
Qed.

(** *** The order of the keys *)

Lemma code_inj (a b : ascii) : code a = code b -> a = b.
Proof.
  unfold code. intros H.
  by rewrite <- (ascii_nat_embedding a), <- (ascii_nat_embedding b), H.
Qed.

Lemma string_lt_irrefl (a : gostring) : string_lt a a = false.
Proof.
  induction a as [|x a IH]; [done|]. simpl.
  by rewrite Nat.ltb_irrefl.
Qed.

Lemma string_lt_trichotomy (a b : gostring) :
  string_lt a b = true \/ a = b \/ string_lt b a = true.
Proof.
  revert b. induction a as [|x a IH]; intros [|y b]; simpl; auto.
  destruct (Nat.ltb_spec (code x) (code y)); [auto|].
  destruct (Nat.ltb_spec (code y) (code x)); [auto|].
  assert (x = y) by (apply code_inj; lia). subst y.
  destruct (IH b) as [?|[->|?]]; auto.
Qed.

Lemma string_lt_asym (a b : gostring) :
  string_lt a b = true -> string_lt b a = false.
Proof.
  revert b. induction a as [|x a IH]; intros [|y b]; simpl; auto.
  destruct (Nat.ltb_spec (code x) (code y)).
  - intros _. destruct (Nat.ltb_spec (code y) (code x)); [lia|done].
  - destruct (Nat.ltb_spec (code y) (code x)); [done|]. apply IH.
Qed.

Lemma string_lt_trans (a b c : gostring) :
  string_lt a b = true -> string_lt b c = true -> string_lt a c = true.
Proof.
  revert b c. induction a as [|x a IH]; intros [|y b] [|z c]; simpl;
    try done.
  destruct (Nat.ltb_spec (code x) (code y)) as [Hxy|Hxy].
  - intros _.
    destruct (Nat.ltb_spec (code y) (code z)) as [Hyz|Hyz].
    + intros _. destruct (Nat.ltb_spec (code x) (code z)); [done|lia].
    + destruct (Nat.ltb_spec (code z) (code y)); [done|].
      intros _. destruct (Nat.ltb_spec (code x) (code z)); [done|lia].
  - destruct (Nat.ltb_spec (code y) (code x)) as [Hyx|Hyx]; [done|].
    intros Hab.
    destruct (Nat.ltb_spec (code y) (code z)) as [Hyz|Hyz].
    + intros _. destruct (Nat.ltb_spec (code x) (code z)); [done|lia].
    + destruct (Nat.ltb_spec (code z) (code y)); [done|].
      intros Hbc. destruct (Nat.ltb_spec (code x) (code z)); [done|].
      destruct (Nat.ltb_spec (code z) (code x)); [lia|].
      by apply (IH b c).
Qed.


Global Instance string_le_total : Total string_le.
Proof.
  intros a b. unfold string_le.
  destruct (string_lt b a) eqn:E; [|by left].
  right. by apply string_lt_asym.
Qed.

Global Instance string_le_trans : Transitive string_le.
Proof.
  intros a b c Hab Hbc. unfold string_le in *.
  destruct (string_lt c a) eqn:E; [|done].
  destruct (string_lt_trichotomy a b) as [Hlt|[->|Hlt]]; [| congruence | congruence].
  destruct (string_lt_trichotomy b c) as [Hlt'|[->|Hlt']]; [| congruence | congruence].
  pose proof (string_lt_trans a b c Hlt Hlt') as Hac.
  apply string_lt_asym in Hac. congruence.
Qed.


Lemma sort_Strings_elem (keys : list gostring) (k : gostring) :
  k ∈ sort_Strings keys <-> k ∈ keys.
Proof. unfold sort_Strings. by rewrite merge_sort_Permutation. Qed.

Lemma keys_elem (env : Env) (k : gostring) :
  k ∈ (map_to_list env).*1 <-> is_Some (env !! k).
Proof.
  rewrite list_elem_of_fmap. split.
  - intros [[k' v] [-> Hin]]. apply elem_of_map_to_list in Hin. by exists v.
  - intros [v Hv]. exists (k, v). split; [done|].
    by apply elem_of_map_to_list.
Qed.

(** *** The end of the text *)




(** ** Decoding what the encoder wrote *)

Lemma forallb_weaken (P Q : ascii -> bool) (s : gostring) :
  (forall c, P c = true -> Q c = true) ->
  forallb P s = true -> forallb Q s = true.
Proof.
  intros HPQ. rewrite !forallb_forall. intros H c Hc. by apply HPQ, H.
Qed.

Lemma cleanValue_noLF (v : gostring) : cleanValue v = true -> noLF v = true.
Proof.
  apply forallb_weaken. intros c.
  byte_cases c; intros H; first [discriminate H | reflexivity].
Qed.

Lemma cleanValue_noQuoteHash (v : gostring) :
  cleanValue v = true -> noQuoteHash v = true.
Proof.
  apply forallb_weaken. intros c.
  byte_cases c; intros H; first [discriminate H | reflexivity].
Qed.

Lemma cleanValue_noDollar (v : gostring) :
  cleanValue v = true -> noDollar v = true.
Proof.
  apply forallb_weaken. intros c.
  byte_cases c; intros H; first [discriminate H | reflexivity].
Qed.

Lemma cleanValue_noCR (v : gostring) :
  cleanValue v = true -> forallb (fun c => negb (c =c= CR)) v = true.
Proof.
  apply forallb_weaken. intros c.
  byte_cases c; intros H; first [discriminate H | reflexivity].
Qed.

(** The line of an entry, seen from the decoder. *)
Lemma encoded_line_facts (k v : gostring) :
  isIdentifier k = true -> cleanValue v = true ->
  noLF (formatEnvLine k v) = true
  /\ formatEnvLine k v <> []
  /\ dropCR (formatEnvLine k v) = formatEnvLine k v.
Proof.
  intros Hk Hv. rewrite formatEnvLine_spec. unfold encodeLine. rewrite Hv.
  assert (Hklf : noLF k = true)
    by by apply isIdentifier_forallb; [apply identChar_noLF|].
  destruct v as [|a v]; cbn [isEmpty negb andb flat_map app].
  - split; [|split].
    + unfold noLF in *. by rewrite forallb_app, Hklf.
    + by destruct k.
    + change (k ++ ["="; DQ; DQ]) with (k ++ ["="; DQ] ++ [DQ]).
      rewrite app_assoc. by apply dropCR_keep.
  - split; [|split].
    + unfold noLF in *. rewrite forallb_app, Hklf. cbn [forallb andb].
      by apply cleanValue_noLF in Hv.
    + by destruct k.
    + apply cleanValue_noCR in Hv.
      destruct (a :: v) as [|z w] using rev_ind;
        [by apply (dropCR_keep k "=")|].
      change (k ++ "=" :: w ++ [z]) with (k ++ ("=" :: w) ++ [z]).
      rewrite app_assoc. apply dropCR_keep.
      rewrite forallb_app in Hv. apply andb_true_iff in Hv as [_ Hz].
      simpl in Hz. rewrite andb_true_r in Hz. by apply negb_true_iff in Hz.
Qed.

Section roundtrip.
Variable LookupEnv : gostring -> option gostring.

Lemma Parse_loop_encoded_line (k v : gostring) (lines : list gostring)
    (n : nat) (result : Env) :
  isIdentifier k = true -> cleanValue v = true -> TrimSpace v = v ->
  Parse_loop LookupEnv true (formatEnvLine k v :: lines) None n result =
  Parse_loop LookupEnv true lines None (S n) (<[k := v]> result).
Proof.
  intros Hk Hv Htrim. rewrite formatEnvLine_spec. unfold encodeLine.
  rewrite Hv. destruct v as [|a v]; cbn [isEmpty negb andb flat_map].
  - rewrite (Parse_loop_assign LookupEnv true k [DQ; DQ] []); [done|done| |].
    + by apply (TrimSpace_assign_quoted k [] DQ).
    + by apply (parseLine_quoted k [] DQ).
  - rewrite (Parse_loop_assign LookupEnv true k (a :: v) (a :: v)); [|done| |].
    + by rewrite expandVariables_noDollar by by apply cleanValue_noDollar.
    + by apply TrimSpace_assign_unquoted.
    + apply parseLine_unquoted; [done| | |done].
      * by apply cleanValue_noLF.
      * by apply cleanValue_noQuoteHash.
Qed.

Lemma Parse_loop_encoded (env : Env) (keys : list gostring) (n : nat)
    (result : Env) :
  Forall (fun k => isIdentifier k = true
                   /\ cleanValue (index_map env k) = true
                   /\ TrimSpace (index_map env k) = index_map env k) keys ->
  Parse_loop LookupEnv true
    (map (fun k => formatEnvLine k (index_map env k)) keys) None n result =
  (Some (foldl (fun acc k => <[k := index_map env k]> acc) result keys), None).
Proof.
  intros H. revert n result.
  induction H as [|k keys (Hk & Hv & Ht) _ IH]; intros n result; [done|].
  cbn [map foldl]. rewrite Parse_loop_encoded_line by done. apply IH.
Qed.

End roundtrip.

Lemma foldl_insert_lookup (f : gostring -> gostring) (keys : list gostring)
    (result : Env) (k : gostring) :
  foldl (fun acc k => <[k := f k]> acc) result keys !! k =
  if decide (k ∈ keys) then Some (f k) else result !! k.
Proof.
  revert result. induction keys as [|x keys IH]; intros result.
  { cbn [foldl]. by rewrite decide_False by by apply not_elem_of_nil. }
  cbn [foldl]. rewrite IH.
  destruct (decide (k ∈ keys)) as [Hin|Hnin].
  - by rewrite decide_True by by apply elem_of_cons; right.
  - destruct (decide (k = x)) as [->|Hne].
    + rewrite lookup_insert_eq.
      by rewrite decide_True by by apply elem_of_cons; left.
    + rewrite lookup_insert_ne by done.
      rewrite decide_False; [done|].
      intros [?|?]%elem_of_cons; done.
Qed.

(** ** The tests of the repository, run on the embedding *)

Example test_Parse :
  Parse (fun _ => None)
    (unlines [str "# Comment"; str "KEY1=value1";
              str "KEY2=" ++ DQ :: str "quoted value" ++ [DQ];
              str "KEY3='single quoted'";
              str "export EXPORTED=exported_value";
              str "KEY4: yaml_style"; str "EMPTY="])
  = (Some (<[str "KEY1" := str "value1"]>
          (<[str "KEY2" := str "quoted value"]>
          (<[str "KEY3" := str "single quoted"]>
          (<[str "EXPORTED" := str "exported_value"]>
          (<[str "KEY4" := str "yaml_style"]>
          {[ str "EMPTY" := [] ]}))))), None).
Proof. reflexivity. Qed.

Example test_VariableExpansion :
  Parse (fun _ => None)
    (unlines [str "BASE=hello"; str "EXPANDED=${BASE}_world";
              str "SIMPLE=$BASE"; str "NESTED=${BASE}_${BASE}";
              str "UNDEFINED=${UNDEFINED_VAR}"])
  = (Some (<[str "BASE" := str "hello"]>
          (<[str "EXPANDED" := str "hello_world"]>
          (<[str "SIMPLE" := str "hello"]>
          (<[str "NESTED" := str "hello_hello"]>
          {[ str "UNDEFINED" := [] ]})))), None).
Proof. reflexivity. Qed.

Example test_EscapeSequences :
  Parse (fun _ => None)
    (unlines [str "NEWLINE=" ++ DQ :: str "line1\nline2" ++ [DQ];
              str "QUOTE=" ++ DQ :: str "say \" ++ DQ :: str "hello\"
                ++ [DQ; DQ];
              str "BACKSLASH=" ++ DQ :: str "back\\slash" ++ [DQ];
              str "SINGLE='no\nexpansion'"])
  = (Some (<[str "NEWLINE" := str "line1" ++ LF :: str "line2"]>
          (<[str "QUOTE" := str "say " ++ DQ :: str "hello" ++ [DQ]]>
          (<[str "BACKSLASH" := str "back\slash"]>
          {[ str "SINGLE" := str "no\nexpansion" ]}))), None).
Proof. reflexivity. Qed.

Example test_InlineComments :
  Parse (fun _ => None)
    (unlines [str "KEY1=value1 # This is a comment";
              str "KEY2=" ++ DQ :: str "quoted value" ++ DQ
                :: str " # Comment after quotes";
              str "KEY3=value3# No space before comment";
              str "KEY4=" ++ DQ :: str "value with # inside quotes" ++ [DQ]])
  = (Some (<[str "KEY1" := str "value1"]>
          (<[str "KEY2" := str "quoted value"]>
          (<[str "KEY3" := str "value3"]>
          {[ str "KEY4" := str "value with # inside quotes" ]}))), None).
Proof. reflexivity. Qed.

Example test_ErrorCases :
  Parse (fun _ => None) (str "INVALID LINE FORMAT")
  = (None,
     Some (ParseErrorOnLine 1 (InvalidLineFormat (str "INVALID LINE FORMAT")))).
Proof. reflexivity. Qed.

Example test_Marshal :
  Marshal (<[str "K" := str "va lue"]> {[ str "E" := [] ]})
  = (str "E=" ++ [DQ; DQ; LF] ++ str "K=" ++ DQ :: str "va lue" ++ [DQ], None).
Proof. reflexivity. Qed.

(** * The properties of the specification *)

(** C7.  The escape contract of the value decoder: a raw value between a
    pair of double quotes decodes to its inner text scanned from left to
    right, a backslash followed by n, r, t, backslash, double quote or
    single quote giving the character it stands for, a backslash followed by
    any other byte staying with that byte, and a backslash at the very end
    staying as it is ([decodeEscapes], [escapeOf]); a raw value between a
    pair of single quotes decodes to its inner text unchanged. *)
Theorem parseValue_escape_contract (inner : gostring) :
  parseValue (DQ :: inner ++ [DQ]) = (decodeEscapes inner, None)
  /\ parseValue (SQ :: inner ++ [SQ]) = (inner, None).
Proof.
  split.
  - rewrite parseValue_quoted by reflexivity.
    by rewrite unescapeDoubleQuoted_decode.
  - by rewrite parseValue_quoted by reflexivity.
Qed.

(** C8.  Comment stripping is the run of the two-state quote machine
    [qstep] over the line: the first '#' met in the unquoted state cuts the
    line there, the '#' and what follows it are dropped and what is left is
    trimmed; with no such '#' the line is returned as it is.  On a line
    without white space at its front the trimming is that of the white space
    before the '#', and such are the lines that Parse, which trims first,
    hands over. *)
Theorem removeInlineComment_quote_machine (line : gostring) :
  removeInlineComment line =
  match qrun Unquoted NUL line with
  | inr i => TrimSpace (take i line)
  | inl _ => line
  end
  /\ (TrimLeftSpace line = line ->
      removeInlineComment line =
      match qrun Unquoted NUL line with
      | inr i => TrimRightSpace (take i line)
      | inl _ => line
      end)
  /\ TrimLeftSpace (TrimSpace line) = TrimSpace line.
Proof.
  split; [apply removeInlineComment_qrun|].
  split; [|apply TrimLeftSpace_TrimSpace].
  intros Hline. rewrite removeInlineComment_qrun.
  destruct (qrun Unquoted NUL line) as [st|i]; [done|].
  unfold TrimSpace. f_equal.
  apply TrimLeftSpace_fixed, frontClean_take.
  by apply TrimLeftSpace_fixed.
Qed.

Lemma removeInlineComment_quote_machine_witness :
  removeInlineComment (str "K='a # b\' # c'  # d 'e'") = str "K='a # b\' # c'".
Proof.
  rewrite (proj1 (proj2 (removeInlineComment_quote_machine
                           (str "K='a # b\' # c'  # d 'e'"))) eq_refl).
  reflexivity.
Defined.

(** C10.  A quote that opens in the unquoted state and is never closed (each
    later occurrence of it comes right after a backslash) switches comment
    stripping off: the line is returned unchanged, whatever '#' follows.
    So "A='b # c" parses, and A is the text from the quote on, the quote and
    the '#' included. *)
Theorem unterminated_quote_keeps_line :
  (forall (pre rest : gostring) (q : ascii),
      qrun Unquoted NUL pre = inl Unquoted ->
      isQuote q = true ->
      unclosed q q rest = true ->
      removeInlineComment (pre ++ q :: rest) = pre ++ q :: rest)
  /\ (forall LookupEnv,
        Unmarshal LookupEnv (str "A='b # c")
        = (Some {[ str "A" := str "'b # c" ]}, None)).
Proof.
  split.
  - intros pre rest q Hpre Hq Hrest.
    rewrite removeInlineComment_qrun, qrun_app, Hpre.
    cbn [qrun qstep]. rewrite Hq.
    by rewrite qrun_unclosed.
  - intros LookupEnv. reflexivity.
Qed.

Lemma unterminated_quote_keeps_line_witness :
  removeInlineComment (str "A='b # c\' # d") = str "A='b # c\' # d".
Proof.
  apply (proj1 unterminated_quote_keeps_line (str "A=") (str "b # c\' # d") SQ);
    reflexivity.
Defined.

(** C2.  The round trip is not the identity on every mapping: for the
    mapping A = x, B = $A the encoder quotes the value of B because of its
    '$', and decoding the encoded text succeeds but expands the reference,
    so that B comes back as x. *)
Theorem roundtrip_divergence :
  exists m : Env,
    m !! str "B" = Some (str "$A")
    /\ Marshal m = (str "A=x" ++ LF :: str "B=" ++ DQ :: str "$A" ++ [DQ], None)
    /\ forall LookupEnv, exists m' : Env,
         Unmarshal LookupEnv (Marshal m).1 = (Some m', None)
         /\ m' !! str "B" = Some (str "x")
         /\ m' <> m.
Proof.
  exists (<[str "B" := str "$A"]> (<[str "A" := str "x"]> ∅)).
  split; [reflexivity|]. split; [reflexivity|].
  intros LookupEnv.
  exists (<[str "B" := str "x"]> (<[str "A" := str "x"]> ∅)).
  split; [reflexivity|]. split; [reflexivity|].
  intros H. apply (f_equal (fun m : Env => m !! str "B")) in H.
  discriminate H.
Qed.

(** C4.  With expansion enabled the loop of Parse stores, for every line
    that parseLine decodes, the expansion of the decoded value, whatever the
    quote mode of its token: an unquoted, a double-quoted and a
    single-quoted token with the same text all store the expansion of that
    text against the mapping built so far.  In particular BASE=x followed by
    SINGLE='$BASE literal?' gives SINGLE the value "x literal?". *)
Theorem expansion_in_every_quote_mode :
  (forall LookupEnv (line key value : gostring) (lines : list gostring)
          (scanErr : option error) (n : nat) (result : Env),
      isEmpty (TrimSpace line) || HasPrefix (TrimSpace line) (str "#") = false ->
      parseLine (TrimSpace line) = (key, value, None) -> key <> [] ->
      Parse_loop LookupEnv true (line :: lines) scanErr n result
      = Parse_loop LookupEnv true lines scanErr (S n)
          (<[key := expandVariables LookupEnv value result]> result))
  /\ (forall LookupEnv (k inner : gostring) (lines : list gostring)
          (scanErr : option error) (n : nat) (result : Env),
      isIdentifier k = true -> noLF inner = true ->
      noQuoteHash inner = true -> noBSL inner = true ->
      TrimSpace inner = inner ->
      let expanded :=
        Parse_loop LookupEnv true lines scanErr (S n)
          (<[k := expandVariables LookupEnv inner result]> result) in
      Parse_loop LookupEnv true ((k ++ "=" :: inner) :: lines) scanErr n
        result = expanded
      /\ Parse_loop LookupEnv true ((k ++ "=" :: DQ :: inner ++ [DQ]) :: lines)
           scanErr n result = expanded
      /\ Parse_loop LookupEnv true ((k ++ "=" :: SQ :: inner ++ [SQ]) :: lines)
           scanErr n result = expanded)
  /\ (forall LookupEnv,
        Parse LookupEnv (str "BASE=x" ++ LF :: str "SINGLE='$BASE literal?'")
        = (Some (<[str "SINGLE" := str "x literal?"]>
                   {[ str "BASE" := str "x" ]}), None)).
Proof.
  split; [|split; [|reflexivity]].
  { intros LookupEnv line key value lines scanErr n result Hskip Hparse Hkey.
    cbn [Parse_loop]. rewrite Hskip, Hparse. by destruct key. }
  intros LookupEnv k inner lines scanErr n result Hk Hlf Hqh Hbs Htrim expanded.
  assert (Hnq : forall q, isQuote q = true ->
            forallb (fun c => negb (c =c= q)) inner = true).
  { intros q Hq. unfold noQuoteHash in Hqh. rewrite forallb_forall in *.
    intros c Hc. specialize (Hqh c Hc).
    apply andb_true_iff in Hqh as [Hcq _]. apply negb_true_iff in Hcq.
    destruct (c =c= q) eqn:E; [|done].
    apply ceq_true in E. subst c. congruence. }
  assert (Hlast : forall q, isQuote q = true ->
            (List.last inner q =c= BSL) = false).
  { intros q Hq. destruct inner as [|a inner] using rev_ind.
    - unfold isQuote in Hq.
      by apply orb_true_iff in Hq as [->%ceq_true| ->%ceq_true].
    - rewrite last_last. unfold noBSL in Hbs. rewrite forallb_app in Hbs.
      apply andb_true_iff in Hbs as [_ Hb]. simpl in Hb.
      rewrite andb_true_r in Hb. by apply negb_true_iff in Hb. }
  subst expanded. split; [|split].
  - apply (Parse_loop_assign LookupEnv true k inner inner); [done| |].
    + by apply TrimSpace_assign_unquoted.
    + by apply parseLine_unquoted.
  - apply (Parse_loop_assign LookupEnv true k (DQ :: inner ++ [DQ]) inner);
      [done| |].
    + by apply TrimSpace_assign_quoted.
    + rewrite parseLine_quoted;
        [|done|reflexivity|done|by apply Hnq|by apply Hlast].
      rewrite unescapeDoubleQuoted_decode, decodeEscapes_noBSL by done.
      reflexivity.
  - apply (Parse_loop_assign LookupEnv true k (SQ :: inner ++ [SQ]) inner);
      [done| |].
    + by apply TrimSpace_assign_quoted.
    + by rewrite parseLine_quoted;
        [|done|reflexivity|done|by apply Hnq|by apply Hlast].
Qed.

Lemma expansion_in_every_quote_mode_witness :
  Parse_loop (fun _ => None) true [str "SINGLE='$BASE literal?'"] None 1
    {[ str "BASE" := str "x" ]}
  = (Some (<[str "SINGLE" := str "x literal?"]> {[ str "BASE" := str "x" ]}),
     None).
Proof.
  rewrite (proj2 (proj2 (proj1 (proj2 expansion_in_every_quote_mode)
             (fun _ => None)
             (str "SINGLE") (str "$BASE literal?") [] None 1
             {[ str "BASE" := str "x" ]}
             eq_refl eq_refl eq_refl eq_refl eq_refl))).
  reflexivity.
Defined.




(** C6, as the code has it.  Expansion is one pass from left to right that
    replaces exactly two forms: a '$' followed by braces around any text
    that is not empty and holds no closing brace, whether that text is an
    identifier or not, and a bare '$' followed by an identifier, taken as
    long as it goes.  Either is replaced by what its name resolves to (the
    empty string when nothing resolves it); every other byte, a '$' that
    starts neither form included, is copied. *)
Theorem expandVariables_forms (LookupEnv : gostring -> option gostring)
    (env : Env) :
  expandVariables LookupEnv [] env = []
  /\ (forall c s, c <> DOLLAR ->
        expandVariables LookupEnv (c :: s) env
        = c :: expandVariables LookupEnv s env)
  /\ (forall x rest, braceContent x = true ->
        expandVariables LookupEnv (DOLLAR :: "{" :: x ++ "}" :: rest) env
        = resolve LookupEnv env x ++ expandVariables LookupEnv rest env)
  /\ (forall name rest, isIdentifier name = true -> endsIdent rest ->
        expandVariables LookupEnv (DOLLAR :: name ++ rest) env
        = resolve LookupEnv env name ++ expandVariables LookupEnv rest env)
  /\ (forall s,
        match s with c :: _ => identStart c = false | [] => True end ->
        (forall x rest, braceContent x = true -> s <> "{" :: x ++ "}" :: rest) ->
        expandVariables LookupEnv (DOLLAR :: s) env
        = DOLLAR :: expandVariables LookupEnv s env).
Proof.
  split; [reflexivity|]. split; [|split; [|split]].
  - intros c s Hc. apply expandVariables_other. by apply ceq_false.
  - apply expandVariables_braced.
  - apply expandVariables_bare.
  - intros s Hid Hbr. unfold expandVariables.
    apply ReplaceAll_nomatch. by apply expandVarRegex_dollar_none.
Qed.

Lemma expandVariables_forms_witness :
  expandVariables (fun _ => Some (str "os"))
    (DOLLAR :: "{" :: str "x y" ++ "}" :: str "-") {[ str "B" := str "file" ]}
  = str "os-"
  /\ expandVariables (fun _ => Some (str "os")) (DOLLAR :: str "B" ++ str "-")
       {[ str "B" := str "file" ]}
     = str "file-"
  /\ expandVariables (fun _ => Some (str "os")) (DOLLAR :: str "1${}")
       {[ str "B" := str "file" ]}
     = str "$1${}".
Proof.
  pose proof (expandVariables_forms (fun _ => Some (str "os"))
                {[ str "B" := str "file" ]})
    as (_ & Hc & Hbr & Hid & Hd).
  split; [|split].
  - rewrite (Hbr (str "x y") (str "-") eq_refl). reflexivity.
  - rewrite (Hid (str "B") (str "-") eq_refl eq_refl). reflexivity.
  - rewrite (Hd (str "1${}") eq_refl) by (intros x rest _; discriminate).
    reflexivity.
Defined.

(** C6, as the specification states it, fails: the text between the braces of "${A B}"
    is not an identifier, and yet the occurrence is replaced, here by the
    empty string, nothing being named "A B". *)
Lemma braced_reference_need_not_be_identifier :
  isIdentifier (str "A B") = false
  /\ expandVariables (fun _ => None) (str "x${A B}y") ∅ = str "xy"
  /\ expandVariables (fun _ => None) (str "x${A B}y") ∅ <> str "x${A B}y".
Proof. split; [reflexivity|]. split; [reflexivity|discriminate]. Qed.






(** C1, as the code has it.  Decoding the encoding of a mapping gives the
    mapping back when its keys are identifiers, its values hold none of
    space, tab, newline, carriage return, double quote, single quote,
    backslash, '#' and '$' and neither begin nor end with white space as
    TrimSpace knows it, and each encoded line is shorter than the scanner's
    buffer of 65536 bytes. *)
Theorem roundtrip (LookupEnv : gostring -> option gostring) (m : Env) :
  (forall k v, m !! k = Some v ->
     isIdentifier k = true /\ cleanValue v = true /\ TrimSpace v = v
     /\ List.length (formatEnvLine k v) < MaxScanTokenSize) ->
  Unmarshal LookupEnv (Marshal m).1 = (Some m, None).
Proof.
  intros Hm. unfold Unmarshal, Parse, Parser_Parse, Marshal.
  destruct (size m =? 0) eqn:Hs.
  { apply Nat.eqb_eq, map_size_empty_inv in Hs. by subst m. }
  cbn [fst].
  set (keys := sort_Strings (map_to_list m).*1).
  assert (Hkeys : forall k, k ∈ keys <-> is_Some (m !! k)).
  { intros k. unfold keys. by rewrite sort_Strings_elem, keys_elem. }
  assert (Hall : Forall (fun k => exists v, m !! k = Some v) keys).
  { apply Forall_forall. intros k Hk. by apply Hkeys. }
  rewrite Scanner_run_Join.
  2:{ apply Forall_map. eapply Forall_impl; [exact Hall|].
      intros k [v Hv]. cbn beta. unfold index_map. rewrite Hv.
      destruct (Hm k v Hv) as (Hk & Hc & Ht & Hl).
      destruct (encoded_line_facts k v Hk Hc) as (? & ? & ?). done. }
  rewrite map_map.
  rewrite (map_ext_in _ (fun k => formatEnvLine k (index_map m k))).
  2:{ intros k Hk%list_elem_of_In. rewrite Forall_forall in Hall.
      destruct (Hall k Hk) as [v Hv]. unfold index_map. rewrite Hv.
      destruct (Hm k v Hv) as (Hk' & Hc & Ht & Hl).
      by destruct (encoded_line_facts k v Hk' Hc) as (? & ? & ?). }
  rewrite Parse_loop_encoded.
  2:{ eapply Forall_impl; [exact Hall|].
      intros k [v Hv]. cbn beta. unfold index_map. rewrite Hv.
      destruct (Hm k v Hv) as (? & ? & ? & ?). done. }
  do 2 f_equal. apply map_eq. intros k.
  rewrite foldl_insert_lookup, lookup_empty.
  destruct (decide (k ∈ keys)) as [Hin|Hnin].
  - apply Hkeys in Hin as [v Hv]. unfold index_map. by rewrite Hv.
  - destruct (m !! k) eqn:E; [|done].
    exfalso. apply Hnin, Hkeys. by eexists.
Qed.

Lemma roundtrip_witness :
  Unmarshal (fun _ => None)
    (Marshal (<[str "PORT" := str "8080"]> {[ str "EMPTY" := [] ]})).1
  = (Some (<[str "PORT" := str "8080"]> {[ str "EMPTY" := [] ]}), None).
Proof.
  apply (roundtrip (fun _ => None)).
  intros k v [[<- <-]|[_ [<- <-]%lookup_singleton_Some]]%lookup_insert_Some;
    (split; [reflexivity | split; [reflexivity | split;
       [reflexivity | short_line]]]).
Defined.

(** C1, as the specification states it, fails twice over.  A value that is a form feed
    holds none of the nine bytes, is written unquoted and is trimmed away by
    the decoder; and a value of 65536 bytes makes a line that the scanner
    refuses, so that decoding fails. *)
Lemma roundtrip_loses_form_feed_and_long_values :
  (isIdentifier (str "K") = true /\ cleanValue [FF] = true
   /\ Unmarshal (fun _ => None) (Marshal {[ str "K" := [FF] ]}).1
      = (Some {[ str "K" := [] ]}, None)
   /\ ({[ str "K" := [] ]} : Env) <> {[ str "K" := [FF] ]})
  /\ (cleanValue longValue = true
      /\ Unmarshal (fun _ => None) (Marshal {[ str "K" := longValue ]}).1
         = (None, Some (ErrorReadingInput ErrTooLong))).
Proof.
  split; [|split; vm_compute; reflexivity].
  split; [reflexivity|]. split; [reflexivity|]. split; [reflexivity|].
  intros H. apply (f_equal (fun m : Env => m !! str "K")) in H.
  discriminate H.
Qed.

(** * Further properties of the engine *)

(** ** Escaping and decoding *)

Lemma decodeEscapes_escapeByte (c : ascii) (rest : gostring) :
  decodeEscapes (escapeByte c ++ rest) = c :: decodeEscapes rest.
Proof. byte_cases c; reflexivity. Qed.

Lemma decodeEscapes_escape (v : gostring) :
  decodeEscapes (flat_map escapeByte v) = v.
Proof.
  induction v as [|c v IH]; [done|].
  cbn [flat_map]. by rewrite decodeEscapes_escapeByte, IH.
Qed.

(** X1.  Decoding undoes escaping: for every value, the escape decoder
    applied to the escaped text gives the value back, and so does the value
    decoder applied to the escaped text between double quotes. *)
Theorem unescape_escapeValue (value : gostring) :
  unescapeDoubleQuoted (escapeValue value) = value
  /\ parseValue (DQ :: escapeValue value ++ [DQ]) = (value, None).
Proof.
  assert (H : unescapeDoubleQuoted (escapeValue value) = value).
  { by rewrite unescapeDoubleQuoted_decode, escapeValue_spec,
      decodeEscapes_escape. }
  split; [done|].
  rewrite parseValue_quoted by reflexivity. by rewrite H.
Qed.

(** ** The text of an escaped value *)

Lemma escapeByte_noLF (c : ascii) : noLF (escapeByte c) = true.
Proof. byte_cases c; reflexivity. Qed.

Lemma escape_noLF (v : gostring) : noLF (flat_map escapeByte v) = true.
Proof.
  induction v as [|c v IH]; [done|].
  cbn [flat_map]. unfold noLF in *. by rewrite forallb_app, escapeByte_noLF.
Qed.

(** In the escaped text a double quote comes after a backslash only. *)
Lemma escapeByte_unclosed (c prev : ascii) (rest : gostring) :
  unclosed DQ prev (escapeByte c ++ rest)
  = unclosed DQ (List.last (escapeByte c) prev) rest.
Proof. byte_cases c; cbn; by rewrite ?andb_true_r. Qed.

Lemma escape_unclosed (v : gostring) (prev : ascii) :
  unclosed DQ prev (flat_map escapeByte v) = true.
Proof.
  revert prev. induction v as [|c v IH]; intros prev; [done|].
  cbn [flat_map]. rewrite escapeByte_unclosed. apply IH.
Qed.

Lemma qrun_quoted_end (q prev : ascii) (inner : gostring) :
  unclosed q prev inner = true ->
  exists st, qrun (Quoted q) prev (inner ++ [q]) = inl st.
Proof.
  intros H. rewrite qrun_app, qrun_unclosed by done.
  cbn [qrun qstep]. rewrite ceq_refl. cbn [andb].
  destruct (negb (List.last inner prev =c= BSL)); eauto.
Qed.

Lemma parseLine_escaped (k v : gostring) :
  isIdentifier k = true ->
  parseLine (k ++ "=" :: DQ :: flat_map escapeByte v ++ [DQ]) = (k, v, None).
Proof.
  intros Hk. unfold parseLine.
  set (esc := flat_map escapeByte v).
  rewrite removeInlineComment_qrun.
  assert (Hrun : exists st,
            qrun Unquoted NUL (k ++ "=" :: DQ :: esc ++ [DQ]) = inl st).
  { change (k ++ "=" :: DQ :: esc ++ [DQ])
      with (k ++ ["="] ++ (DQ :: esc ++ [DQ])).
    rewrite app_assoc, qrun_app.
    rewrite qrun_noQuoteHash by by apply noQuoteHash_key.
    cbn [qrun qstep]. replace (isQuote DQ) with true by reflexivity.
    destruct (qrun_quoted_end DQ DQ esc (escape_unclosed v DQ)) as [st ->].
    eauto. }
  destruct Hrun as [st ->].
  rewrite exportRegex_assign by done.
  assert (Hlf : noLF (DQ :: esc ++ [DQ]) = true).
  { unfold noLF. cbn [forallb]. rewrite forallb_app.
    fold (noLF esc). unfold esc. by rewrite escape_noLF. }
  rewrite lineRegex_assign by done.
  rewrite span_stop by reflexivity. cbn [snd].
  rewrite TrimSpace_plain_ends by reflexivity.
  rewrite parseValue_quoted by reflexivity.
  replace (DQ =c= DQ) with true by reflexivity.
  unfold esc. by rewrite unescapeDoubleQuoted_decode, decodeEscapes_escape.
Qed.

Lemma needsQuoting_false (v : gostring) :
  needsQuoting v = false -> v <> [] /\ cleanValue v = true.
Proof.
  rewrite needsQuoting_spec. intros H%negb_false_iff.
  apply andb_true_iff in H as [Hne Hc]. split; [by destruct v|done].
Qed.

Lemma needsQuoting_true_line (k v : gostring) :
  needsQuoting v = true ->
  formatEnvLine k v = k ++ "=" :: DQ :: flat_map escapeByte v ++ [DQ].
Proof.
  intros H. unfold formatEnvLine. rewrite H. cbn [negb].
  by rewrite escapeValue_spec.
Qed.

Lemma needsQuoting_false_line (k v : gostring) :
  needsQuoting v = false -> formatEnvLine k v = k ++ "=" :: v.
Proof. intros H. unfold formatEnvLine. by rewrite H. Qed.

(** The line of any entry with an identifier for key, seen from the
    scanner. *)
Lemma formatEnvLine_facts (k v : gostring) :
  isIdentifier k = true ->
  noLF (formatEnvLine k v) = true
  /\ formatEnvLine k v <> []
  /\ dropCR (formatEnvLine k v) = formatEnvLine k v.
Proof.
  intros Hk. destruct (needsQuoting v) eqn:Hq.
  - rewrite needsQuoting_true_line by done.
    assert (Hklf : noLF k = true)
      by by apply isIdentifier_forallb; [apply identChar_noLF|].
    split; [|split].
    + unfold noLF in *. rewrite forallb_app, Hklf. cbn [forallb andb].
      rewrite forallb_app. fold (noLF (flat_map escapeByte v)).
      by rewrite escape_noLF.
    + by destruct k.
    + change (k ++ "=" :: DQ :: flat_map escapeByte v ++ [DQ])
        with (k ++ ("=" :: DQ :: flat_map escapeByte v) ++ [DQ]).
      rewrite app_assoc. by apply dropCR_keep.
  - apply needsQuoting_false in Hq as [_ Hc].
    by apply encoded_line_facts.
Qed.

Section roundtrip_general.
Variable LookupEnv : gostring -> option gostring.
Variable expandVars : bool.

Lemma Parse_loop_formatted_line (k v : gostring) (lines : list gostring)
    (n : nat) (result : Env) :
  isIdentifier k = true ->
  (expandVars = true -> noDollar v = true) ->
  (needsQuoting v = false -> TrimSpace v = v) ->
  Parse_loop LookupEnv expandVars (formatEnvLine k v :: lines) None n result =
  Parse_loop LookupEnv expandVars lines None (S n) (<[k := v]> result).
Proof.
  intros Hk Hd Ht.
  assert (Hexp : (if expandVars then expandVariables LookupEnv v result else v)
                 = v).
  { destruct expandVars; [|done].
    by rewrite expandVariables_noDollar by by apply Hd. }
  destruct (needsQuoting v) eqn:Hq.
  - rewrite needsQuoting_true_line by done.
    rewrite (Parse_loop_assign LookupEnv expandVars k
               (DQ :: flat_map escapeByte v ++ [DQ]) v); [|done| |].
    + by rewrite Hexp.
    + by apply TrimSpace_assign_quoted.
    + by apply parseLine_escaped.
  - rewrite needsQuoting_false_line by done.
    apply needsQuoting_false in Hq as Hq'. destruct Hq' as [_ Hc].
    rewrite (Parse_loop_assign LookupEnv expandVars k v v); [|done| |].
    + by rewrite Hexp.
    + apply TrimSpace_assign_unquoted; [done|]. by apply Ht.
    + apply parseLine_unquoted; [done| | |by apply Ht].
      * by apply cleanValue_noLF.
      * by apply cleanValue_noQuoteHash.
Qed.

Lemma Parse_loop_formatted (env : Env) (keys : list gostring) (n : nat)
    (result : Env) :
  Forall (fun k => isIdentifier k = true
                   /\ (expandVars = true -> noDollar (index_map env k) = true)
                   /\ (needsQuoting (index_map env k) = false ->
                       TrimSpace (index_map env k) = index_map env k)) keys ->
  Parse_loop LookupEnv expandVars
    (map (fun k => formatEnvLine k (index_map env k)) keys) None n result =
  (Some (foldl (fun acc k => <[k := index_map env k]> acc) result keys), None).
Proof.
  intros H. revert n result.
  induction H as [|k keys (Hk & Hv & Ht) _ IH]; intros n result; [done|].
  cbn [map foldl]. rewrite Parse_loop_formatted_line by done. apply IH.
Qed.

End roundtrip_general.

Lemma Parser_Parse_Marshal (LookupEnv : gostring -> option gostring)
    (expandVars : bool) (m : Env) :
  (forall k v, m !! k = Some v ->
     isIdentifier k = true
     /\ (expandVars = true -> noDollar v = true)
     /\ (needsQuoting v = false -> TrimSpace v = v)
     /\ List.length (formatEnvLine k v) < MaxScanTokenSize) ->
  Parser_Parse LookupEnv expandVars (Marshal m).1 = (Some m, None).
Proof.
  intros Hm. unfold Parser_Parse, Marshal.
  destruct (size m =? 0) eqn:Hs.
  { apply Nat.eqb_eq, map_size_empty_inv in Hs. by subst m. }
  cbn [fst].
  set (keys := sort_Strings (map_to_list m).*1).
  assert (Hkeys : forall k, k ∈ keys <-> is_Some (m !! k)).
  { intros k. unfold keys. by rewrite sort_Strings_elem, keys_elem. }
  assert (Hall : Forall (fun k => exists v, m !! k = Some v) keys).
  { apply Forall_forall. intros k Hk. by apply Hkeys. }
  rewrite Scanner_run_Join.
  2:{ apply Forall_map. eapply Forall_impl; [exact Hall|].
      intros k [v Hv]. cbn beta. unfold index_map. rewrite Hv.
      destruct (Hm k v Hv) as (Hk & _ & _ & Hl).
      destruct (formatEnvLine_facts k v Hk) as (? & ? & ?). done. }
  rewrite map_map.
  rewrite (map_ext_in _ (fun k => formatEnvLine k (index_map m k))).
  2:{ intros k Hk%list_elem_of_In. rewrite Forall_forall in Hall.
      destruct (Hall k Hk) as [v Hv]. unfold index_map. rewrite Hv.
      destruct (Hm k v Hv) as (Hk' & _).
      by destruct (formatEnvLine_facts k v Hk') as (? & ? & ?). }
  rewrite Parse_loop_formatted.
  2:{ eapply Forall_impl; [exact Hall|].
      intros k [v Hv]. cbn beta. unfold index_map. rewrite Hv.
      destruct (Hm k v Hv) as (? & ? & ? & ?). done. }
  do 2 f_equal. apply map_eq. intros k.
  rewrite foldl_insert_lookup, lookup_empty.
  destruct (decide (k ∈ keys)) as [Hin|Hnin].
  - apply Hkeys in Hin as [v Hv]. unfold index_map. by rewrite Hv.
  - destruct (m !! k) eqn:E; [|done].
    exfalso. apply Hnin, Hkeys. by eexists.
Qed.

(** X2.  The round trip through Marshal and Parser.Parse, quoted values
    included: for a mapping whose keys are identifiers, whose values hold no
    '$' when expansion is enabled, whose unquoted values neither begin nor
    end with white space, and whose encoded lines are shorter than the
    scanner's buffer, decoding the encoded text gives the mapping back.
    Values with spaces, quotes, backslashes, newlines, tabs or '#' are
    restored exactly; with expansion disabled so are values with '$'. *)
Theorem roundtrip_quoted (LookupEnv : gostring -> option gostring)
    (expandVars : bool) (m : Env) :
  (forall k v, m !! k = Some v ->
     isIdentifier k = true
     /\ (expandVars = true -> noDollar v = true)
     /\ (needsQuoting v = false -> TrimSpace v = v)
     /\ List.length (formatEnvLine k v) < MaxScanTokenSize) ->
  Parser_Parse LookupEnv expandVars (Marshal m).1 = (Some m, None).
Proof. apply Parser_Parse_Marshal. Qed.

Lemma roundtrip_quoted_witness :
  Parser_Parse (fun _ => None) true
    (Marshal (<[str "KEY2" := str "value with spaces"]>
                {[ str "SPECIAL" := str "a" ++ LF :: str "b\" ++ DQ
                                      :: str "# c'" ++ [TAB] ]})).1
  = (Some (<[str "KEY2" := str "value with spaces"]>
             {[ str "SPECIAL" := str "a" ++ LF :: str "b\" ++ DQ
                                   :: str "# c'" ++ [TAB] ]}), None).
Proof.
  apply (roundtrip_quoted (fun _ => None) true).
  intros k v [[<- <-]|[_ [<- <-]%lookup_singleton_Some]]%lookup_insert_Some;
    (split; [reflexivity | split; [reflexivity | split;
       [discriminate | short_line]]]).
Defined.

(** ** The scanner at the end of the text *)

Lemma MaxScanTokenSize_pos : (MaxScanTokenSize <=? 0) = false.
Proof. vm_compute. reflexivity. Qed.

Lemma Scanner_run_final_newline (input cur : gostring) :
  exists extra,
    (extra = [] \/ extra = [[]])
    /\ Scanner_run cur (input ++ [LF])
       = ((Scanner_run cur input).1 ++ extra, (Scanner_run cur input).2)
    /\ ((Scanner_run cur input).2 <> None -> extra = []).
Proof.
  revert cur. induction input as [|c input IH]; intros cur.
  - cbn [app Scanner_run]. rewrite ceq_refl.
    destruct cur as [|x cur].
    + cbn [isEmpty List.length]. rewrite MaxScanTokenSize_pos.
      exists [[]]. split; [by right|]. split; [reflexivity|done].
    + cbn [isEmpty].
      destruct (MaxScanTokenSize <=? List.length (x :: cur)).
      * exists []. split; [by left|]. split; [reflexivity|done].
      * exists []. split; [by left|]. split; [reflexivity|done].
  - cbn [app Scanner_run]. destruct (c =c= LF).
    + destruct (MaxScanTokenSize <=? List.length cur).
      * exists []. split; [by left|]. split; [reflexivity|done].
      * destruct (IH []) as (extra & Hex & -> & Hnone).
        destruct (Scanner_run [] input) as [ts e]. cbn [fst snd] in *.
        exists extra. split; [done|]. split; [reflexivity|done].
    + apply IH.
Qed.

Section loop_facts.
Variable LookupEnv : gostring -> option gostring.
Variable expandVars : bool.

Lemma Parse_loop_skipped (line : gostring) (lines : list gostring)
    (scanErr : option error) (n : nat) (result : Env) :
  skipped line = true ->
  Parse_loop LookupEnv expandVars (line :: lines) scanErr n result =
  Parse_loop LookupEnv expandVars lines scanErr (S n) result.
Proof. unfold skipped. apply Parse_loop_skip. Qed.

Lemma Parse_loop_nil_counter (scanErr : option error) (n n' : nat)
    (result : Env) :
  Parse_loop LookupEnv expandVars [] scanErr n result =
  Parse_loop LookupEnv expandVars [] scanErr n' result.
Proof. reflexivity. Qed.

Lemma Parse_loop_app_blank (lines : list gostring) (scanErr : option error)
    (n : nat) (result : Env) :
  Parse_loop LookupEnv expandVars (lines ++ [[]]) scanErr n result =
  Parse_loop LookupEnv expandVars lines scanErr n result.
Proof.
  revert n result. induction lines as [|l lines IH]; intros n result.
  - reflexivity.
  - cbn [app Parse_loop].
    destruct (isEmpty (TrimSpace l) || HasPrefix (TrimSpace l) (str "#"));
      [apply IH|].
    destruct (parseLine (TrimSpace l)) as [[key value] [err|]]; [done|].
    destruct (negb (isEmpty key)); apply IH.
Qed.

End loop_facts.

Lemma Parser_Parse_final_newline (LookupEnv : gostring -> option gostring)
    (expandVars : bool) (input : gostring) :
  Parser_Parse LookupEnv expandVars (input ++ [LF])
  = Parser_Parse LookupEnv expandVars input.
Proof.
  unfold Parser_Parse.
  destruct (Scanner_run_final_newline input []) as (extra & Hex & -> & Hnone).
  destruct (Scanner_run [] input) as [ts e]. cbn [fst snd] in *.
  destruct Hex as [->| ->].
  - by rewrite app_nil_r.
  - apply Parse_loop_app_blank.
Qed.

(** X3.  A newline at the very end of the text is immaterial: Parse gives
    the same mapping or the same error, line number included, for a text
    and for that text followed by one more newline.  (Write appends such a
    newline to what Marshal returns.) *)
Theorem Parse_final_newline (LookupEnv : gostring -> option gostring)
    (expandVars : bool) (input : gostring) :
  Parser_Parse LookupEnv expandVars (input ++ [LF])
  = Parser_Parse LookupEnv expandVars input.
Proof. apply Parser_Parse_final_newline. Qed.

(** ** The keys of a parsed mapping *)

Lemma takeIdent_spec (s k r : gostring) :
  takeIdent s = Some (k, r) -> isIdentifier k = true /\ s = k ++ r.
Proof.
  destruct s as [|c s]; [done|]. cbn [takeIdent].
  destruct (identStart c) eqn:Hc; [|done].
  destruct (span identChar s) as [m r'] eqn:Hs.
  intros [= <- <-]. apply span_spec in Hs as (-> & Hm & _).
  split; [|done]. cbn [isIdentifier]. by rewrite Hc, Hm.
Qed.

Lemma lineRegex_key (line k v : gostring) :
  lineRegex line = Some (k, v) -> isIdentifier k = true.
Proof.
  unfold lineRegex.
  destruct (takeIdent (span reSpace line).2) as [[key s]|] eqn:Ht; [|done].
  destruct (afterKey s); [|done]. intros [= <- _].
  by apply takeIdent_spec in Ht as [? _].
Qed.

Lemma exportRegex_key (line k v : gostring) :
  exportRegex line = Some (k, v) -> isIdentifier k = true.
Proof.
  unfold exportRegex.
  destruct (HasPrefix (span reSpace line).2 (str "export")); [|done].
  destruct (span reSpace (drop 6 (span reSpace line).2)) as [ws s1].
  destruct ws as [|w ws]; [done|].
  destruct (takeIdent s1) as [[key s2]|] eqn:Ht; [|done].
  destruct (afterKey s2); [|done]. intros [= <- _].
  by apply takeIdent_spec in Ht as [? _].
Qed.

Lemma parseLine_key (line key value : gostring) :
  parseLine line = (key, value, None) ->
  isEmpty key = true \/ isIdentifier key = true.
Proof.
  unfold parseLine.
  destruct (exportRegex (removeInlineComment line)) as [[k m2]|] eqn:He.
  { destruct (parseValue (TrimSpace m2)) as [v e]. intros [= <- _ _].
    right. by apply exportRegex_key in He. }
  destruct (lineRegex (removeInlineComment line)) as [[k m2]|] eqn:Hl.
  { destruct (parseValue (TrimSpace m2)) as [v e]. intros [= <- _ _].
    right. by apply lineRegex_key in Hl. }
  destruct (negb (isEmpty (TrimSpace (removeInlineComment line))));
    [done|]. intros [= <- _]. by left.
Qed.

Lemma Parse_loop_keys (LookupEnv : gostring -> option gostring)
    (expandVars : bool) (lines : list gostring) (scanErr : option error)
    (n : nat) (result m : Env) :
  Parse_loop LookupEnv expandVars lines scanErr n result = (Some m, None) ->
  (forall k, is_Some (result !! k) -> isIdentifier k = true) ->
  forall k, is_Some (m !! k) -> isIdentifier k = true.
Proof.
  revert n result. induction lines as [|l lines IH]; intros n result H Hres.
  - cbn [Parse_loop] in H. destruct scanErr; [done|].
    by injection H as <-.
  - cbn [Parse_loop] in H.
    destruct (isEmpty (TrimSpace l) || HasPrefix (TrimSpace l) (str "#"));
      [by apply (IH _ _ H)|].
    destruct (parseLine (TrimSpace l)) as [[key value] [err|]] eqn:Hp;
      [done|].
    apply parseLine_key in Hp.
    destruct (isEmpty key) eqn:Hk; cbn [negb] in H;
      [by apply (IH _ _ H)|].
    destruct Hp as [?|Hid]; [done|].
    apply (IH _ _ H). intros k [v Hv].
    destruct (decide (key = k)) as [<-|Hne]; [done|].
    rewrite lookup_insert_ne in Hv by done. apply Hres. by eexists.
Qed.

Lemma Parser_Parse_keys (LookupEnv : gostring -> option gostring)
    (expandVars : bool) (input : gostring) (m : Env) (k : gostring) :
  Parser_Parse LookupEnv expandVars input = (Some m, None) ->
  is_Some (m !! k) ->
  isIdentifier k = true.
Proof.
  unfold Parser_Parse. destruct (Scanner_run [] input) as [lines e].
  intros H Hk. eapply Parse_loop_keys; [exact H| |exact Hk].
  intros k' [v Hv]. by rewrite lookup_empty in Hv.
Qed.

(** X4.  Every key of a mapping that Parse returns matches the identifier
    grammar: a letter or an underscore, then letters, digits and
    underscores; no key is empty or holds an '='. *)
Theorem Parse_keys_are_identifiers (LookupEnv : gostring -> option gostring)
    (expandVars : bool) (input : gostring) (m : Env) (k : gostring) :
  Parser_Parse LookupEnv expandVars input = (Some m, None) ->
  is_Some (m !! k) ->
  isIdentifier k = true.
Proof. apply Parser_Parse_keys. Qed.

Lemma Parse_keys_are_identifiers_witness :
  isIdentifier (str "KEY_1") = true.
Proof.
  apply (Parse_keys_are_identifiers (fun _ => None) true
           (str "export KEY_1 : a" ++ LF :: str "B=2")
           (<[str "B" := str "2"]> {[ str "KEY_1" := str "a" ]})
           (str "KEY_1")).
  - reflexivity.
  - by eexists.
Defined.

(** ** When Parse succeeds *)


Section outcome.
Variable LookupEnv : gostring -> option gostring.
Variable expandVars : bool.

Lemma Parse_loop_all_wellformed (lines : list gostring) (n : nat)
    (result : Env) :
  Forall (fun l => malformed l = false) lines ->
  exists m, Parse_loop LookupEnv expandVars lines None n result
            = (Some m, None).
Proof.
  intros H. revert n result.
  induction H as [|l lines Hl _ IH]; intros n result; [by eexists|].
  destruct (Parse_loop_wellformed LookupEnv expandVars l lines None n result
              Hl) as [result' ->].
  apply IH.
Qed.


End outcome.


(** ** Where the bytes of a decoded value come from *)

Lemma trimFront_subseteq sp2 sp3 (s : gostring) : trimFront sp2 sp3 s ⊆ s.
Proof.
  destruct (trimFront_suffix sp2 sp3 s) as [p Hp].
  intros c Hc. rewrite Hp. apply elem_of_app. by right.
Qed.

Lemma TrimSpace_subseteq (s : gostring) : TrimSpace s ⊆ s.
Proof.
  unfold TrimSpace. rewrite TrimRightSpace_rev. intros c Hc.
  apply list_elem_of_In, in_rev, list_elem_of_In in Hc.
  apply trimFront_subseteq in Hc.
  apply list_elem_of_In, in_rev, list_elem_of_In in Hc.
  by apply trimFront_subseteq in Hc.
Qed.

Lemma take_subseteq (s : gostring) (n : nat) : take n s ⊆ s.
Proof. apply sublist_subseteq, sublist_take. Qed.

Lemma drop_subseteq (s : gostring) (n : nat) : drop n s ⊆ s.
Proof. apply sublist_subseteq, sublist_drop. Qed.

Lemma slice_subseteq (s : gostring) (lo hi : nat) : slice s lo hi ⊆ s.
Proof.
  unfold slice. intros c Hc. by apply take_subseteq, drop_subseteq in Hc.
Qed.

Lemma span_snd_subseteq (p : ascii -> bool) (s : gostring) :
  (span p s).2 ⊆ s.
Proof.
  intros c Hc. rewrite (span_eq p s). apply elem_of_app. by right.
Qed.

Lemma removeInlineComment_subseteq (line : gostring) :
  removeInlineComment line ⊆ line.
Proof.
  rewrite removeInlineComment_qrun.
  destruct (qrun Unquoted NUL line) as [st|i]; [done|].
  intros c Hc. by apply TrimSpace_subseteq, take_subseteq in Hc.
Qed.

Lemma takeIdent_rest_subseteq (s k r : gostring) :
  takeIdent s = Some (k, r) -> r ⊆ s.
Proof.
  intros [_ ->]%takeIdent_spec c Hc. apply elem_of_app. by right.
Qed.

Lemma afterKey_subseteq (s v : gostring) : afterKey s = Some v -> v ⊆ s.
Proof.
  unfold afterKey.
  destruct (span reSpace s).2 as [|c s'] eqn:Hs; [done|].
  destruct (isSep c); [|done].
  destruct (forallb _ _); [|done]. intros [= <-] x Hx.
  apply span_snd_subseteq in Hx.
  apply (span_snd_subseteq reSpace s). rewrite Hs.
  apply elem_of_cons. by right.
Qed.

Lemma lineRegex_subseteq (line k v : gostring) :
  lineRegex line = Some (k, v) -> v ⊆ line.
Proof.
  unfold lineRegex.
  destruct (takeIdent (span reSpace line).2) as [[key s]|] eqn:Ht; [|done].
  destruct (afterKey s) as [value|] eqn:Ha; [|done]. intros [= _ <-] c Hc.
  apply (afterKey_subseteq _ _ Ha), (takeIdent_rest_subseteq _ _ _ Ht) in Hc.
  by apply span_snd_subseteq in Hc.
Qed.

Lemma exportRegex_subseteq (line k v : gostring) :
  exportRegex line = Some (k, v) -> v ⊆ line.
Proof.
  unfold exportRegex.
  destruct (HasPrefix (span reSpace line).2 (str "export")); [|done].
  destruct (span reSpace (drop 6 (span reSpace line).2)) as [ws s1] eqn:Hs.
  destruct ws as [|w ws]; [done|].
  destruct (takeIdent s1) as [[key s2]|] eqn:Ht; [|done].
  destruct (afterKey s2) as [value|] eqn:Ha; [|done]. intros [= _ <-] c Hc.
  apply (afterKey_subseteq _ _ Ha), (takeIdent_rest_subseteq _ _ _ Ht) in Hc.
  assert (Hs1 : s1 = (span reSpace (drop 6 (span reSpace line).2)).2)
    by by rewrite Hs.
  rewrite Hs1 in Hc.
  by apply span_snd_subseteq, drop_subseteq, span_snd_subseteq in Hc.
Qed.

(** Escape decoding brings in no '$'. *)
Lemma decodeEscapes_noDollar (s : gostring) :
  noDollar s = true -> noDollar (decodeEscapes s) = true.
Proof.
  assert (H : forall n s, List.length s <= n -> noDollar s = true ->
                          noDollar (decodeEscapes s) = true).
  { clear s. induction n as [|n IH]; intros s Hn Hs.
    { destruct s; [done|simpl in Hn; lia]. }
    destruct s as [|c s]; [done|]. cbn [decodeEscapes].
    unfold noDollar in Hs. cbn [forallb] in Hs.
    apply andb_true_iff in Hs as [Hc Hs]. fold (noDollar s) in Hs.
    simpl in Hn.
    destruct (c =c= BSL).
    - destruct s as [|next s]; [done|].
      unfold noDollar in Hs. cbn [forallb] in Hs.
      apply andb_true_iff in Hs as [Hnext Hs]. fold (noDollar s) in Hs.
      unfold noDollar. rewrite forallb_app. fold (noDollar (decodeEscapes s)).
      rewrite IH by (simpl in Hn; lia || done).
      rewrite andb_true_r. unfold escapeOf.
      repeat match goal with
             | |- context [if ?b then _ else _] => destruct b
             end; try reflexivity.
      cbn [forallb]. by rewrite Hnext.
    - unfold noDollar. cbn [forallb]. rewrite Hc.
      fold (noDollar (decodeEscapes s)). by rewrite IH by (lia || done). }
  by apply (H (List.length s)).
Qed.

Lemma noDollar_subseteq (t s : gostring) :
  t ⊆ s -> noDollar s = true -> noDollar t = true.
Proof.
  unfold noDollar. rewrite !forallb_forall. intros Hts Hs c Hc.
  apply Hs, list_elem_of_In, Hts. by apply list_elem_of_In.
Qed.

Lemma parseValue_noDollar (v : gostring) :
  noDollar v = true -> noDollar (parseValue v).1 = true.
Proof.
  intros Hv. unfold parseValue.
  pose proof (noDollar_subseteq _ _ (TrimSpace_subseteq v) Hv) as Ht.
  destruct (isEmpty (TrimSpace v)); [done|].
  destruct (_ && _).
  - pose proof (noDollar_subseteq _ _ (slice_subseteq (TrimSpace v) 1
        (List.length (TrimSpace v) - 1)) Ht) as Hs.
    destruct (at_ (TrimSpace v) 0 =c= DQ); [|done]. cbn [fst].
    rewrite unescapeDoubleQuoted_decode. by apply decodeEscapes_noDollar.
  - cbn [fst]. by apply (noDollar_subseteq _ _ (TrimSpace_subseteq _)).
Qed.

Lemma parseLine_noDollar (line key value : gostring) (err : option error) :
  noDollar line = true -> parseLine line = (key, value, err) ->
  noDollar value = true.
Proof.
  intros Hline. unfold parseLine.
  pose proof (noDollar_subseteq _ _ (removeInlineComment_subseteq line) Hline)
    as Hs.
  destruct (exportRegex (removeInlineComment line)) as [[k m2]|] eqn:He.
  { pose proof (parseValue_noDollar (TrimSpace m2)) as Hv.
    destruct (parseValue (TrimSpace m2)) as [v e]. intros [= _ <- _].
    apply Hv. apply (noDollar_subseteq _ _ (TrimSpace_subseteq _)).
    by apply (noDollar_subseteq _ _ (exportRegex_subseteq _ _ _ He)). }
  destruct (lineRegex (removeInlineComment line)) as [[k m2]|] eqn:Hl.
  { pose proof (parseValue_noDollar (TrimSpace m2)) as Hv.
    destruct (parseValue (TrimSpace m2)) as [v e]. intros [= _ <- _].
    apply Hv. apply (noDollar_subseteq _ _ (TrimSpace_subseteq _)).
    by apply (noDollar_subseteq _ _ (lineRegex_subseteq _ _ _ Hl)). }
  destruct (negb _); by intros [= _ <- _].
Qed.

Lemma dropCR_subseteq (s : gostring) : dropCR s ⊆ s.
Proof.
  unfold dropCR. destruct (_ && _); [apply slice_subseteq|done].
Qed.

Lemma Scanner_run_noDollar (input cur : gostring) :
  noDollar cur = true -> noDollar input = true ->
  Forall (fun l => noDollar l = true) (Scanner_run cur input).1.
Proof.
  revert cur. induction input as [|c input IH]; intros cur Hcur Hin.
  - cbn [Scanner_run]. destruct (isEmpty cur); [constructor|].
    destruct (_ <=? _); [constructor|]. constructor; [|constructor].
    apply (noDollar_subseteq _ _ (dropCR_subseteq _)).
    rewrite reversed_rev. unfold noDollar in *.
    rewrite forallb_forall in *. intros x Hx. by apply Hcur, in_rev.
  - unfold noDollar in Hin. cbn [forallb] in Hin.
    apply andb_true_iff in Hin as [Hc Hin]. fold (noDollar input) in Hin.
    cbn [Scanner_run]. destruct (c =c= LF).
    + destruct (_ <=? _); [constructor|].
      specialize (IH [] eq_refl Hin).
      destruct (Scanner_run [] input) as [ts e]. cbn [fst] in *.
      constructor; [|done].
      apply (noDollar_subseteq _ _ (dropCR_subseteq _)).
      rewrite reversed_rev. unfold noDollar in *.
      rewrite forallb_forall in *. intros x Hx. by apply Hcur, in_rev.
    + apply IH; [|done]. unfold noDollar in *. cbn [forallb].
      by rewrite Hc, Hcur.
Qed.

Lemma Parse_loop_environment (LookupEnv LookupEnv' : gostring -> option gostring)
    (expandVars : bool) (lines : list gostring) (scanErr : option error)
    (n : nat) (result : Env) :
  expandVars = false \/ Forall (fun l => noDollar l = true) lines ->
  Parse_loop LookupEnv expandVars lines scanErr n result
  = Parse_loop LookupEnv' false lines scanErr n result.
Proof.
  intros H. revert n result.
  induction lines as [|l lines IH]; intros n result; [done|].
  cbn [Parse_loop].
  assert (IH' : forall n result,
    Parse_loop LookupEnv expandVars lines scanErr n result
    = Parse_loop LookupEnv' false lines scanErr n result).
  { apply IH. destruct H as [?|H]; [by left|right].
    by apply Forall_cons in H as [_ ?]. }
  destruct (isEmpty (TrimSpace l) || HasPrefix (TrimSpace l) (str "#"));
    [apply IH'|].
  destruct (parseLine (TrimSpace l)) as [[key value] [err|]] eqn:Hp; [done|].
  destruct (negb (isEmpty key)); [|apply IH'].
  assert (Hv : (if expandVars then expandVariables LookupEnv value result
                else value) = value).
  { destruct H as [->|H]; [done|]. destruct expandVars; [|done].
    apply expandVariables_noDollar.
    apply Forall_cons in H as [Hl _].
    apply (parseLine_noDollar _ _ _ _
             (noDollar_subseteq _ _ (TrimSpace_subseteq l) Hl) Hp). }
  rewrite Hv. apply IH'.
Qed.

(** X6.  The process environment is consulted only for a '$': when
    expansion is disabled, or when the text holds no '$', Parse gives the
    same result whatever the environment holds, namely the result of Parse
    with expansion disabled. *)
Theorem Parse_environment_only_for_dollar
    (LookupEnv LookupEnv' : gostring -> option gostring) (expandVars : bool)
    (input : gostring) :
  expandVars = false \/ noDollar input = true ->
  Parser_Parse LookupEnv expandVars input
  = Parser_Parse LookupEnv' false input.
Proof.
  intros H. unfold Parser_Parse.
  pose proof (Scanner_run_noDollar input []) as Hs.
  destruct (Scanner_run [] input) as [lines e]. cbn [fst] in Hs.
  apply Parse_loop_environment.
  destruct H as [?|H]; [by left|right]. by apply Hs.
Qed.

Lemma Parse_environment_only_for_dollar_witness :
  Parser_Parse (fun _ => Some (str "os")) true
    (str "A='b # c'" ++ LF :: str "export B : d")
  = Parser_Parse (fun _ => None) false
      (str "A='b # c'" ++ LF :: str "export B : d").
Proof.
  apply (Parse_environment_only_for_dollar (fun _ => Some (str "os"))
           (fun _ => None) true).
  right. reflexivity.
Defined.

(** ** Plain assignment lines *)

Lemma assignment_facts (k v : gostring) :
  isIdentifier k = true -> cleanValue v = true ->
  noLF (assignment (k, v)) = true
  /\ assignment (k, v) <> []
  /\ dropCR (assignment (k, v)) = assignment (k, v).
Proof.
  intros Hk Hv. unfold assignment. cbn [fst snd].
  assert (Hklf : noLF k = true)
    by by apply isIdentifier_forallb; [apply identChar_noLF|].
  split; [|split].
  - unfold noLF in *. rewrite forallb_app, Hklf. cbn [forallb andb].
    by apply cleanValue_noLF in Hv.
  - by destruct k.
  - apply cleanValue_noCR in Hv.
    destruct v as [|z w] using rev_ind; [by apply (dropCR_keep k "=")|].
    change (k ++ "=" :: w ++ [z]) with (k ++ ("=" :: w) ++ [z]).
    rewrite app_assoc. apply dropCR_keep.
    rewrite forallb_app in Hv. apply andb_true_iff in Hv as [_ Hz].
    simpl in Hz. rewrite andb_true_r in Hz. by apply negb_true_iff in Hz.
Qed.

Lemma Parse_loop_assignments (LookupEnv : gostring -> option gostring)
    (entries : list (gostring * gostring)) (n : nat) (result : Env) :
  Forall (fun e => isIdentifier e.1 = true /\ cleanValue e.2 = true
                   /\ TrimSpace e.2 = e.2) entries ->
  Parse_loop LookupEnv true (map assignment entries) None n result =
  (Some (foldl (fun acc e => <[e.1 := e.2]> acc) result entries), None).
Proof.
  intros H. revert n result.
  induction H as [|[k v] entries (Hk & Hv & Ht) _ IH]; intros n result;
    [done|].
  cbn [map foldl fst snd] in *. unfold assignment at 1. cbn [fst snd].
  rewrite (Parse_loop_assign LookupEnv true k v v); [|done| |].
  - rewrite expandVariables_noDollar by by apply cleanValue_noDollar.
    apply IH.
  - by apply TrimSpace_assign_unquoted.
  - apply parseLine_unquoted; [done| | |done].
    + by apply cleanValue_noLF.
    + by apply cleanValue_noQuoteHash.
Qed.

Lemma foldl_insert_list_to_map (entries : list (gostring * gostring)) :
  foldl (fun (acc : Env) e => <[e.1 := e.2]> acc) ∅ entries
  = list_to_map (reverse entries).
Proof.
  induction entries as [|[k v] entries IH] using rev_ind; [done|].
  rewrite foldl_app, reverse_snoc. cbn [foldl fst snd].
  by rewrite IH, list_to_map_cons.
Qed.

(** X7.  Last write wins: a text of unquoted lines KEY=value, the keys
    identifiers and the values free of the nine special bytes and of white
    space at their ends, each line shorter than the scanner's buffer,
    parses to the mapping that gives every key the value of its last
    line. *)
Theorem Parse_last_write_wins (LookupEnv : gostring -> option gostring)
    (entries : list (gostring * gostring)) :
  Forall (fun e => isIdentifier e.1 = true /\ cleanValue e.2 = true
                   /\ TrimSpace e.2 = e.2
                   /\ List.length (assignment e) < MaxScanTokenSize) entries ->
  Parse LookupEnv (Join (map assignment entries) [LF])
  = (Some (list_to_map (reverse entries)), None).
Proof.
  intros H. unfold Parse, Parser_Parse.
  rewrite Scanner_run_Join.
  2:{ apply Forall_map. eapply Forall_impl; [exact H|].
      intros [k v] (Hk & Hv & _ & Hl). cbn [fst snd] in *.
      by destruct (assignment_facts k v Hk Hv) as (? & ? & ?). }
  rewrite map_map.
  rewrite (map_ext_in _ assignment).
  2:{ intros [k v] Hin%list_elem_of_In. rewrite Forall_forall in H.
      destruct (H _ Hin) as (Hk & Hv & _). cbn [fst snd] in *.
      by destruct (assignment_facts k v Hk Hv) as (? & ? & ?). }
  rewrite Parse_loop_assignments.
  - by rewrite foldl_insert_list_to_map.
  - eapply Forall_impl; [exact H|]. intros e. cbn beta. tauto.
Qed.

Lemma Parse_last_write_wins_witness :
  Parse (fun _ => None)
    (Join (map assignment [(str "A", str "1"); (str "B", str "2");
                           (str "A", str "3")]) [LF])
  = (Some (<[str "A" := str "3"]> {[ str "B" := str "2" ]}), None).
Proof.
  rewrite (Parse_last_write_wins (fun _ => None)
             [(str "A", str "1"); (str "B", str "2"); (str "A", str "3")]).
  - reflexivity.
  - repeat (apply List.Forall_cons;
            [split; [reflexivity | split; [reflexivity | split;
               [reflexivity | short_line]]] | ]).
    apply List.Forall_nil.
Defined.

(** ** Lines that Parse passes over *)

Lemma Scanner_run_split (p rest cur : gostring) :
  Scanner_run cur (p ++ LF :: rest) =
  match (Scanner_run cur (p ++ [LF])).2 with
  | Some e => ((Scanner_run cur (p ++ [LF])).1, Some e)
  | None =>
    ((Scanner_run cur (p ++ [LF])).1 ++ (Scanner_run [] rest).1,
     (Scanner_run [] rest).2)
  end.
Proof.
  revert cur. induction p as [|c p IH]; intros cur.
  - cbn [app Scanner_run]. rewrite ceq_refl.
    destruct (MaxScanTokenSize <=? List.length cur); [done|].
    cbn [isEmpty fst snd]. by destruct (Scanner_run [] rest).
  - cbn [app Scanner_run]. destruct (c =c= LF); [|apply IH].
    destruct (MaxScanTokenSize <=? List.length cur); [done|].
    rewrite IH. destruct (Scanner_run [] (p ++ [LF])) as [ts [e|]];
      cbn [fst snd]; [done|].
    by destruct (Scanner_run [] rest).
Qed.

Section passing.
Variable LookupEnv : gostring -> option gostring.
Variable expandVars : bool.

Lemma Parse_loop_counter (lines : list gostring) (scanErr : option error)
    (n n' : nat) (result : Env) :
  (Parse_loop LookupEnv expandVars lines scanErr n result).1
  = (Parse_loop LookupEnv expandVars lines scanErr n' result).1.
Proof.
  revert n n' result. induction lines as [|l lines IH]; intros n n' result.
  - reflexivity.
  - cbn [Parse_loop].
    destruct (isEmpty (TrimSpace l) || HasPrefix (TrimSpace l) (str "#"));
      [apply IH|].
    destruct (parseLine (TrimSpace l)) as [[key value] [err|]]; [done|].
    destruct (negb (isEmpty key)); apply IH.
Qed.

Lemma Parse_loop_error (lines : list gostring) (e : error) (n : nat)
    (result : Env) :
  (Parse_loop LookupEnv expandVars lines (Some e) n result).1 = None.
Proof.
  revert n result. induction lines as [|l lines IH]; intros n result.
  - reflexivity.
  - cbn [Parse_loop].
    destruct (isEmpty (TrimSpace l) || HasPrefix (TrimSpace l) (str "#"));
      [apply IH|].
    destruct (parseLine (TrimSpace l)) as [[key value] [err|]]; [done|].
    destruct (negb (isEmpty key)); apply IH.
Qed.

Lemma Parse_loop_without_skipped (before : list gostring) (l : gostring)
    (after : list gostring) (scanErr : option error) (n : nat)
    (result : Env) :
  skipped l = true ->
  (Parse_loop LookupEnv expandVars (before ++ l :: after) scanErr n result).1
  = (Parse_loop LookupEnv expandVars (before ++ after) scanErr n result).1.
Proof.
  intros Hl. revert n result.
  induction before as [|b before IH]; intros n result.
  - cbn [app]. rewrite Parse_loop_skipped by done. apply Parse_loop_counter.
  - cbn [app Parse_loop].
    destruct (isEmpty (TrimSpace b) || HasPrefix (TrimSpace b) (str "#"));
      [apply IH|].
    destruct (parseLine (TrimSpace b)) as [[key value] [err|]]; [done|].
    destruct (negb (isEmpty key)); apply IH.
Qed.

End passing.

(** X8.  Blank lines and comment lines do not change the mapping: putting
    a line that is blank after trimming, or whose first byte after
    trimming is '#', at the start of the text or after any newline of it
    leaves the mapping that Parse returns as it was (the line numbers of
    errors move).  The line is to fit the scanner's buffer. *)
Theorem Parse_ignores_comment_lines (LookupEnv : gostring -> option gostring)
    (expandVars : bool) (pre l post : gostring) :
  (pre = [] \/ exists p, pre = p ++ [LF]) ->
  noLF l = true -> List.length l < MaxScanTokenSize ->
  skipped (dropCR l) = true ->
  (Parser_Parse LookupEnv expandVars (pre ++ l ++ LF :: post)).1
  = (Parser_Parse LookupEnv expandVars (pre ++ post)).1.
Proof.
  intros Hpre Hlf Hlen Hskip. unfold Parser_Parse.
  assert (Hline : Scanner_run [] (l ++ LF :: post)
                  = (dropCR l :: (Scanner_run [] post).1,
                     (Scanner_run [] post).2))
    by by rewrite Scanner_run_line.
  destruct Hpre as [->|[p ->]].
  - cbn [app]. rewrite Hline.
    destruct (Scanner_run [] post) as [ts e]. cbn [fst snd].
    apply (Parse_loop_without_skipped LookupEnv expandVars [] (dropCR l) ts);
      done.
  - rewrite <- !app_assoc. cbn [app].
    rewrite (Scanner_run_split p (l ++ LF :: post)),
      (Scanner_run_split p post).
    destruct (Scanner_run [] (p ++ [LF])) as [t1 [e|]]; cbn [fst snd];
      [done|].
    rewrite Hline. destruct (Scanner_run [] post) as [ts e]. cbn [fst snd].
    by apply Parse_loop_without_skipped.
Qed.

Lemma Parse_ignores_comment_lines_witness :
  (Parser_Parse (fun _ => None) true
     (str "A=1" ++ [LF] ++ str "  # a comment" ++ LF :: str "B=$A")).1
  = (Parser_Parse (fun _ => None) true (str "A=1" ++ [LF] ++ str "B=$A")).1.
Proof.
  apply (Parse_ignores_comment_lines (fun _ => None) true
           (str "A=1" ++ [LF]) (str "  # a comment") (str "B=$A")).
  - right. by exists (str "A=1").
  - reflexivity.
  - short_line.
  - reflexivity.
Defined.

(** ** The three forms of an assignment line *)

(** Trimming at the end stops at an ASCII byte that is not white space. *)
Lemma trimFront_rev_boundary (n : nat) (t y : gostring) (c : ascii) :
  List.length t <= n -> plain c = true ->
  trimFront (fun b a => isSpace2 a b) (fun c b a => isSpace3 a b c)
    (t ++ c :: y)
  = trimFront (fun b a => isSpace2 a b) (fun c b a => isSpace3 a b c) t
    ++ c :: y.
Proof.
  intros Hn Hc. apply plain_spec in Hc as Hc'. destruct Hc' as [Hsp Hlt].
  assert (H2 : forall a, isSpace2 c a = false).
  { intros a. destruct (isSpace2 c a) eqn:E; [|done].
    apply isSpace2_high in E. lia. }
  assert (H3 : forall a b, isSpace3 a c b = false).
  { intros a b. destruct (isSpace3 a c b) eqn:E; [|done].
    apply isSpace3_high in E. lia. }
  assert (H3' : forall a b, isSpace3 c a b = false).
  { intros a b. destruct (isSpace3 c a b) eqn:E; [|done].
    apply isSpace3_high in E. lia. }
  assert (Hbase : trimFront (fun b a => isSpace2 a b)
                    (fun c b a => isSpace3 a b c) (c :: y) = c :: y).
  { apply trimFront_fixed, frontClean_plain; [done|..]; cbn beta.
    - intros b. destruct (isSpace2 b c) eqn:E; [|done].
      apply isSpace2_high in E. lia.
    - intros b d. destruct (isSpace3 d b c) eqn:E; [|done].
      apply isSpace3_high in E. lia. }
  revert t Hn. induction n as [|n IH]; intros t Hn.
  { destruct t; [|simpl in Hn; lia]. exact Hbase. }
  destruct t as [|a t1]; [exact Hbase|]. simpl in Hn.
  cbn [app]. rewrite !trimFront_cons.
  destruct (asciiSpace a); [apply IH; lia|].
  destruct t1 as [|b t2]; cbn [app].
  { rewrite H2. destruct y as [|d y]; [done|]. by rewrite H3. }
  simpl in Hn.
  destruct (isSpace2 b a); [apply IH; lia|].
  destruct t2 as [|d t3]; cbn [app].
  { by rewrite H3'. }
  simpl in Hn.
  destruct (isSpace3 d b a); [apply IH; lia|done].
Qed.

Lemma TrimRightSpace_boundary (x t : gostring) (c : ascii) :
  plain c = true ->
  TrimRightSpace (x ++ c :: t) = x ++ c :: TrimRightSpace t.
Proof.
  intros Hc. rewrite !TrimRightSpace_rev.
  assert (Hrev : rev (x ++ c :: t) = rev t ++ c :: rev x).
  { rewrite rev_app_distr. simpl. by rewrite <- app_assoc. }
  rewrite Hrev.
  rewrite (trimFront_rev_boundary (List.length (rev t))) by done.
  rewrite rev_app_distr. simpl. rewrite rev_involutive.
  by rewrite <- app_assoc.
Qed.

Lemma qrun_Unquoted_prev (prev prev' : ascii) (s : gostring) :
  qrun Unquoted prev s = qrun Unquoted prev' s.
Proof. by destruct s. Qed.

(** Comment stripping leaves the head of an assignment line alone. *)
Lemma removeInlineComment_head (a c : ascii) (h rest : gostring) :
  plain a = true -> plain c = true -> noQuoteHash (a :: h ++ [c]) = true ->
  removeInlineComment ((a :: h ++ [c]) ++ rest)
  = (a :: h ++ [c]) ++ strippedRest rest.
Proof.
  intros Ha Hc Hh. rewrite removeInlineComment_qrun, qrun_app.
  rewrite qrun_noQuoteHash by done. unfold strippedRest.
  rewrite (qrun_Unquoted_prev _ NUL).
  destruct (qrun Unquoted NUL rest) as [st|j]; [done|].
  rewrite take_app_add'; [|done].
  cbn [app]. unfold TrimSpace.
  rewrite TrimLeftSpace_plain by done.
  rewrite <- !app_assoc. cbn [app].
  apply (TrimRightSpace_boundary (a :: h) (take j rest) c Hc).
Qed.

Lemma strippedRest_subseteq (rest : gostring) : strippedRest rest ⊆ rest.
Proof.
  unfold strippedRest. destruct (qrun Unquoted NUL rest) as [st|j]; [done|].
  intros x Hx. apply take_subseteq with j.
  assert (H : TrimRightSpace (take j rest) ⊆ take j rest).
  { rewrite TrimRightSpace_rev. intros z Hz.
    apply list_elem_of_In, in_rev, list_elem_of_In in Hz.
    apply trimFront_subseteq in Hz.
    by apply list_elem_of_In, in_rev, list_elem_of_In in Hz. }
  by apply H.
Qed.

Lemma noLF_subseteq (t s : gostring) :
  t ⊆ s -> noLF s = true -> noLF t = true.
Proof.
  unfold noLF. rewrite !forallb_forall. intros Hts Hs c Hc.
  apply Hs, list_elem_of_In, Hts. by apply list_elem_of_In.
Qed.

Lemma afterKey_sep (sep : ascii) (v : gostring) :
  isSep sep = true -> noLF v = true ->
  afterKey (sep :: v) = Some (span reSpace v).2.
Proof.
  intros Hsep Hv. unfold afterKey.
  assert (Hs : reSpace sep = false).
  { unfold isSep in Hsep.
    by apply orb_true_iff in Hsep as [->%ceq_true| ->%ceq_true]. }
  rewrite span_stop by done. cbn [snd]. rewrite Hsep.
  fold (noLF (span reSpace v).2). unfold noLF in *.
  by rewrite span_snd_forallb.
Qed.

Lemma isSep_not_identChar (sep : ascii) :
  isSep sep = true -> identChar sep = false.
Proof.
  unfold isSep. by intros [->%ceq_true| ->%ceq_true]%orb_true_iff.
Qed.

Lemma isSep_plain (sep : ascii) : isSep sep = true -> plain sep = true.
Proof.
  unfold isSep. by intros [->%ceq_true| ->%ceq_true]%orb_true_iff.
Qed.

Lemma span_key_start (k rest : gostring) :
  isIdentifier k = true -> span reSpace (k ++ rest) = ([], k ++ rest).
Proof.
  intros (a & k' & -> & Ha)%isIdentifier_head. apply span_stop.
  by apply plain_not_reSpace, identStart_plain.
Qed.

Lemma lineRegex_sep (k v : gostring) (sep : ascii) :
  isIdentifier k = true -> isSep sep = true -> noLF v = true ->
  lineRegex (k ++ sep :: v) = Some (k, (span reSpace v).2).
Proof.
  intros Hk Hsep Hv. unfold lineRegex.
  rewrite span_key_start by done. cbn [snd].
  rewrite takeIdent_app; [|done|by apply isSep_not_identChar].
  by rewrite afterKey_sep.
Qed.

Lemma exportRegex_sep (k v : gostring) (sep : ascii) :
  isIdentifier k = true -> isSep sep = true ->
  exportRegex (k ++ sep :: v) = None.
Proof.
  intros Hk Hsep. unfold exportRegex.
  rewrite span_key_start by done. cbn [snd].
  destruct (HasPrefix (k ++ sep :: v) (str "export")) eqn:Hp; [|done].
  assert (Hsep' : reSpace sep = false)
    by by apply plain_not_reSpace, isSep_plain.
  assert (Hne : forall x, In x (list_ascii_of_string "export") ->
                          (sep =c= x) = false).
  { unfold isSep in Hsep. intros x Hx.
    apply orb_true_iff in Hsep as [->%ceq_true| ->%ceq_true];
      simpl in Hx; intuition (subst; reflexivity). }
  assert (Hws : (span reSpace (drop 6 (k ++ sep :: v))).1 = []).
  { destruct k as [|c1 [|c2 [|c3 [|c4 [|c5 [|c6 k]]]]]];
      cbn in Hp; rewrite ?Hne in Hp by (simpl; tauto);
      rewrite ?andb_false_r in Hp; try discriminate Hp.
    destruct k as [|c7 k]; simpl drop.
    - by rewrite span_stop.
    - rewrite span_stop; [done|].
      apply plain_not_reSpace, identChar_plain.
      simpl in Hk. rewrite !andb_true_iff in Hk. tauto. }
  destruct (span reSpace (drop 6 (k ++ sep :: v))) as [ws s1].
  simpl in Hws. by subst ws.
Qed.

Lemma exportRegex_export (ws k v : gostring) (sep : ascii) :
  ws <> [] -> forallb reSpace ws = true ->
  isIdentifier k = true -> isSep sep = true -> noLF v = true ->
  exportRegex (str "export" ++ ws ++ k ++ sep :: v)
  = Some (k, (span reSpace v).2).
Proof.
  intros Hne Hws Hk Hsep Hv. unfold exportRegex.
  assert (Hs : span reSpace (str "export" ++ ws ++ k ++ sep :: v)
               = ([], str "export" ++ ws ++ k ++ sep :: v)) by reflexivity.
  rewrite Hs. cbn [snd].
  replace (HasPrefix (str "export" ++ ws ++ k ++ sep :: v) (str "export"))
    with true by reflexivity.
  change (drop 6 (str "export" ++ ws ++ k ++ sep :: v))
    with (ws ++ k ++ sep :: v).
  rewrite (span_all reSpace ws (k ++ sep :: v)); [|done|].
  2:{ destruct (isIdentifier_head k Hk) as (a & k' & -> & Ha). cbn [app].
      by apply plain_not_reSpace, identStart_plain. }
  destruct ws as [|w ws]; [done|].
  rewrite takeIdent_app; [|done|by apply isSep_not_identChar].
  by rewrite afterKey_sep.
Qed.

Lemma parseLine_decoded (line k m2 : gostring) :
  match exportRegex (removeInlineComment line) with
  | Some r => r = (k, m2)
  | None => lineRegex (removeInlineComment line) = Some (k, m2)
  end ->
  parseLine line = (k, (parseValue (TrimSpace m2)).1, None).
Proof.
  intros H. unfold parseLine.
  pose proof (parseValue_no_error (TrimSpace m2)) as He.
  destruct (exportRegex (removeInlineComment line)) as [[k' m2']|].
  - injection H as -> ->.
    destruct (parseValue (TrimSpace m2)) as [v e]. cbn [fst snd] in *.
    by subst e.
  - rewrite H.
    destruct (parseValue (TrimSpace m2)) as [v e]. cbn [fst snd] in *.
    by subst e.
Qed.

Lemma noQuoteHash_identifier (k : gostring) :
  isIdentifier k = true -> noQuoteHash k = true.
Proof. intros Hk. by apply isIdentifier_forallb; [apply identChar_noQuoteHash|]. Qed.

Lemma reSpace_noQuoteHash (ws : gostring) :
  forallb reSpace ws = true -> noQuoteHash ws = true.
Proof.
  apply forallb_weaken. intros c.
  byte_cases c; intros H; first [discriminate H | reflexivity].
Qed.

Lemma parseLine_plain_form (k rest : gostring) (sep : ascii) :
  isIdentifier k = true -> isSep sep = true -> noLF rest = true ->
  parseLine (k ++ sep :: rest) = (k, decodedRest rest, None).
Proof.
  intros Hk Hsep Hlf.
  destruct (isIdentifier_head k Hk) as (a & k' & Hkeq & Ha).
  assert (Hrm : removeInlineComment (k ++ sep :: rest)
                = k ++ sep :: strippedRest rest).
  { subst k.
    replace ((a :: k') ++ sep :: rest) with ((a :: k' ++ [sep]) ++ rest)
      by (cbn [app]; by rewrite <- app_assoc).
    rewrite removeInlineComment_head;
      [cbn [app]; by rewrite <- app_assoc
      |by apply identStart_plain|by apply isSep_plain|].
    change (a :: k' ++ [sep]) with ((a :: k') ++ [sep]).
    pose proof (noQuoteHash_identifier (a :: k') Hk) as H2.
    unfold noQuoteHash in *. rewrite forallb_app, H2.
    cbn. unfold isSep in Hsep.
    by apply orb_true_iff in Hsep as [->%ceq_true| ->%ceq_true]. }
  apply parseLine_decoded. rewrite Hrm.
  rewrite exportRegex_sep by done.
  apply lineRegex_sep; [done|done|].
  by apply (noLF_subseteq _ _ (strippedRest_subseteq rest)).
Qed.

Lemma parseLine_export_form (ws k rest : gostring) (sep : ascii) :
  ws <> [] -> forallb reSpace ws = true ->
  isIdentifier k = true -> isSep sep = true -> noLF rest = true ->
  parseLine (str "export" ++ ws ++ k ++ sep :: rest)
  = (k, decodedRest rest, None).
Proof.
  intros Hne Hws Hk Hsep Hlf.
  assert (Hrm : removeInlineComment (str "export" ++ ws ++ k ++ sep :: rest)
                = str "export" ++ ws ++ k ++ sep :: strippedRest rest).
  { replace (str "export" ++ ws ++ k ++ sep :: rest)
      with (("e" :: (str "xport" ++ ws ++ k) ++ [sep]) ++ rest)
      by (cbn [app str list_ascii_of_string]; by rewrite <- !app_assoc).
    rewrite removeInlineComment_head; [|reflexivity|by apply isSep_plain|].
    - cbn [app str list_ascii_of_string]. by rewrite <- !app_assoc.
    - change ("e" :: (str "xport" ++ ws ++ k) ++ [sep])
        with (str "export" ++ (ws ++ k) ++ [sep]).
      pose proof (reSpace_noQuoteHash ws Hws) as H1.
      pose proof (noQuoteHash_identifier k Hk) as H2.
      unfold noQuoteHash in *. rewrite !forallb_app, H1, H2.
      cbn. unfold isSep in Hsep.
      by apply orb_true_iff in Hsep as [->%ceq_true| ->%ceq_true]. }
  apply parseLine_decoded. rewrite Hrm.
  rewrite exportRegex_export; [done|done|done|done|done|].
  by apply (noLF_subseteq _ _ (strippedRest_subseteq rest)).
Qed.

(** X9.  The three forms of an assignment are decoded alike: for an
    identifier KEY and any text after the separator (without a newline),
    "KEY=text", "KEY:text" and, with "export" and white space before it,
    "export KEY=text" and "export KEY:text" all give the key KEY, the same
    value and no error. *)
Theorem assignment_forms_agree (ws k rest : gostring) :
  isIdentifier k = true -> noLF rest = true ->
  ws <> [] -> forallb reSpace ws = true ->
  parseLine (k ++ "=" :: rest) = (k, decodedRest rest, None)
  /\ parseLine (k ++ ":" :: rest) = (k, decodedRest rest, None)
  /\ parseLine (str "export" ++ ws ++ k ++ "=" :: rest)
     = (k, decodedRest rest, None)
  /\ parseLine (str "export" ++ ws ++ k ++ ":" :: rest)
     = (k, decodedRest rest, None).
Proof.
  intros Hk Hlf Hne Hws. repeat split.
  - by apply parseLine_plain_form.
  - by apply parseLine_plain_form.
  - by apply parseLine_export_form.
  - by apply parseLine_export_form.
Qed.

Lemma assignment_forms_agree_witness :
  parseLine (str "export" ++ str "  " ++ str "KEY4" ++ ":" :: str " 'a # b' # c")
  = (str "KEY4", str "a # b", None).
Proof.
  apply (proj1 (proj2 (proj2 (assignment_forms_agree (str "  ") (str "KEY4")
                                (str " 'a # b' # c")
                                eq_refl eq_refl ltac:(discriminate) eq_refl)))).
Defined.

(** ** Decoding any encoded mapping *)

Section decode_any.
Variable LookupEnv : gostring -> option gostring.

Lemma Parse_loop_step (expandVars : bool) (line k r value : gostring)
    (lines : list gostring) (scanErr : option error) (n : nat) (result : Env) :
  isIdentifier k = true ->
  TrimSpace line = k ++ "=" :: r ->
  parseLine (k ++ "=" :: r) = (k, value, None) ->
  Parse_loop LookupEnv expandVars (line :: lines) scanErr n result =
  Parse_loop LookupEnv expandVars lines scanErr (S n)
    (<[k := if expandVars then expandVariables LookupEnv value result
            else value]> result).
Proof.
  intros Hk Htrim Hparse. cbn [Parse_loop]. rewrite Htrim, Hparse.
  destruct (isIdentifier_head k Hk) as (a & k' & -> & Ha).
  cbn [app isEmpty orb negb].
  assert (Hh : HasPrefix (a :: k' ++ "=" :: r) (str "#") = false).
  { cbn. destruct (a =c= "#") eqn:E; [|done].
    apply ceq_true in E. subst a. done. }
  by rewrite Hh.
Qed.

Lemma TrimSpace_assignment (k v : gostring) :
  isIdentifier k = true ->
  TrimSpace (k ++ "=" :: v) = k ++ "=" :: TrimRightSpace v.
Proof.
  intros (a & k' & -> & Ha)%isIdentifier_head. unfold TrimSpace.
  cbn [app]. rewrite TrimLeftSpace_plain by by apply identStart_plain.
  by apply (TrimRightSpace_boundary (a :: k') v "=").
Qed.

Lemma TrimRightSpace_subseteq (s : gostring) : TrimRightSpace s ⊆ s.
Proof.
  rewrite TrimRightSpace_rev. intros z Hz.
  apply list_elem_of_In, in_rev, list_elem_of_In in Hz.
  apply trimFront_subseteq in Hz.
  by apply list_elem_of_In, in_rev, list_elem_of_In in Hz.
Qed.

(** The line of an entry always stores something under the key of the
    entry, and stores the value itself when the value holds no '$' and, if
    unquoted, no white space at its ends. *)
Lemma Parse_loop_formatted_some (k v : gostring) (lines : list gostring)
    (scanErr : option error) (n : nat) (result : Env) :
  isIdentifier k = true ->
  exists val,
    Parse_loop LookupEnv true (formatEnvLine k v :: lines) scanErr n result =
    Parse_loop LookupEnv true lines scanErr (S n) (<[k := val]> result)
    /\ (noDollar v = true -> (needsQuoting v = false -> TrimSpace v = v) ->
        val = v).
Proof.
  intros Hk. destruct (needsQuoting v) eqn:Hq.
  - rewrite needsQuoting_true_line by done.
    exists (expandVariables LookupEnv v result). split.
    + apply (Parse_loop_step true _ k (DQ :: flat_map escapeByte v ++ [DQ]) v);
        [done| |by apply parseLine_escaped].
      by apply TrimSpace_assign_quoted.
    + intros Hd _. by apply expandVariables_noDollar.
  - rewrite needsQuoting_false_line by done.
    apply needsQuoting_false in Hq as Hq'. destruct Hq' as [_ Hc].
    exists (expandVariables LookupEnv (decodedRest (TrimRightSpace v)) result).
    split.
    + apply (Parse_loop_step true _ k (TrimRightSpace v)); [done| |].
      * by apply TrimSpace_assignment.
      * apply parseLine_plain_form; [done|reflexivity|].
        apply (noLF_subseteq _ _ (TrimRightSpace_subseteq v)).
        by apply cleanValue_noLF.
    + intros Hd Ht. specialize (Ht eq_refl).
      apply TrimSpace_fixed in Ht as Ht'. destruct Ht' as [HL HR].
      rewrite HR.
      assert (Hdec : decodedRest v = v).
      { pose proof (parseLine_plain_form k v "=" Hk eq_refl
                      (cleanValue_noLF v Hc)) as H1.
        pose proof (parseLine_unquoted k v Hk (cleanValue_noLF v Hc)
                      (cleanValue_noQuoteHash v Hc) Ht) as H2.
        rewrite H1 in H2. by injection H2. }
      rewrite Hdec. by apply expandVariables_noDollar.
Qed.

Lemma Parse_loop_formatted_keys (env : Env) (keys : list gostring) (n : nat)
    (result : Env) :
  Forall (fun k => isIdentifier k = true) keys -> NoDup keys ->
  exists m',
    Parse_loop LookupEnv true
      (map (fun k => formatEnvLine k (index_map env k)) keys) None n result
    = (Some m', None)
    /\ (forall k, k ∉ keys -> m' !! k = result !! k)
    /\ (forall k, k ∈ keys -> is_Some (m' !! k))
    /\ (forall k, k ∈ keys ->
          noDollar (index_map env k) = true ->
          (needsQuoting (index_map env k) = false ->
           TrimSpace (index_map env k) = index_map env k) ->
          m' !! k = Some (index_map env k)).
Proof.
  intros Hid Hnd. revert n result.
  induction Hid as [|k keys Hk _ IH]; intros n result.
  { exists result. split; [done|]. split; [done|].
    split; intros k Hk; by apply not_elem_of_nil in Hk. }
  apply NoDup_cons in Hnd as [Hnin Hnd]. cbn [map].
  destruct (Parse_loop_formatted_some k (index_map env k)
              (map (fun k => formatEnvLine k (index_map env k)) keys)
              None n result Hk) as (val & -> & Hval).
  destruct (IH Hnd (S n) (<[k := val]> result))
    as (m' & -> & Hout & Hin & Hgood).
  exists m'. split; [done|]. split; [|split].
  - intros k' Hk'. apply not_elem_of_cons in Hk' as [Hne Hk'].
    rewrite Hout by done. by rewrite lookup_insert_ne.
  - intros k' [->|Hk']%elem_of_cons; [|by apply Hin].
    rewrite Hout by done. rewrite lookup_insert_eq. by eexists.
  - intros k' [->|Hk']%elem_of_cons Hd Ht; [|by apply Hgood].
    rewrite Hout by done. rewrite lookup_insert_eq. f_equal. by apply Hval.
Qed.

End decode_any.

(** X10.  What Marshal writes always decodes, entry by entry: for a mapping
    whose keys are identifiers and whose encoded lines fit the scanner's
    buffer, whatever the values, Unmarshal succeeds on the encoded text and
    returns a mapping with exactly the same keys; and each value that holds
    no '$' and, when it is written unquoted, no white space at its ends,
    comes back unchanged, whatever the other values are. *)
Theorem Unmarshal_Marshal_keys (LookupEnv : gostring -> option gostring)
    (m : Env) :
  (forall k v, m !! k = Some v ->
     isIdentifier k = true
     /\ List.length (formatEnvLine k v) < MaxScanTokenSize) ->
  exists m',
    Unmarshal LookupEnv (Marshal m).1 = (Some m', None)
    /\ (forall k, is_Some (m' !! k) <-> is_Some (m !! k))
    /\ (forall k v, m !! k = Some v -> noDollar v = true ->
          (needsQuoting v = false -> TrimSpace v = v) ->
          m' !! k = Some v).
Proof.
  intros Hm. unfold Unmarshal, Parse, Parser_Parse, Marshal.
  destruct (size m =? 0) eqn:Hs.
  { apply Nat.eqb_eq, map_size_empty_inv in Hs. subst m.
    exists ∅. split; [reflexivity|]. split; [done|].
    intros k v Hv. by rewrite lookup_empty in Hv. }
  cbn [fst].
  set (keys := sort_Strings (map_to_list m).*1).
  assert (Hkeys : forall k, k ∈ keys <-> is_Some (m !! k)).
  { intros k. unfold keys. by rewrite sort_Strings_elem, keys_elem. }
  assert (Hnd : NoDup keys).
  { unfold keys, sort_Strings. rewrite merge_sort_Permutation.
    apply NoDup_fst_map_to_list. }
  assert (Hall : Forall (fun k => exists v, m !! k = Some v) keys).
  { apply Forall_forall. intros k Hk. by apply Hkeys. }
  rewrite Scanner_run_Join.
  2:{ apply Forall_map. eapply Forall_impl; [exact Hall|].
      intros k [v Hv]. cbn beta. unfold index_map. rewrite Hv.
      destruct (Hm k v Hv) as (Hk & Hl).
      destruct (formatEnvLine_facts k v Hk) as (? & ? & ?). done. }
  rewrite map_map.
  rewrite (map_ext_in _ (fun k => formatEnvLine k (index_map m k))).
  2:{ intros k Hk%list_elem_of_In. rewrite Forall_forall in Hall.
      destruct (Hall k Hk) as [v Hv]. unfold index_map. rewrite Hv.
      destruct (Hm k v Hv) as (Hk' & _).
      by destruct (formatEnvLine_facts k v Hk') as (? & ? & ?). }
  destruct (Parse_loop_formatted_keys LookupEnv m keys 0 ∅)
    as (m' & -> & Hout & Hin & Hgood); [|done|].
  { eapply Forall_impl; [exact Hall|]. intros k [v Hv]. cbn beta.
    by destruct (Hm k v Hv). }
  exists m'. split; [done|]. split.
  - intros k. destruct (decide (k ∈ keys)) as [Hk|Hk].
    + split; [intros _; by apply Hkeys|intros _; by apply Hin].
    + rewrite (Hout k Hk), lookup_empty. split; [by intros [? ?]|].
      intros H. by apply Hkeys in H.
  - intros k v Hv Hd Ht.
    assert (Hk : k ∈ keys) by (apply Hkeys; by eexists).
    specialize (Hgood k Hk). unfold index_map in Hgood.
    rewrite Hv in Hgood. by apply Hgood.
Qed.

Lemma Unmarshal_Marshal_keys_witness :
  exists m',
    Unmarshal (fun _ => None)
      (Marshal (<[str "A" := [FF]]> (<[str "B" := str "$HOME"]>
                  {[ str "C" := str "a b" ]}))).1 = (Some m', None)
    /\ m' !! str "C" = Some (str "a b").
Proof.
  destruct (Unmarshal_Marshal_keys (fun _ => None)
              (<[str "A" := [FF]]> (<[str "B" := str "$HOME"]>
                 {[ str "C" := str "a b" ]})))
    as (m' & Hm' & _ & Hgood).
  - intros k v [[<- <-]|[_ [[<- <-]|[_ [<- <-]%lookup_singleton_Some]]
        %lookup_insert_Some]]%lookup_insert_Some;
      (split; [reflexivity | short_line]).
  - exists m'. split; [exact Hm'|].
    apply Hgood; [reflexivity | reflexivity | discriminate].
Defined.

(** * Read, Load and Overload *)

(** ** Merging the files *)

Lemma foldl_insert_union (entries : list (gostring * gostring)) (result : Env) :
  foldl (fun (acc : Env) kv => <[kv.1 := kv.2]> acc) result entries
  = list_to_map (reverse entries) ∪ result.
Proof.
  induction entries as [|[k v] entries IH] using rev_ind.
  { cbn. by rewrite (left_id ∅ (∪)). }
  rewrite foldl_app, reverse_snoc. cbn [foldl fst snd].
  by rewrite IH, list_to_map_cons, insert_union_l.
Qed.

Lemma mergeInto_union (env result : Env) :
  mergeInto (Some env) result = env ∪ result.
Proof.
  unfold mergeInto. rewrite foldl_insert_union. f_equal.
  rewrite <- (list_to_map_to_list env) at 2.
  symmetry. apply list_to_map_proper.
  - apply NoDup_fst_map_to_list.
  - symmetry. apply reverse_Permutation.
Qed.

Section files.
Variable files : gostring -> option gostring.
Variable LookupEnv : gostring -> option gostring.

Lemma readFile_parsed (filename content : gostring) (m : Env) :
  files filename = Some content ->
  Parse LookupEnv content = (Some m, None) ->
  readFile files LookupEnv filename = (Some m, None).
Proof. intros Hf Hp. unfold readFile. by rewrite Hf, Hp. Qed.

Lemma Read_loop_union (filenames : list gostring) (ms : list Env)
    (result : Env) :
  Forall2 (fun f m => readFile files LookupEnv f = (Some m, None))
    filenames ms ->
  Read_loop files LookupEnv filenames result
  = (Some (foldl (fun acc m => m ∪ acc) result ms), None).
Proof.
  intros H. revert result.
  induction H as [|f m filenames ms Hf _ IH]; intros result; [done|].
  cbn [Read_loop foldl]. rewrite Hf, mergeInto_union. apply IH.
Qed.

Lemma Read_loop_fails (before : list gostring) (f : gostring)
    (after : list gostring) (x : option Env) (err : fileError) (result : Env) :
  Forall (fun g => exists m, readFile files LookupEnv g = (Some m, None))
    before ->
  readFile files LookupEnv f = (x, Some err) ->
  Read_loop files LookupEnv (before ++ f :: after) result = (None, Some err).
Proof.
  intros H Hf. revert result.
  induction H as [|g before [m Hg] _ IH]; intros result.
  - cbn [app Read_loop]. by rewrite Hf.
  - cbn [app Read_loop]. rewrite Hg. apply IH.
Qed.

Lemma readFile_keys (filename : gostring) (m : Env) (k : gostring) :
  readFile files LookupEnv filename = (Some m, None) ->
  is_Some (m !! k) -> isIdentifier k = true.
Proof.
  unfold readFile. destruct (files filename) as [content|]; [|done].
  destruct (Parse LookupEnv content) as [env [err|]] eqn:Hp; [done|].
  intros [= ->]. by apply (Parser_Parse_keys _ _ _ _ _ Hp).
Qed.

Lemma readFile_shape (filename : gostring) (env : option Env) :
  readFile files LookupEnv filename = (env, None) -> exists m, env = Some m.
Proof.
  unfold readFile. destruct (files filename) as [content|]; [|done].
  pose proof (Parse_loop_all_wellformed) as _.
  unfold Parse, Parser_Parse.
  destruct (Scanner_run [] content) as [lines e].
  assert (H : forall n result r,
    Parse_loop LookupEnv true lines e n result = (r, None) ->
    exists m, r = Some m).
  { induction lines as [|l lines IH]; intros n result r.
    - cbn [Parse_loop]. destruct e; [done|]. intros [= <-]. by eexists.
    - cbn [Parse_loop].
      destruct (isEmpty (TrimSpace l) || HasPrefix (TrimSpace l) (str "#"));
        [apply IH|].
      destruct (parseLine (TrimSpace l)) as [[key value] [err|]]; [done|].
      destruct (negb (isEmpty key)); apply IH. }
  destruct (Parse_loop LookupEnv true lines e 0 ∅) as [r [err|]] eqn:Hp;
    [done|].
  intros [= <-]. by apply (H _ _ _ Hp).
Qed.

Lemma Read_loop_keys (filenames : list gostring) (result m : Env) :
  Read_loop files LookupEnv filenames result = (Some m, None) ->
  (forall k, is_Some (result !! k) -> isIdentifier k = true) ->
  forall k, is_Some (m !! k) -> isIdentifier k = true.
Proof.
  revert result. induction filenames as [|f filenames IH]; intros result H Hr.
  - cbn [Read_loop] in H. by injection H as <-.
  - cbn [Read_loop] in H.
    destruct (readFile files LookupEnv f) as [env [err|]] eqn:Hf; [done|].
    destruct (readFile_shape f env Hf) as [m1 ->].
    rewrite mergeInto_union in H. apply (IH _ H).
    intros k [v Hv]. apply lookup_union_Some_raw in Hv as [Hv|[_ Hv]].
    + apply (readFile_keys f m1 k Hf). by eexists.
    + apply Hr. by eexists.
Qed.

End files.

(** X11.  Read merges the files in the order given, a later file taking
    precedence: when every file opens and parses, Read returns the union of
    their mappings in which, for a key that several files define, the value
    of the last of them stands. *)
Theorem Read_later_files_win (files : gostring -> option gostring)
    (LookupEnv : gostring -> option gostring) (filenames : list gostring)
    (ms : list Env) :
  filenames <> [] ->
  Forall2 (fun f m => exists content,
             files f = Some content
             /\ Parse LookupEnv content = (Some m, None)) filenames ms ->
  Read files LookupEnv filenames
  = (Some (foldl (fun acc m => m ∪ acc) ∅ ms), None).
Proof.
  intros Hne H. unfold Read.
  destruct filenames as [|f filenames]; [done|]. cbn [List.length Nat.eqb].
  apply Read_loop_union.
  eapply Forall2_impl; [exact H|].
  intros g m (content & Hf & Hp). by apply (readFile_parsed _ _ _ content).
Qed.

Lemma Read_later_files_win_witness :
  Read (fun name => if decide (name = str "a.env") then Some (str "K=1")
                    else if decide (name = str "b.env")
                         then Some (str "K=2" ++ LF :: str "L=$K")
                         else None)
    (fun _ => None) [str "a.env"; str "b.env"]
  = (Some (<[str "K" := str "2"]> {[ str "L" := str "2" ]}), None).
Proof.
  rewrite (Read_later_files_win _ (fun _ => None) [str "a.env"; str "b.env"]
             [{[ str "K" := str "1" ]};
              <[str "K" := str "2"]> {[ str "L" := str "2" ]}]).
  - reflexivity.
  - discriminate.
  - repeat constructor; eexists; (split; [reflexivity|reflexivity]).
Defined.

(** ** Setting the variables *)

Lemma identChar_name (c : ascii) :
  identChar c = true -> (c =c= "=") || (c =c= NUL) = false.
Proof.
  intros H. apply orb_false_iff.
  split; apply not_true_is_false; intros ->%ceq_true; discriminate.
Qed.

Lemma identifier_name (k : gostring) :
  isIdentifier k = true ->
  isEmpty k = false
  /\ existsb (fun c => (c =c= "=") || (c =c= NUL)) k = false.
Proof.
  destruct k as [|a k]; [done|]. cbn [isIdentifier isEmpty].
  intros [Ha Hk]%andb_true_iff. split; [done|].
  assert (Hall : forallb identChar (a :: k) = true).
  { cbn [forallb]. unfold identChar at 1. by rewrite Ha, Hk. }
  clear Ha Hk. induction (a :: k) as [|c s IH]; [done|].
  cbn [forallb existsb] in *. apply andb_true_iff in Hall as [Hc Hs].
  by rewrite (identChar_name c Hc), IH.
Qed.

Lemma noNUL_existsb (v : gostring) :
  existsb (fun c => c =c= NUL) v = negb (noNUL v).
Proof.
  induction v as [|c v IH]; [done|]. cbn [existsb noNUL forallb].
  fold (noNUL v). rewrite IH. by destruct (c =c= NUL).
Qed.

Lemma os_Setenv_identifier (key value : gostring) (environ : Env) :
  isIdentifier key = true ->
  os_Setenv key value environ
  = if noNUL value then Some (<[key := value]> environ) else None.
Proof.
  intros [He Hk]%identifier_name. unfold os_Setenv.
  rewrite He, Hk, noNUL_existsb. by destruct (noNUL value).
Qed.

Lemma os_Getenv_lookup (environ environ' : Env) (k : gostring) :
  environ' !! k = environ !! k -> os_Getenv environ' k = os_Getenv environ k.
Proof. intros H. unfold os_Getenv, os_LookupEnv. by rewrite H. Qed.

(** The loop of load when every variable can be set. *)
Lemma load_loop_sets (overload : bool) (entries : list (gostring * gostring))
    (environ : Env) :
  NoDup entries.*1 ->
  Forall (fun kv => isIdentifier kv.1 = true /\ noNUL kv.2 = true) entries ->
  exists environ',
    load_loop overload entries environ = (environ', None)
    /\ forall k,
         environ' !! k
         = match (list_to_map entries : Env) !! k with
           | Some v =>
             if overload || isEmpty (os_Getenv environ k) then Some v
             else environ !! k
           | None => environ !! k
           end.
Proof.
  intros Hnd Hall. revert environ.
  induction Hall as [|[key value] entries [Hk Hv] _ IH]; intros environ.
  { exists environ. split; [done|]. intros k. by rewrite list_to_map_nil, lookup_empty. }
  cbn [fst snd] in Hk, Hv. cbn [fmap list_fmap fst] in Hnd.
  apply NoDup_cons in Hnd as [Hnew Hnd]. specialize (IH Hnd).
  assert (Hnone : (list_to_map entries : Env) !! key = None)
    by by apply not_elem_of_list_to_map.
  cbn [load_loop]. rewrite (os_Setenv_identifier _ _ _ Hk), Hv.
  destruct (overload || isEmpty (os_Getenv environ key)) eqn:Hc.
  - destruct (IH (<[key := value]> environ)) as (environ' & -> & Hl).
    exists environ'. split; [done|]. intros k. rewrite Hl.
    rewrite list_to_map_cons.
    destruct (decide (key = k)) as [<-|Hne].
    + by rewrite Hnone, !lookup_insert_eq, Hc.
    + rewrite !(lookup_insert_ne _ key k) by done.
      by rewrite (os_Getenv_lookup environ (<[key := value]> environ) k)
        by by rewrite lookup_insert_ne.
  - destruct (IH environ) as (environ' & -> & Hl).
    exists environ'. split; [done|]. intros k. rewrite Hl.
    rewrite list_to_map_cons.
    destruct (decide (key = k)) as [<-|Hne].
    + by rewrite Hnone, lookup_insert_eq, Hc.
    + by rewrite lookup_insert_ne.
Qed.

(** The loop of load, whatever its outcome: a variable is as before, or
    has the value of its entry, and then the loop was allowed to set it. *)
Lemma load_loop_lookup (overload : bool) (entries : list (gostring * gostring))
    (environ : Env) (k : gostring) :
  NoDup entries.*1 ->
  (load_loop overload entries environ).1 !! k = environ !! k
  \/ exists v,
       (k, v) ∈ entries
       /\ (load_loop overload entries environ).1 !! k = Some v
       /\ overload || isEmpty (os_Getenv environ k) = true.
Proof.
  revert environ. induction entries as [|[key value] entries IH];
    intros environ Hnd; [by left|].
  cbn [fmap list_fmap fst] in Hnd.
  apply NoDup_cons in Hnd as [Hnew Hnd]. cbn [load_loop].
  destruct (overload || isEmpty (os_Getenv environ key)) eqn:Hc.
  - destruct (os_Setenv key value environ) as [environ1|] eqn:Hs; [|by left].
    assert (environ1 = <[key := value]> environ) as ->.
    { unfold os_Setenv in Hs. repeat case_match; congruence. }
    destruct (IH (<[key := value]> environ) Hnd) as [H|(v & Hin & H & Hc')].
    + destruct (decide (key = k)) as [<-|Hne].
      * right. exists value. rewrite H, lookup_insert_eq.
        split; [apply elem_of_cons; by left|done].
      * left. by rewrite H, lookup_insert_ne.
    + destruct (decide (key = k)) as [<-|Hne].
      * exfalso. apply Hnew. apply (list_elem_of_fmap_2 fst entries (key, v) Hin).
      * right. exists v. split; [apply elem_of_cons; by right|].
        split; [done|].
        by rewrite <- (os_Getenv_lookup environ (<[key := value]> environ) k)
          by by rewrite lookup_insert_ne.
  - destruct (IH environ Hnd) as [H|(v & Hin & H & Hc')]; [by left|].
    right. exists v. split; [apply elem_of_cons; by right|done].
Qed.

(** The loop of Overload stops at the first value that holds a NUL byte. *)
Lemma load_loop_NUL (entries : list (gostring * gostring)) (environ : Env) :
  Forall (fun kv => isIdentifier kv.1 = true) entries ->
  Exists (fun kv => noNUL kv.2 = false) entries ->
  exists k v environ',
    (k, v) ∈ entries /\ noNUL v = false
    /\ load_loop true entries environ = (environ', Some (FailedToSetEnv k)).
Proof.
  intros Hall. revert environ.
  induction Hall as [|[key value] entries Hk _ IH]; intros environ Hex.
  { by apply Exists_nil in Hex. }
  cbn [fst] in Hk. cbn [load_loop orb].
  rewrite (os_Setenv_identifier _ _ _ Hk).
  destruct (noNUL value) eqn:Hv.
  - apply Exists_cons in Hex as [Hex|Hex]; [cbn [snd] in Hex; congruence|].
    destruct (IH (<[key := value]> environ) Hex) as (k & v & e' & Hin & Hn & H).
    exists k, v, e'. split; [apply elem_of_cons; by right|done].
  - exists key, value, environ. split; [apply elem_of_cons; by left|done].
Qed.

(** X12.  Read and load fail as a whole: at the first file that cannot be
    opened or parsed, Read returns no mapping and that file's error, the
    files after it are not looked at, and load hands the error on with the
    environment as it was, although the files before it were read. *)
Theorem load_fails_as_a_whole (overload : bool)
    (files : gostring -> option gostring) (before : list gostring)
    (f : gostring) (after : list gostring) (environ : Env)
    (err : fileError) :
  Forall (fun g => exists content m,
            files g = Some content
            /\ Parse (os_LookupEnv environ) content = (Some m, None))
    before ->
  (files f = None /\ err = FailedToOpenFile f
   \/ exists content x e,
        files f = Some content
        /\ Parse (os_LookupEnv environ) content = (x, Some e)
        /\ err = FromParse e) ->
  Read files (os_LookupEnv environ) (before ++ f :: after) = (None, Some err)
  /\ load overload files (before ++ f :: after) environ = (environ, Some err).
Proof.
  intros Hb Hf.
  assert (HR : Read files (os_LookupEnv environ) (before ++ f :: after)
               = (None, Some err)).
  { unfold Read.
    replace (List.length (before ++ f :: after) =? 0) with false
      by by destruct before.
    assert (exists x, readFile files (os_LookupEnv environ) f = (x, Some err))
      as [x Hx].
    { unfold readFile.
      destruct Hf as [[-> ->]|(content & x & e & -> & -> & ->)];
        by eexists. }
    apply (Read_loop_fails _ _ _ _ _ x); [|exact Hx].
    eapply Forall_impl; [exact Hb|].
    intros g (content & m & Hg & Hp). exists m.
    by apply (readFile_parsed _ _ _ content). }
  split; [exact HR|]. unfold load. by rewrite HR.
Qed.

Lemma load_fails_as_a_whole_witness :
  Read (fun name => if decide (name = str "a.env") then Some (str "K=1")
                    else if decide (name = str "b.env") then Some (str "oops")
                    else None)
    (os_LookupEnv {[ str "HOME" := str "/root" ]})
    ([str "a.env"] ++ str "b.env" :: [str "c.env"])
  = (None,
     Some (FromParse (ParseErrorOnLine 1 (InvalidLineFormat (str "oops")))))
  /\ load true
       (fun name => if decide (name = str "a.env") then Some (str "K=1")
                    else if decide (name = str "b.env") then Some (str "oops")
                    else None)
       ([str "a.env"] ++ str "b.env" :: [str "c.env"])
       {[ str "HOME" := str "/root" ]}
     = ({[ str "HOME" := str "/root" ]},
        Some (FromParse
                (ParseErrorOnLine 1 (InvalidLineFormat (str "oops"))))).
Proof.
  apply load_fails_as_a_whole.
  - apply List.Forall_cons; [|apply List.Forall_nil].
    exists (str "K=1"), {[ str "K" := str "1" ]}. split; reflexivity.
  - right. exists (str "oops"), None,
      (ParseErrorOnLine 1 (InvalidLineFormat (str "oops"))).
    repeat split; reflexivity.
Defined.

(** X13.  What load does when the files are read and no value holds a NUL
    byte: it returns no error, and afterwards each variable that the files
    define has the files' value if load may set it (Overload always, Load
    when the variable is unset or empty), and every other variable is as
    before. *)
Theorem load_sets_variables (overload : bool)
    (files : gostring -> option gostring) (filenames : list gostring)
    (environ m : Env) :
  Read files (os_LookupEnv environ) filenames = (Some m, None) ->
  (forall k v, m !! k = Some v -> noNUL v = true) ->
  exists environ',
    load overload files filenames environ = (environ', None)
    /\ forall k,
         environ' !! k
         = match m !! k with
           | Some v =>
             if overload || isEmpty (os_Getenv environ k) then Some v
             else environ !! k
           | None => environ !! k
           end.
Proof.
  intros HR Hv. unfold load. rewrite HR.
  destruct (load_loop_sets overload (map_to_list m) environ)
    as (environ' & Hl & Hk).
  - apply NoDup_fst_map_to_list.
  - apply Forall_forall. intros [k v] Hin%elem_of_map_to_list.
    cbn [fst snd]. split; [|by apply (Hv k)].
    apply (Read_loop_keys files (os_LookupEnv environ) _ ∅ m HR);
      [|by eexists].
    intros k' [v' Hv']. by rewrite lookup_empty in Hv'.
  - exists environ'. split; [exact Hl|]. intros k.
    by rewrite Hk, list_to_map_to_list.
Qed.

Lemma load_sets_variables_witness :
  exists environ',
    load false
      (fun name => if decide (name = str ".env")
                   then Some (str "A=1" ++ LF :: str "B=2" ++ LF :: str "C=3")
                   else None)
      [] (<[str "A" := str "x"]> {[ str "B" := [] ]})
    = (environ', None)
    /\ forall k,
         environ' !! k
         = match (<[str "A" := str "1"]>
                    (<[str "B" := str "2"]> {[ str "C" := str "3" ]}) : Env)
                 !! k with
           | Some v =>
             if false
                || isEmpty (os_Getenv
                              (<[str "A" := str "x"]> {[ str "B" := [] ]}) k)
             then Some v
             else (<[str "A" := str "x"]> {[ str "B" := [] ]} : Env) !! k
           | None => (<[str "A" := str "x"]> {[ str "B" := [] ]} : Env) !! k
           end.
Proof.
  apply load_sets_variables.
  - reflexivity.
  - intros k v
      [[_ <-]|[_ [[_ <-]|[_ [_ <-]%lookup_singleton_Some]]%lookup_insert_Some]]
        %lookup_insert_Some; reflexivity.
Defined.

(** X14.  Whatever the outcome of load, also when it stops at a variable
    that cannot be set: each variable of the environment is as before, or
    it has the value that the files give it, and then Overload was called
    or the variable was unset or empty before. *)
Theorem load_changes_only_what_files_define (overload : bool)
    (files : gostring -> option gostring) (filenames : list gostring)
    (environ : Env) (k : gostring) :
  (load overload files filenames environ).1 !! k = environ !! k
  \/ exists m v,
       Read files (os_LookupEnv environ) filenames = (Some m, None)
       /\ m !! k = Some v
       /\ (load overload files filenames environ).1 !! k = Some v
       /\ (overload = true \/ os_Getenv environ k = []).
Proof.
  unfold load.
  destruct (Read files (os_LookupEnv environ) filenames)
    as [[m|] [err|]]; try by left.
  destruct (load_loop_lookup overload (map_to_list m) environ k)
    as [H|(v & Hin & H & Hc)]; [apply NoDup_fst_map_to_list|by left|].
  right. exists m, v. split; [done|].
  split; [by apply elem_of_map_to_list|]. split; [done|].
  apply orb_true_iff in Hc as [Hc|Hc]; [by left|right].
  by destruct (os_Getenv environ k).
Qed.

(** X15.  Load never changes a variable that is set to a non-empty value,
    whatever the files hold and whether or not Load succeeds. *)
Theorem Load_keeps_set_variables (files : gostring -> option gostring)
    (filenames : list gostring) (environ : Env) (k : gostring) :
  os_Getenv environ k <> [] ->
  (Load files filenames environ).1 !! k = environ !! k.
Proof.
  intros Hset. unfold Load, load.
  destruct (Read files (os_LookupEnv environ) filenames)
    as [[m|] [err|]]; try done.
  destruct (load_loop_lookup false (map_to_list m) environ k)
    as [H|(v & Hin & H & Hc)]; [apply NoDup_fst_map_to_list|done|].
  cbn [orb] in Hc. by destruct (os_Getenv environ k).
Qed.

Lemma Load_keeps_set_variables_witness :
  (Load (fun name => if decide (name = str ".env")
                     then Some (str "A=1" ++ LF :: str "B=2")
                     else None)
     [] (<[str "A" := str "x"]> {[ str "B" := [] ]})).1 !! str "A"
  = (<[str "A" := str "x"]> {[ str "B" := [] ]} : Env) !! str "A".
Proof. apply Load_keeps_set_variables. discriminate. Defined.

(** X16.  Overload reports a value that holds a NUL byte: when the files
    are read and some value holds one, Overload returns the error of
    setting a variable whose value holds a NUL byte. *)
Theorem Overload_fails_on_NUL (files : gostring -> option gostring)
    (filenames : list gostring) (environ m : Env) :
  Read files (os_LookupEnv environ) filenames = (Some m, None) ->
  (exists k v, m !! k = Some v /\ noNUL v = false) ->
  exists k v environ',
    m !! k = Some v /\ noNUL v = false
    /\ Overload files filenames environ = (environ', Some (FailedToSetEnv k)).
Proof.
  intros HR (k0 & v0 & Hk0 & Hv0). unfold Overload, load. rewrite HR.
  destruct (load_loop_NUL (map_to_list m) environ)
    as (k & v & environ' & Hin & Hv & Hl).
  - apply Forall_forall. intros [k v] Hin%elem_of_map_to_list. cbn [fst].
    apply (Read_loop_keys files (os_LookupEnv environ) _ ∅ m HR);
      [|by eexists].
    intros k' [v' Hv']. by rewrite lookup_empty in Hv'.
  - apply Exists_exists. exists (k0, v0).
    split; [by apply elem_of_map_to_list|done].
  - exists k, v, environ'. split; [by apply elem_of_map_to_list|done].
Qed.

Lemma Overload_fails_on_NUL_witness :
  exists k v environ',
    ({[ str "A" := [NUL] ]} : Env) !! k = Some v /\ noNUL v = false
    /\ Overload (fun name => if decide (name = str ".env")
                             then Some (str "A=" ++ [NUL]) else None)
         [] ∅
       = (environ', Some (FailedToSetEnv k)).
Proof.
  apply Overload_fails_on_NUL.
  - reflexivity.
  - exists (str "A"), [NUL]. split; reflexivity.
Defined.

(** The loop of load when it ends without an error. *)
Lemma load_loop_done (overload : bool) (entries : list (gostring * gostring))
    (environ environ' : Env) :
  NoDup entries.*1 ->
  load_loop overload entries environ = (environ', None) ->
  forall k,
    environ' !! k
    = match (list_to_map entries : Env) !! k with
      | Some v =>
        if overload || isEmpty (os_Getenv environ k) then Some v
        else environ !! k
      | None => environ !! k
      end.
Proof.
  revert environ. induction entries as [|[key value] entries IH];
    intros environ Hnd Hl k.
  { cbn [load_loop] in Hl. injection Hl as <-.
    by rewrite list_to_map_nil, lookup_empty. }
  cbn [fmap list_fmap fst] in Hnd.
  apply NoDup_cons in Hnd as [Hnew Hnd].
  assert (Hnone : (list_to_map entries : Env) !! key = None)
    by by apply not_elem_of_list_to_map.
  cbn [load_loop] in Hl. rewrite list_to_map_cons.
  destruct (overload || isEmpty (os_Getenv environ key)) eqn:Hc.
  - destruct (os_Setenv key value environ) as [environ1|] eqn:Hs; [|done].
    assert (environ1 = <[key := value]> environ) as ->.
    { unfold os_Setenv in Hs. repeat case_match; congruence. }
    rewrite (IH _ Hnd Hl k).
    destruct (decide (key = k)) as [<-|Hne].
    + by rewrite Hnone, !lookup_insert_eq, Hc.
    + rewrite !(lookup_insert_ne _ key k) by done.
      by rewrite (os_Getenv_lookup environ (<[key := value]> environ) k)
        by by rewrite lookup_insert_ne.
  - rewrite (IH _ Hnd Hl k).
    destruct (decide (key = k)) as [<-|Hne].
    + by rewrite Hnone, lookup_insert_eq, Hc.
    + by rewrite lookup_insert_ne.
Qed.

(** X17.  A file that Write has written is read back by Read as the
    mapping written.  On a file system where a file written without error
    opens with the text written, for a mapping whose keys are identifiers,
    whose values hold no '$', whose unquoted values neither begin nor end
    with white space and whose lines are shorter than the scanner's buffer:
    when Write returns no error, Read of that file returns the mapping. *)
Theorem Write_then_Read (FS osError : Type)
    (filepath_Dir : gostring -> gostring)
    (os_MkdirAll : gostring -> FS -> FS * option osError)
    (os_WriteFile : gostring -> gostring -> FS -> FS * option osError)
    (open : FS -> gostring -> option gostring)
    (LookupEnv : gostring -> option gostring)
    (m : Env) (filename : gostring) (fs fs' : FS) :
  (forall name content fs0 fs1,
     os_WriteFile name content fs0 = (fs1, None) ->
     open fs1 name = Some content) ->
  (forall k v, m !! k = Some v ->
     isIdentifier k = true
     /\ noDollar v = true
     /\ (needsQuoting v = false -> TrimSpace v = v)
     /\ List.length (formatEnvLine k v) < MaxScanTokenSize) ->
  Write FS osError filepath_Dir os_MkdirAll os_WriteFile m filename fs
  = (fs', None) ->
  Read (open fs') LookupEnv [filename] = (Some m, None).
Proof.
  intros Hfs Hm HW. unfold Write in HW.
  destruct (Marshal m) as [content [e|]] eqn:HM; [done|].
  destruct (os_MkdirAll (filepath_Dir filename) fs) as [fs1 [e|]]; [done|].
  destruct (os_WriteFile filename (content ++ [LF]) fs1) as [fs2 [e|]]
    eqn:Hw; [done|].
  injection HW as <-. apply Hfs in Hw.
  unfold Read. cbn [List.length Nat.eqb Read_loop]. unfold readFile.
  rewrite Hw. unfold Parse. rewrite Parser_Parse_final_newline.
  replace content with (Marshal m).1 by by rewrite HM.
  rewrite Parser_Parse_Marshal.
  - cbn [option_map]. by rewrite mergeInto_union, (right_id ∅ (∪)).
  - intros k v Hv. destruct (Hm k v Hv) as (? & ? & ? & ?). done.
Qed.

Lemma Write_then_Read_witness :
  Read (fun n => (<[str "conf/.env" :=
                     str "A=1" ++ LF :: str "B=" ++ DQ :: str "x y"
                     ++ DQ :: [LF]]> (∅ : Env)) !! n)
    (fun _ => None) [str "conf/.env"]
  = (Some (<[str "A" := str "1"]> {[ str "B" := str "x y" ]}), None).
Proof.
  apply (Write_then_Read Env unit (fun _ => str "conf")
           (fun _ fs => (fs, None))
           (fun name content fs => (<[name := content]> fs, None))
           (fun fs name => fs !! name) (fun _ => None)
           (<[str "A" := str "1"]> {[ str "B" := str "x y" ]})
           (str "conf/.env") ∅).
  - intros name content fs0 fs1 [= <-]. apply lookup_insert_eq.
  - intros k v [[<- <-]|[_ [<- <-]%lookup_singleton_Some]]%lookup_insert_Some;
      (split; [reflexivity | split; [reflexivity | split;
         [try discriminate; reflexivity | short_line]]]).
  - reflexivity.
Defined.

(** X18.  A variable that load has set to the empty value counts as not
    set.  After a load without error, for a key that the files define and
    that load may set (Overload, or the variable was unset or empty):
    GetRequired panics and GetWithDefault gives the default when the files'
    value is empty, and both give the files' value otherwise. *)
Theorem getters_after_load (overload : bool)
    (files : gostring -> option gostring) (filenames : list gostring)
    (environ environ' m : Env) (k v d : gostring) :
  Read files (os_LookupEnv environ) filenames = (Some m, None) ->
  load overload files filenames environ = (environ', None) ->
  m !! k = Some v ->
  overload = true \/ os_Getenv environ k = [] ->
  GetRequired environ' k = (if isEmpty v then None else Some v)
  /\ GetWithDefault environ' k d = (if isEmpty v then d else v).
Proof.
  intros HR Hl Hv Hc. unfold load in Hl. rewrite HR in Hl.
  pose proof (load_loop_done overload (map_to_list m) environ environ'
                (NoDup_fst_map_to_list m) Hl k) as Hk.
  rewrite list_to_map_to_list, Hv in Hk.
  replace (overload || isEmpty (os_Getenv environ k)) with true in Hk.
  2:{ destruct Hc as [->| ->]; [done|by rewrite orb_true_r]. }
  assert (Hid : isIdentifier k = true).
  { apply (Read_loop_keys files (os_LookupEnv environ) _ ∅ m HR);
      [|by eexists].
    intros k' [v' Hv']. by rewrite lookup_empty in Hv'. }
  assert (Hg : os_Getenv environ' k = v).
  { unfold os_Getenv, os_LookupEnv.
    destruct (identifier_name k Hid) as [-> _]. by rewrite Hk. }
  unfold GetRequired, GetWithDefault. rewrite Hg. by destruct v.
Qed.

Lemma getters_after_load_witness :
  GetRequired (<[str "A" := []]> (<[str "B" := str "2"]> ∅)) (str "A")
  = (if isEmpty [] then None else Some [])
  /\ GetWithDefault (<[str "A" := []]> (<[str "B" := str "2"]> ∅))
       (str "A") (str "dflt")
     = (if isEmpty [] then str "dflt" else []).
Proof.
  apply (getters_after_load true
           (fun name => if decide (name = str ".env")
                        then Some (str "A=" ++ LF :: str "B=2") else None)
           [] ∅ _ (<[str "A" := []]> {[ str "B" := str "2" ]})).
  - reflexivity.
  - vm_compute. reflexivity.
  - reflexivity.
  - by left.
Defined.

(** * Line endings *)

Lemma asciiSpace_CR : asciiSpace CR = true.
Proof. reflexivity. Qed.

Lemma isSpace2_CR (a : ascii) : isSpace2 a CR = false.
Proof.
  apply not_true_is_false. intros [_ H]%isSpace2_high.
  vm_compute in H. lia.
Qed.

Lemma isSpace3_CR (a b : ascii) : isSpace3 a b CR = false.
Proof.
  apply not_true_is_false. intros (_ & _ & H)%isSpace3_high.
  vm_compute in H. lia.
Qed.

(** A carriage return at the end stays at the end when the front is
    trimmed, unless all is trimmed. *)
Lemma TrimLeftSpace_snoc_CR (n : nat) (s : gostring) :
  List.length s <= n ->
  (TrimLeftSpace s = [] /\ TrimLeftSpace (s ++ [CR]) = [])
  \/ TrimLeftSpace (s ++ [CR]) = TrimLeftSpace s ++ [CR].
Proof.
  unfold TrimLeftSpace. revert s. induction n as [|n IH]; intros s Hs.
  { destruct s; [|simpl in Hs; lia]. left. split; [done|].
    cbn [app]. by rewrite trimFront_cons, asciiSpace_CR. }
  destruct s as [|a s1].
  { left. split; [done|]. cbn [app]. by rewrite trimFront_cons, asciiSpace_CR. }
  simpl in Hs. cbn [app]. rewrite !(trimFront_cons _ _ a).
  destruct (asciiSpace a); [apply IH; lia|].
  destruct s1 as [|b s2].
  { right. cbn [app]. by rewrite isSpace2_CR. }
  simpl in Hs. cbn [app].
  destruct (isSpace2 a b); [apply IH; lia|].
  destruct s2 as [|c s3].
  { right. cbn [app]. by rewrite isSpace3_CR. }
  simpl in Hs. cbn [app].
  destruct (isSpace3 a b c); [apply IH; lia|]. by right.
Qed.

Lemma TrimRightSpace_snoc_CR (s : gostring) :
  TrimRightSpace (s ++ [CR]) = TrimRightSpace s.
Proof.
  rewrite !TrimRightSpace_rev, rev_app_distr. cbn [rev app].
  by rewrite trimFront_cons, asciiSpace_CR.
Qed.

Lemma TrimSpace_snoc_CR (s : gostring) : TrimSpace (s ++ [CR]) = TrimSpace s.
Proof.
  unfold TrimSpace.
  destruct (TrimLeftSpace_snoc_CR (List.length s) s (le_n _))
    as [[-> ->]| ->]; [done|].
  apply TrimRightSpace_snoc_CR.
Qed.

Lemma dropCR_snoc_CR (s : gostring) : dropCR (s ++ [CR]) = s.
Proof.
  unfold dropCR.
  replace (List.length (s ++ [CR]) - 1) with (List.length s)
    by (rewrite length_app; simpl; lia).
  rewrite at_app_last, ceq_refl.
  replace (0 <? List.length (s ++ [CR])) with true
    by (symmetry; apply Nat.ltb_lt; rewrite length_app; simpl; lia).
  unfold slice. cbn [andb drop]. rewrite Nat.sub_0_r. apply take_app_length.
Qed.

(** The carriage return that the scanner drops would be trimmed anyway. *)
Lemma TrimSpace_dropCR (s : gostring) : TrimSpace (dropCR s) = TrimSpace s.
Proof.
  destruct s as [|z s _] using rev_ind; [done|].
  destruct (z =c= CR) eqn:Hz.
  - apply ceq_true in Hz as ->.
    by rewrite dropCR_snoc_CR, TrimSpace_snoc_CR.
  - by rewrite dropCR_keep.
Qed.

(** The loop of Parse sees a line only through TrimSpace. *)
Lemma Parse_loop_TrimSpace (LookupEnv : gostring -> option gostring)
    (expandVars : bool) (lines lines' : list gostring)
    (scanErr : option error) (n : nat) (result : Env) :
  Forall2 (fun l l' => TrimSpace l = TrimSpace l') lines lines' ->
  Parse_loop LookupEnv expandVars lines scanErr n result
  = Parse_loop LookupEnv expandVars lines' scanErr n result.
Proof.
  intros H. revert n result.
  induction H as [|l l' lines lines' Hl _ IH]; intros n result; [done|].
  cbn [Parse_loop]. rewrite Hl.
  destruct (isEmpty (TrimSpace l') || HasPrefix (TrimSpace l') (str "#"));
    [apply IH|].
  destruct (parseLine (TrimSpace l')) as [[key value] [err|]]; [done|].
  destruct (negb (isEmpty key)); apply IH.
Qed.

(** X19.  Lines that end in carriage return and newline are read as lines
    that end in a newline.  For lines shorter than the scanner's buffer by
    at least two bytes, followed by any text: Parse gives the same mapping
    or the same error whether each of the lines ends in CR LF or in LF. *)
Theorem Parse_crlf (LookupEnv : gostring -> option gostring)
    (expandVars : bool) (lines : list gostring) (rest : gostring) :
  Forall (fun l => noLF l = true /\ List.length l + 1 < MaxScanTokenSize)
    lines ->
  Parser_Parse LookupEnv expandVars
    (flat_map (fun l => l ++ [CR; LF]) lines ++ rest)
  = Parser_Parse LookupEnv expandVars (unlines lines ++ rest).
Proof.
  intros H. unfold Parser_Parse.
  replace (flat_map (fun l => l ++ [CR; LF]) lines)
    with (unlines (map (fun l => l ++ [CR]) lines)).
  2:{ unfold unlines. clear H. induction lines as [|l lines IH]; [done|].
      cbn [map flat_map]. rewrite IH, <- !app_assoc. reflexivity. }
  rewrite !Scanner_run_unlines.
  - cbn [fst snd]. apply Parse_loop_TrimSpace. apply Forall2_app.
    + clear H. induction lines as [|l lines IH]; [constructor|].
      cbn [map]. constructor; [|exact IH].
      by rewrite dropCR_snoc_CR, TrimSpace_dropCR.
    + clear H. induction (Scanner_run [] rest).1; by constructor.
  - eapply Forall_impl; [exact H|]. intros l [Hl Hlen]. split; [done|lia].
  - apply Forall_map. eapply Forall_impl; [exact H|].
    intros l [Hl Hlen]. cbn beta. split.
    + unfold noLF in *. by rewrite forallb_app, Hl.
    + rewrite length_app. simpl. lia.
Qed.

Lemma Parse_crlf_witness :
  Parser_Parse (fun _ => None) true
    (flat_map (fun l => l ++ [CR; LF]) [str "A=1"; str "B=$A # two"]
     ++ str "C=3")
  = Parser_Parse (fun _ => None) true
      (unlines [str "A=1"; str "B=$A # two"] ++ str "C=3").
Proof.
  apply Parse_crlf.
  apply List.Forall_cons; [split; [reflexivity|short_line]|].
  apply List.Forall_cons; [split; [reflexivity|short_line]|].
  apply List.Forall_nil.
Defined.
